(** * pinkypromise: promises, their settlement engine and the chaining
      and batch combinators (package [promise]).

    The Go code is embedded as an interleaving machine.  A promise lives in
    a heap and is named by its index; a goroutine is a stack of activation
    frames of [call]; every section of code that runs under the state lock
    [p.lock] is one atomic transition (this is what the lock guarantees),
    while the settlement-execution lock [p.doneMu] is an explicit boolean,
    so that a goroutine that wants it can really be blocked.  A scheduler
    is a list of operations: steps of goroutines and calls of the public
    interface by the surrounding program. *)

From Stdlib Require Import Lia.
From stdpp Require Import base option list strings.

Set Default Proof Using "Type".

(** ** Data model *)

(** A promise is named by its place in the heap. *)
Abbreviation pid := nat (only parsing).

Section Machine.

(** [V] stands for the instantiations of the type parameters [T], [X];
    [zero] is their zero value.  A Go [error] is [option E], [None] being
    [nil].  [M] is the memory that user code owns (variables captured by
    closures, channels). *)
Context {V E M : Type}.
Variable zero : V.

(** User code: a function body that takes guarded atomic steps on the user
    memory and finally returns [(T, error)].  A step [UStep g k] is blocked
    while [g] answers [None] (e.g. a send on a channel nobody reads);
    otherwise it writes the memory and goes on as [k] says, which may look
    at the memory the step found (e.g. the old value of an atomic swap). *)
Inductive UProg : Type :=
| URet (r : V * option E)
| UStep (g : M -> option M) (k : M -> UProg).

(** The closures that [Then] and [Catch] push on the queues:
    [thenHn] of [Then]; [catchHn] of [Then] (which only hands the error on);
    [catchHn] of [Catch].  [q] is the captured [newPromise]. *)
Inductive ThenHandler : Type :=
| ThenHn (q : pid) (f : V -> UProg).

Inductive ErrHandler : Type :=
| PropHn (q : pid)
| CatchHn (q : pid) (f : option E -> UProg).

(** [type Promise[T any] struct].  [lock] has no field: its critical
    sections are the atomic transitions.  [*list.List] is a pointer, so a
    queue is an [option]: [None] is [nil]. *)
Record Promise : Type := mkPromise {
  notDone : bool;
  doneMu : bool;
  thenList : option (list ThenHandler);
  errorList : option (list ErrHandler);
  res : V;
  err : option E
}.

(** The function literals that are passed to [call]. *)
Inductive Producer : Type :=
| PUser (f : UProg)
    (* the producer given to NewFn *)
| PThen (f : V -> UProg) (r : V)
    (* func() (X, error) { return f(res) }, in thenHn *)
| PErr (e : option E)
    (* func() (_ X, innerErr error) { innerErr = err; return } *)
| PCatch (f : option E -> UProg) (e : option E)
    (* func() (X, error) { return f(err) }, in catchHn of Catch *)
| PThenDone (p : pid) (r : V) (e : option E) (f : V -> UProg)
    (* the closure of Then for a promise that is done *)
| PCatchDone (p : pid) (e : option E) (f : option E -> UProg).
    (* the closure of Catch for a promise that is done with an error *)

(** Program points of one activation of [p.call(f)]. *)
Inductive Frame : Type :=
| FCall (q : pid) (f : Producer)
    (* entry: res, err := f() is about to start *)
| FRun (q : pid) (held : option pid) (u : UProg)
    (* inside f(); [held] is the doneMu whose Unlock is deferred *)
| FSettle (q : pid) (r : V) (e : option E)
    (* f returned; p.lock.Lock() ... p.lock.Unlock() comes next *)
| FLockDone (q : pid) (r : V) (e : option E)
            (tl : option (list ThenHandler)) (el : option (list ErrHandler))
    (* both queues detached; p.doneMu.Lock() comes next *)
| FPassErr (q : pid) (e : option E) (hs : list ErrHandler)
    (* for s := errorList.Front(); s != nil; s = s.Next() *)
| FPassThen (q : pid) (r : V) (hs : list ThenHandler)
    (* for s := thenList.Front(); s != nil; s = s.Next() *)
| FPanic.
    (* nil pointer dereference: Front() of a nil list; the deferred
       p.doneMu.Unlock() runs while the panic unwinds *)

(** Ghost record of what happened, in order (newest first). *)
Inductive Event : Type :=
| EvSettle (q : pid) (r : V) (e : option E)
| EvThenHandler (p : pid) (h : ThenHandler) (r : V)
| EvErrHandler (p : pid) (h : ErrHandler) (e : option E)
| EvCallThen (q : pid) (r : V)
    (* the handler f of the Then that made q was invoked with r *)
| EvCallCatch (q : pid) (e : option E).
    (* the handler f of the Catch that made q was invoked with e *)

Record State : Type := mkState {
  heap : list Promise;
  threads : list (list Frame);
  mem : M;
  log : list Event
}.

Definition set_heap (h : list Promise) (s : State) : State :=
  mkState h (threads s) (mem s) (log s).
Definition set_mem (m : M) (s : State) : State :=
  mkState (heap s) (threads s) m (log s).
Definition add_log (ev : Event) (s : State) : State :=
  mkState (heap s) (threads s) (mem s) (ev :: log s).
Definition spawn (t : list Frame) (s : State) : State :=
  mkState (heap s) (threads s ++ [t]) (mem s) (log s).
Definition alloc (P : Promise) (s : State) : State :=
  mkState (heap s ++ [P]) (threads s) (mem s) (log s).

Definition set_doneMu (b : bool) (P : Promise) : Promise :=
  mkPromise (notDone P) b (thenList P) (errorList P) (res P) (err P).

(** [&Promise[X]{notDone: true, errorList: list.New(), thenList: list.New()}] *)
Definition pendingPromise : Promise :=
  mkPromise true false (Some []) (Some []) zero None.

(** p.doneMu.Lock(): [None] while somebody else holds it. *)
Definition lockDone (p : pid) (s : State) : option State :=
  P ← heap s !! p;
  if doneMu P then None
  else Some (set_heap (<[p := set_doneMu true P]> (heap s)) s).

(** p.doneMu.Unlock() *)
Definition unlockDone (p : pid) (s : State) : option State :=
  P ← heap s !! p;
  Some (set_heap (<[p := set_doneMu false P]> (heap s)) s).

(** The critical section of [call]:
      p.notDone = false; p.err = err; p.res = res
      thenList := p.thenList; p.thenList = nil
      errorList := p.errorList; p.errorList = nil *)
Definition settle (q : pid) (r : V) (e : option E) (s : State)
  : option (option (list ThenHandler) * option (list ErrHandler) * State) :=
  P ← heap s !! q;
  Some (thenList P, errorList P,
        add_log (EvSettle q r e)
          (set_heap (<[q := mkPromise false (doneMu P) None None r e]> (heap s)) s)).

(** What a handler closure does when the pass calls it. *)
Definition invokeThen (h : ThenHandler) (r : V) : Frame :=
  match h with ThenHn q f => FCall q (PThen f r) end.

Definition invokeErr (h : ErrHandler) (e : option E) : Frame :=
  match h with
  | PropHn q => FCall q (PErr e)
  | CatchHn q f => FCall q (PCatch f e)
  end.

(** One step of the activation on top of a goroutine's stack.  The answer is
    the frames that replace it (none: [call] returned; two: a handler was
    called and runs a nested [call]) and the new state; [None]: blocked. *)
Definition step_frame (fr : Frame) (s : State) : option (list Frame * State) :=
  match fr with
  | FCall q (PUser u) => Some ([FRun q None u], s)
  | FCall q (PThen f r) => Some ([FRun q None (f r)], add_log (EvCallThen q r) s)
  | FCall q (PErr e) => Some ([FSettle q zero e], s)
  | FCall q (PCatch f e) => Some ([FRun q None (f e)], add_log (EvCallCatch q e) s)
  | FCall q (PThenDone p r e f) =>
      s' ← lockDone p s;
      match e with
      | Some _ => Some ([FRun q (Some p) (URet (zero, e))], s')
      | None => Some ([FRun q (Some p) (f r)], add_log (EvCallThen q r) s')
      end
  | FCall q (PCatchDone p e f) =>
      s' ← lockDone p s;
      Some ([FRun q (Some p) (f e)], add_log (EvCallCatch q e) s')
  | FRun q held (URet (r, e)) =>
      match held with
      | Some p => s' ← unlockDone p s; Some ([FSettle q r e], s')
      | None => Some ([FSettle q r e], s)
      end
  | FRun q held (UStep g k) =>
      m' ← g (mem s);
      Some ([FRun q held (k (mem s))], set_mem m' s)
  | FSettle q r e =>
      '(tl, el, s') ← settle q r e s;
      Some ([FLockDone q r e tl el], s')
  | FLockDone q r e tl el =>
      s' ← lockDone q s;
      match e with
      | Some _ =>
          match el with
          | Some hs => Some ([FPassErr q e hs], s')
          | None => Some ([FPanic], s)
          end
      | None =>
          match tl with
          | Some hs => Some ([FPassThen q r hs], s')
          | None => Some ([FPanic], s)
          end
      end
  | FPassErr q e [] => s' ← unlockDone q s; Some ([], s')
  | FPassErr q e (h :: hs) =>
      Some ([invokeErr h e; FPassErr q e hs], add_log (EvErrHandler q h e) s)
  | FPassThen q r [] => s' ← unlockDone q s; Some ([], s')
  | FPassThen q r (h :: hs) =>
      Some ([invokeThen h r; FPassThen q r hs], add_log (EvThenHandler q h r) s)
  | FPanic => None
  end.

Definition set_thread (t : nat) (st : list Frame) (s : State) : State :=
  mkState (heap s) (<[t := st]> (threads s)) (mem s) (log s).

(** Goroutine [t] takes one step. *)
Definition step (t : nat) (s : State) : option State :=
  st ← threads s !! t;
  match st with
  | [] => None
  | fr :: rest =>
      '(frs, s') ← step_frame fr s;
      Some (set_thread t (frs ++ rest) s')
  end.

(** ** The public interface *)

(** func (p *Promise[T]) Resolve() *PromiseResolution[T] *)
Definition Resolve (p : pid) (s : State) : option (option (V * option E)) :=
  P ← heap s !! p;
  if notDone P then Some None else Some (Some (res P, err P)).

(** func NewFn[T any](f func() (T, error)) *Promise[T] *)
Definition NewFn (f : UProg) (s : State) : pid * State :=
  let p := length (heap s) in
  (p, spawn [FCall p (PUser f)] (alloc pendingPromise s)).

(** func NewFnWithArg[T any, X any](arg T, f func(T) (X, error)) *Promise[X] *)
Definition NewFnWithArg (arg : V) (f : V -> UProg) (s : State) : pid * State :=
  NewFn (f arg) s.

(** func NewResolved[T any](result T) *Promise[T] *)
Definition NewResolved (result : V) (s : State) : pid * State :=
  (length (heap s), alloc (mkPromise false false None None result None) s).

(** func NewRejected[T any](err error) *Promise[T] *)
Definition NewRejected (e : option E) (s : State) : pid * State :=
  (length (heap s), alloc (mkPromise false false None None zero e) s).

(** &Promise[T]{} *)
Definition NewZero (s : State) : pid * State :=
  (length (heap s), alloc (mkPromise false false None None zero None) s).

(** l.PushBack(v) on a [*list.List]; on [nil] it panics. *)
Definition pushBack {A} (l : option (list A)) (x : A) : option (list A) :=
  match l with Some xs => Some (xs ++ [x]) | None => None end.

(** func Then[T any, X any](p *Promise[T], f func(T) (X, error)) *Promise[X].
    [None] is a panic (or a pointer that names no promise). *)
Definition Then (p : pid) (f : V -> UProg) (s : State) : option (pid * State) :=
  P ← heap s !! p;
  let q := length (heap s) in
  if notDone P then
    tl ← pushBack (thenList P) (ThenHn q f);
    el ← pushBack (errorList P) (PropHn q);
    let P' := mkPromise (notDone P) (doneMu P) (Some tl) (Some el) (res P) (err P) in
    Some (q, alloc pendingPromise (set_heap (<[p := P']> (heap s)) s))
  else
    Some (q, spawn [FCall q (PThenDone p (res P) (err P) f)]
               (alloc pendingPromise s)).

(** func Catch[T any, X any](p *Promise[T], f func(error) (X, error)) *Promise[X] *)
Definition Catch (p : pid) (f : option E -> UProg) (s : State) : option (pid * State) :=
  P ← heap s !! p;
  let q := length (heap s) in
  if notDone P then
    el ← pushBack (errorList P) (CatchHn q f);
    let P' := mkPromise (notDone P) (doneMu P) (thenList P) (Some el) (res P) (err P) in
    Some (q, alloc pendingPromise (set_heap (<[p := P']> (heap s)) s))
  else
    match err P with
    | None =>
        Some (q, alloc (mkPromise false false (Some []) (Some []) zero None) s)
    | Some _ =>
        Some (q, spawn [FCall q (PCatchDone p (err P) f)]
                   (alloc pendingPromise s))
    end.

(** ** Schedules *)

(** What may happen next: a goroutine steps, or the surrounding program
    calls the interface or writes its own memory. *)
Inductive Op : Type :=
| OStep (t : nat)
| ONewFn (f : UProg)
| ONewFnWithArg (arg : V) (f : V -> UProg)
| ONewResolved (v : V)
| ONewRejected (e : option E)
| ONewZero
| OThen (p : pid) (f : V -> UProg)
| OCatch (p : pid) (f : option E -> UProg)
| OMem (g : M -> M).

Definition exec (o : Op) (s : State) : option State :=
  match o with
  | OStep t => step t s
  | ONewFn f => Some (NewFn f s).2
  | ONewFnWithArg arg f => Some (NewFnWithArg arg f s).2
  | ONewResolved v => Some (NewResolved v s).2
  | ONewRejected e => Some (NewRejected e s).2
  | ONewZero => Some (NewZero s).2
  | OThen p f => snd <$> Then p f s
  | OCatch p f => snd <$> Catch p f s
  | OMem g => Some (set_mem (g (mem s)) s)
  end.

Fixpoint run (os : list Op) (s : State) : option State :=
  match os with
  | [] => Some s
  | o :: os' => s' ← exec o s; run os' s'
  end.

Definition init (m : M) : State := mkState [] [] m [].

Definition reachable (s s' : State) : Prop := ∃ os, run os s = Some s'.

(** ** Who may still settle a promise

    A promise is settled by an activation of [call] on it.  The promises
    that an activation is about to settle, or that a queued handler will
    settle when it is called, are the settlement targets. *)

Definition thenTarget (h : ThenHandler) : pid :=
  match h with ThenHn q _ => q end.

Definition errTarget (h : ErrHandler) : pid :=
  match h with PropHn q => q | CatchHn q _ => q end.

Definition queue {A} (l : option (list A)) : list A := default [] l.

(** The queue that the pass will run: [if err != nil] the error list,
    otherwise the then list. *)
Definition selected (e : option E) (tl : option (list ThenHandler))
    (el : option (list ErrHandler)) : list pid :=
  match e with
  | Some _ => errTarget <$> queue el
  | None => thenTarget <$> queue tl
  end.

Definition frameTargets (fr : Frame) : list pid :=
  match fr with
  | FCall q _ => [q]
  | FRun q _ _ => [q]
  | FSettle q _ _ => [q]
  | FLockDone _ _ e tl el => selected e tl el
  | FPassErr _ _ hs => errTarget <$> hs
  | FPassThen _ _ hs => thenTarget <$> hs
  | FPanic => []
  end.

Fixpoint count (x : nat) (l : list nat) : nat :=
  match l with
  | [] => 0
  | y :: l' => (if decide (x = y) then 1 else 0) + count x l'
  end.

Fixpoint sumOf {A} (g : A -> nat) (l : list A) : nat :=
  match l with
  | [] => 0
  | a :: l' => g a + sumOf g l'
  end.

Definition frameCount (x : pid) (fr : Frame) : nat := count x (frameTargets fr).
Definition stackCount (x : pid) (st : list Frame) : nat := sumOf (frameCount x) st.
Definition errCount (x : pid) (P : Promise) : nat :=
  count x (errTarget <$> queue (errorList P)).
Definition thenCount (x : pid) (P : Promise) : nat :=
  count x (thenTarget <$> queue (thenList P)).

(** How many activations and queued failure handlers target [x].  (Every
    queued success handler has a failure handler of the same target next to
    it, see [inv_then] below, and only one of the two queues is run.) *)
Definition targetCount (x : pid) (s : State) : nat :=
  sumOf (stackCount x) (threads s) + sumOf (errCount x) (heap s).

Definition hasFlag (b : bool) (s : State) (q : pid) : Prop :=
  ∃ P, heap s !! q = Some P ∧ notDone P = b.

Definition pending (s : State) (q : pid) : Prop := hasFlag true s q.
Definition settled (s : State) (q : pid) : Prop := hasFlag false s q.

Definition settledWith (s : State) (q : pid) (r : V) (e : option E) : Prop :=
  ∃ P, heap s !! q = Some P ∧ notDone P = false ∧ res P = r ∧ err P = e.

Definition isSettle (q : pid) (ev : Event) : bool :=
  match ev with EvSettle q' _ _ => bool_decide (q' = q) | _ => false end.

(** Number of times [q] went from pending to settled. *)
Definition settleCount (q : pid) (s : State) : nat :=
  length (filter (λ ev, isSettle q ev = true) (log s)).

Definition isCall (q : pid) (ev : Event) : bool :=
  match ev with
  | EvCallThen q' _ => bool_decide (q' = q)
  | EvCallCatch q' _ => bool_decide (q' = q)
  | _ => false
  end.

(** The invocations of the handler [f] that was given to the [Then] or
    [Catch] that made [q]. *)
Definition calls (q : pid) (s : State) : list Event :=
  filter (λ ev, isCall q ev = true) (log s).

(** The invariant of the machine. *)
Record Inv (s : State) : Prop := mkInv {
  inv_unique : ∀ x, targetCount x s ≤ 1;
  inv_pending : ∀ x, 0 < targetCount x s → pending s x;
  inv_then : ∀ p P x, heap s !! p = Some P → thenCount x P ≤ errCount x P;
  inv_queues : ∀ p P, heap s !! p = Some P → notDone P = true →
      is_Some (thenList P) ∧ is_Some (errorList P);
  inv_log : ∀ q, 0 < settleCount q s → settled s q;
  inv_once : ∀ q, settleCount q s ≤ 1
}.

(** How often goroutine [t] is scheduled in [os]. *)
Fixpoint countSteps (t : nat) (os : list Op) : nat :=
  match os with
  | [] => 0
  | OStep t' :: os' => (if decide (t' = t) then 1 else 0) + countSteps t os'
  | _ :: os' => countSteps t os'
  end.

(** A goroutine [t] that runs one [call] on [q]: [stage i] is its stack
    after [i] of its own steps and [cl i] the calls of [q]'s handler so far;
    after [n] steps [q] is settled with [(r, e)]. *)
Definition atStage (t : nat) (q : pid) (r : V) (e : option E)
    (stage : nat → list Frame) (cl : nat → list Event) (n i : nat)
    (s : State) : Prop :=
  calls q s = cl (i `min` n) ∧
  if decide (i < n) then threads s !! t = Some (stage i) ∧ pending s q
  else settledWith s q r e.

(** The stacks of the goroutine that [Then] starts for a promise that is
    done with an error. *)
Definition thenErrStage (p q : pid) (r0 : V) (e0 : E) (f : V → UProg)
    (i : nat) : list Frame :=
  match i with
  | 0 => [FCall q (PThenDone p r0 (Some e0) f)]
  | 1 => [FRun q (Some p) (URet (zero, Some e0))]
  | _ => [FSettle q zero (Some e0)]
  end.

(** The stacks of the goroutine that [Then] starts for a promise that is
    done without an error, when the handler just returns [(r, e)]. *)
Definition thenOkStage (p q : pid) (r0 : V) (f : V → UProg)
    (r : V) (e : option E) (i : nat) : list Frame :=
  match i with
  | 0 => [FCall q (PThenDone p r0 None f)]
  | 1 => [FRun q (Some p) (URet (r, e))]
  | _ => [FSettle q r e]
  end.

(** [Catch(p, f)] was called while [p] was pending and made [q]: the
    only thing that can settle [q] is the failure handler queued on [p]. *)
Definition catchWaiting (p q : pid) (s : State) : Prop :=
  pending s q ∧ calls q s = [] ∧
  ∃ P, heap s !! p = Some P ∧ notDone P = true ∧
       thenCount q P = 0 ∧ errCount q P = 1.

(** Nothing will ever settle [q]. *)
Definition orphan (q : pid) (s : State) : Prop :=
  pending s q ∧ calls q s = [] ∧ targetCount q s = 0.

Definition catchTrack (p q : pid) (s : State) : Prop :=
  catchWaiting p q s ∨
  (∃ r e, settledWith s p r (Some e)) ∨
  orphan q s.

(** [Then(p, f)] was called while [p] was pending and made [q].  In the
    failure queue [hs] exactly one handler targets [q], and it is the
    wrapper that hands the error on. *)
Definition propOnly (q : pid) (hs : list ErrHandler) : Prop :=
  count q (errTarget <$> hs) = 1 ∧ ∀ h, h ∈ hs → errTarget h = q → h = PropHn q.

(** The frames that carry the settlement of [q] with the error [e0] once
    [p] has failed with it. *)
Definition holder (q : pid) (e0 : E) (fr : Frame) : Prop :=
  match fr with
  | FCall q' (PErr e) => q' = q ∧ e = Some e0
  | FSettle q' r e => q' = q ∧ r = zero ∧ e = Some e0
  | FLockDone _ _ e _ el => e = Some e0 ∧ ∃ hs, el = Some hs ∧ propOnly q hs
  | FPassErr _ e hs => e = Some e0 ∧ propOnly q hs
  | _ => False
  end.

Definition thenWaiting (p q : pid) (s : State) : Prop :=
  pending s q ∧ calls q s = [] ∧
  ∃ P, heap s !! p = Some P ∧ notDone P = true ∧ propOnly q (queue (errorList P)).

Definition thenInFlight (q : pid) (e0 : E) (s : State) : Prop :=
  pending s q ∧ calls q s = [] ∧
  ∃ t pre fr post, threads s !! t = Some (pre ++ fr :: post) ∧ holder q e0 fr.

Definition thenTrack (p q : pid) (s : State) : Prop :=
  thenWaiting p q s ∨
  (∃ r, settledWith s p r None) ∨
  (∃ r0 e0, settledWith s p r0 (Some e0) ∧
     (thenInFlight q e0 s ∨ (settledWith s q zero (Some e0) ∧ calls q s = []))).

(** No goroutine has anything left to do. *)
Definition idle (s : State) : Prop :=
  ∀ t st, threads s !! t = Some st → st = [].

(** *** The settlement-execution lock and the pass over the handlers *)

(** Does the frame hold [x.doneMu]? *)
Definition holdCount (x : pid) (fr : Frame) : nat :=
  match fr with
  | FRun _ (Some p) _ => if decide (p = x) then 1 else 0
  | FPassErr q _ _ => if decide (q = x) then 1 else 0
  | FPassThen q _ _ => if decide (q = x) then 1 else 0
  | _ => 0
  end.

Definition holdTotal (x : pid) (s : State) : nat :=
  sumOf (λ st, sumOf (holdCount x) st) (threads s).

Definition lockBit (x : pid) (s : State) : nat :=
  match heap s !! x with
  | Some P => if doneMu P then 1 else 0
  | None => 0
  end.

(** Mutual exclusion: [x.doneMu] is locked exactly when one frame holds
    it. *)
Definition Mutex (s : State) : Prop := ∀ x, holdTotal x s = lockBit x s.

Definition isHandlerEv (q : pid) (ev : Event) : bool :=
  match ev with
  | EvThenHandler p _ _ => bool_decide (p = q)
  | EvErrHandler p _ _ => bool_decide (p = q)
  | _ => false
  end.

(** The calls of handlers of [q] by its pass, oldest first. *)
Definition handlerLog (q : pid) (s : State) : list Event :=
  rev (filter (λ ev, isHandlerEv q ev = true) (log s)).

(** The calls that the pass of [q] makes for the outcome [(r, e)] and the
    detached queues: [if err != nil] the failure handlers with the error,
    otherwise the success handlers with the value, in the order of the
    queue. *)
Definition passEvents (q : pid) (r : V) (e : option E)
    (tl : option (list ThenHandler)) (el : option (list ErrHandler)) : list Event :=
  match e with
  | Some _ => (λ h, EvErrHandler q h e) <$> queue el
  | None => (λ h, EvThenHandler q h r) <$> queue tl
  end.

(** The calls that a frame of the pass of [q] still has to make. *)
Definition todoOf (q : pid) (fr : Frame) : option (list Event) :=
  match fr with
  | FLockDone q' r e tl el =>
      if decide (q' = q) then Some (passEvents q r e tl el) else None
  | FPassErr q' e hs =>
      if decide (q' = q) then Some ((λ h, EvErrHandler q h e) <$> hs) else None
  | FPassThen q' r hs =>
      if decide (q' = q) then Some ((λ h, EvThenHandler q h r) <$> hs) else None
  | _ => None
  end.

Definition passCount (q : pid) (fr : Frame) : nat :=
  match todoOf q fr with Some _ => 1 | None => 0 end.

Definition passTotal (q : pid) (s : State) : nat :=
  sumOf (λ st, sumOf (passCount q) st) (threads s).

(** Before a promise is settled, no pass over its handlers exists and none
    of them has been called. *)
Definition PassInv (s : State) : Prop :=
  ∀ q, ¬ settled s q → handlerLog q s = [] ∧ passTotal q s = 0.

(** The pass of [q] has to make the calls [X]: it has made a prefix of
    them, in order, and a frame of the pass holds the rest. *)
Definition passTrack (q : pid) (X : list Event) (s : State) : Prop :=
  settled s q ∧
  ((∃ t pre fr post todo,
      threads s !! t = Some (pre ++ fr :: post) ∧ todoOf q fr = Some todo ∧
      handlerLog q s ++ todo = X ∧ passTotal q s = 1)
   ∨ (handlerLog q s = X ∧ passTotal q s = 0)).

(** Well-formed states: the invariant, and the record of calls only speaks
    of promises that exist. *)
Record WF (s : State) : Prop := mkWF {
  wf_inv : Inv s;
  wf_calls : ∀ q, length (heap s) ≤ q → calls q s = []
}.

Definition panicked (s : State) : Prop :=
  ∃ t st, threads s !! t = Some st ∧ FPanic ∈ st.

(** Two records of a promise that differ at most in [doneMu]. *)
Definition sameButLock (P P' : Promise) : Prop :=
  notDone P' = notDone P ∧ thenList P' = thenList P ∧
  errorList P' = errorList P ∧ res P' = res P ∧ err P' = err P.

(** The shapes a step of a frame can have. *)
Inductive FrameStep (fr : Frame) (s : State) (frs : list Frame) (s' : State) : Prop :=
| FS_same :
    heap s' = heap s → threads s' = threads s →
    (∀ x, sumOf (frameCount x) frs = frameCount x fr) →
    (∀ q, settleCount q s' = settleCount q s) →
    (∀ q, frameCount q fr = 0 → calls q s' = calls q s) →
    FrameStep fr s frs s'
| FS_lock p P b :
    heap s !! p = Some P → heap s' = <[p := set_doneMu b P]> (heap s) →
    threads s' = threads s →
    (∀ x, sumOf (frameCount x) frs = frameCount x fr) →
    (∀ q, settleCount q s' = settleCount q s) →
    (∀ q, frameCount q fr = 0 → calls q s' = calls q s) →
    FrameStep fr s frs s'
| FS_settle q r e P :
    fr = FSettle q r e → heap s !! q = Some P →
    frs = [FLockDone q r e (thenList P) (errorList P)] →
    s' = add_log (EvSettle q r e)
           (set_heap (<[q := mkPromise false (doneMu P) None None r e]> (heap s)) s) →
    FrameStep fr s frs s'.

(** A cell after a call of the interface: the same promise, with handlers
    of the new promise [n] appended to its queues. *)
Record CellGrows (n : pid) (Q Q' : Promise) : Prop := mkCellGrows {
  cg_flag : notDone Q' = notDone Q;
  cg_lock : doneMu Q' = doneMu Q;
  cg_res : res Q' = res Q;
  cg_err : err Q' = err Q;
  cg_then : ∃ tl, queue (thenList Q') = queue (thenList Q) ++ tl ∧
                  Forall (λ h, thenTarget h = n) tl;
  cg_error : ∃ el, queue (errorList Q') = queue (errorList Q) ++ el ∧
                   Forall (λ h, errTarget h = n) el;
  cg_count : ∀ x, thenCount x Q' ≤ errCount x Q';
  cg_queues : notDone Q' = true → is_Some (thenList Q') ∧ is_Some (errorList Q')
}.

(** The shape of a call of the interface: the cells [hp] grow, one promise
    [N] is allocated, the goroutines [sts] are started; [k] says whether
    somebody is going to settle [N]. *)
Record ApiStep (s s' : State) (hp : list Promise) (N : Promise)
    (sts : list (list Frame)) (k : nat) : Prop := mkApiStep {
  api_heap : heap s' = hp ++ [N];
  api_threads : threads s' = threads s ++ sts;
  api_log : log s' = log s;
  api_mem : mem s' = mem s;
  api_len : length hp = length (heap s);
  api_cells : ∀ p Q', hp !! p = Some Q' →
      ∃ Q, heap s !! p = Some Q ∧ CellGrows (length (heap s)) Q Q';
  api_new_count : ∀ x, thenCount x N ≤ errCount x N;
  api_new_queues : notDone N = true → is_Some (thenList N) ∧ is_Some (errorList N);
  api_targets : ∀ x, sumOf (errCount x) hp + errCount x N + sumOf (stackCount x) sts
        = sumOf (errCount x) (heap s) + (if decide (x = length (heap s)) then k else 0);
  api_k : k ≤ 1;
  api_k_pending : 0 < k → notDone N = true;
  api_new_lock : doneMu N = false;
  api_new_frames : ∀ st, st ∈ sts → ∃ q prod, st = [FCall q prod]
}.

End Machine.

(** ** Frames whose pass can start *)

Section Queues.

Context {V E M : Type}.

(** [thenList.Front()] and [errorList.Front()] dereference the list: the
    pass of a frame whose detached queue is nil panics. *)
Definition queuesOk (fr : @Frame V E M) : Prop :=
  match fr with
  | FLockDone _ _ _ tl el => is_Some tl ∧ is_Some el
  | FPanic => False
  | _ => True
  end.

Definition NoNil (s : @State V E M) : Prop :=
  ∀ t st fr, threads s !! t = Some st → fr ∈ st → queuesOk fr.

(** ** User code that returns

    [returnsIn r e n u]: the body [u] returns [(r, e)] after at most [n]
    steps, none of which can be blocked, whatever the memory holds when a
    step is taken (other goroutines may write it in between). *)
Fixpoint returnsIn (r : V) (e : option E) (n : nat) (u : @UProg V E M)
    {struct u} : Prop :=
  match u with
  | URet x => x = (r, e)
  | UStep g k =>
      match n with
      | 0 => False
      | S n' => ∀ m, is_Some (g m) ∧ returnsIn r e n' (k m)
      end
  end.

(** [canReturn r e u]: there are memory contents under which the body [u]
    takes its steps and returns [(r, e)]. *)
Fixpoint canReturn (r : V) (e : option E) (u : @UProg V E M) : Prop :=
  match u with
  | URet x => x = (r, e)
  | UStep g k => ∃ m, is_Some (g m) ∧ canReturn r e (k m)
  end.

(** ** A goroutine that runs one [call]

    The stacks of a goroutine that was started with the frame [first] and
    runs [call] on [q]; [held] is the [doneMu] that the producer holds
    while the user code runs.  [i] counts the steps the goroutine has
    taken, [b] says whether the user code has been entered; [I] and [J]
    say what is known of the user code that is left and of the outcome it
    returned. *)
Definition callStage (q : pid) (first : @Frame V E M) (held : option pid)
    (I : nat → @UProg V E M → Prop) (J : nat → V → option E → Prop)
    (b : bool) (i : nat) (st : list (@Frame V E M)) : Prop :=
  (b = false ∧ i = 0 ∧ st = [first]) ∨
  (b = true ∧ ∃ u, st = [FRun q held u] ∧ I i u) ∨
  (b = true ∧ ∃ r e, st = [FSettle q r e] ∧ J i r e).

(** Goroutine [t] has taken [i] steps and is at a stage of its way to the
    settlement of [q], or [q] is settled with an outcome that [fin]
    allows; [cl] gives the calls of the handler of [q] before and after
    the user code was entered. *)
Definition stageTrack (t : nat) (q : pid)
    (stageP : bool → nat → list (@Frame V E M) → Prop)
    (fin : V → option E → Prop) (cl : bool → list (@Event V E M))
    (i : nat) (s : @State V E M) : Prop :=
  (∃ b st, threads s !! t = Some st ∧ stageP b i st ∧ pending s q ∧
           calls q s = cl b) ∨
  (∃ r e, settledWith s q r e ∧ fin r e ∧ calls q s = cl true).

(** The user code that is left returns [(r, e)] early enough for the
    goroutine to settle its promise with its [N]-th step. *)
Definition within (r : V) (e : option E) (N i : nat) (u : @UProg V E M) : Prop :=
  ∃ j, returnsIn r e j u ∧ i + j + 2 ≤ N.

Definition settleBy (r : V) (e : option E) (N i : nat) (r' : V) (e' : option E) : Prop :=
  r' = r ∧ e' = e ∧ i < N.

(** The user code that is left returns nothing that [u0] could not
    return. *)
Definition outcomeOf (u0 : @UProg V E M) (i : nat) (u : @UProg V E M) : Prop :=
  ∀ r e, canReturn r e u → canReturn r e u0.

Definition outcomeIs (u0 : @UProg V E M) (i : nat) (r : V) (e : option E) : Prop :=
  canReturn r e u0.

(** An activation of [call] on [x] that has not yet run its critical
    section. *)
Definition callOn (x : pid) (fr : @Frame V E M) : Prop :=
  match fr with
  | FCall q _ => q = x
  | FRun q _ _ => q = x
  | FSettle q _ _ => q = x
  | _ => False
  end.

(** ** From a queued handler to the settlement of its promise

    [q] was made by [Then] or [Catch] on a pending promise [p].  [hold b]
    says which frames carry the settlement of [q]: before ([b = false])
    and after ([b = true]) the handler that was given to [Then] or [Catch]
    has been called; [ev] is the record of that call and [(r, e)] what the
    handler returns. *)
Definition inFlight (q : pid) (hold : bool → @Frame V E M → Prop)
    (ev : @Event V E M) (r : V) (e : option E) (s : @State V E M) : Prop :=
  (∃ b : bool, pending s q ∧ calls q s = (if b then [ev] else []) ∧
     ∃ t pre fr post, threads s !! t = Some (pre ++ fr :: post) ∧ hold b fr) ∨
  (settledWith s q r e ∧ calls q s = [ev]).

(** [waiting] describes the queues of [p] while [p] is pending; [ok] says
    which outcomes of [p] lead to the call of the handler. *)
Definition linkTrack (p q : pid) (waiting : @Promise V E M → Prop)
    (ok : V → option E → Prop) (hold : bool → @Frame V E M → Prop)
    (ev : @Event V E M) (r : V) (e : option E) (s : @State V E M) : Prop :=
  (pending s q ∧ calls q s = [] ∧
     ∃ P, heap s !! p = Some P ∧ notDone P = true ∧ waiting P) ∨
  (∃ r0 e1, settledWith s p r0 e1 ∧ (ok r0 e1 → inFlight q hold ev r e s)).

(** In the success queue [hs] exactly one handler targets [q]: the wrapper
    of [f] that [Then] pushed. *)
Definition thenOnly (q : pid) (f : V → @UProg V E M) (hs : list (@ThenHandler V E M)) : Prop :=
  count q (thenTarget <$> hs) = 1 ∧
  ∀ h, h ∈ hs → thenTarget h = q → h = ThenHn q f.

(** In the failure queue [hs] exactly one handler targets [q]: the wrapper
    of [f] that [Catch] pushed. *)
Definition catchOnly (q : pid) (f : option E → @UProg V E M)
    (hs : list (@ErrHandler V E M)) : Prop :=
  count q (errTarget <$> hs) = 1 ∧
  ∀ h, h ∈ hs → errTarget h = q → h = CatchHn q f.

(** The frames on the way of [Then(p, f)], for [p] done with the value [v]
    and [f(v)] returning [(r, e)] after steps that cannot be blocked. *)
Definition thenHold (q : pid) (f : V → @UProg V E M) (v r : V) (e : option E)
    (b : bool) (fr : @Frame V E M) : Prop :=
  match fr with
  | FLockDone _ r' e' tl _ =>
      b = false ∧ r' = v ∧ e' = None ∧ ∃ hs, tl = Some hs ∧ thenOnly q f hs
  | FPassThen _ r' hs => b = false ∧ r' = v ∧ thenOnly q f hs
  | FCall q' (PThen f' r') => b = false ∧ q' = q ∧ f' = f ∧ r' = v
  | FRun q' None u => b = true ∧ q' = q ∧ ∃ j, returnsIn r e j u
  | FSettle q' r' e' => b = true ∧ q' = q ∧ r' = r ∧ e' = e
  | _ => False
  end.

(** The frames on the way of [Catch(p, f)], for [p] done with the error
    [e0] and [f(e0)] returning [(r, e)] after steps that cannot be
    blocked. *)
Definition catchHold (q : pid) (f : option E → @UProg V E M) (e0 : E) (r : V)
    (e : option E) (b : bool) (fr : @Frame V E M) : Prop :=
  match fr with
  | FLockDone _ _ e' _ el =>
      b = false ∧ e' = Some e0 ∧ ∃ hs, el = Some hs ∧ catchOnly q f hs
  | FPassErr _ e' hs => b = false ∧ e' = Some e0 ∧ catchOnly q f hs
  | FCall q' (PCatch f' e') => b = false ∧ q' = q ∧ f' = f ∧ e' = Some e0
  | FRun q' None u => b = true ∧ q' = q ∧ ∃ j, returnsIn r e j u
  | FSettle q' r' e' => b = true ∧ q' = q ∧ r' = r ∧ e' = e
  | _ => False
  end.

(** ** What the frames of the pass carry *)

(** A frame of the pass works for the outcome that is stored in its
    promise: it runs the failure queue only for an error that is not nil,
    and the success queue only without an error. *)
Definition frameOutcome (s : @State V E M) (fr : @Frame V E M) : Prop :=
  match fr with
  | FLockDone q r e _ _ => settledWith s q r e
  | FPassErr q e _ => is_Some e ∧ ∃ r, settledWith s q r e
  | FPassThen q r _ => settledWith s q r None
  | _ => True
  end.

Definition PassOutcome (s : @State V E M) : Prop :=
  ∀ t st fr, threads s !! t = Some st → fr ∈ st → frameOutcome s fr.

(** [q] is done with [(r, e)], and [tl], [el] are the queues that [call]
    detached.  A frame of the pass of [q] holds, in the order of the
    queue, the handlers that have not been called yet; those before them
    in the queue have been called, in this order, each with the error
    (failure queue) or with the value (success queue). *)
Definition passHolds (q : pid) (r : V) (e : option E)
    (tl : list (@ThenHandler V E M)) (el : list (@ErrHandler V E M))
    (s : @State V E M) (fr : @Frame V E M) : Prop :=
  match fr with
  | FPassErr q' e' hs =>
      q' = q → e' = e ∧ is_Some e ∧
        ∃ called, el = called ++ hs ∧
                  handlerLog q s = (λ h, EvErrHandler q h e) <$> called
  | FPassThen q' r' hs =>
      q' = q → r' = r ∧ e = None ∧
        ∃ called, tl = called ++ hs ∧
                  handlerLog q s = (λ h, EvThenHandler q h r) <$> called
  | _ => True
  end.

(** The step of goroutine [t] from [s] to [s'] calls no handler of [q], or
    it is the step of the pass of [q] that calls the first handler [h] it
    has left.  A failure handler is called with the error [e]: the wrapper
    of [Then] runs [newPromise.call] with the producer that hands [e] on,
    the wrapper of [Catch] with the producer that returns [f(e)].  A
    success handler is called with the value [r]: the wrapper of [Then]
    runs [newPromise.call] with the producer that returns [f(r)]. *)
Definition passCalls (q : pid) (r : V) (e : option E) (t : nat)
    (s s' : @State V E M) : Prop :=
  handlerLog q s' = handlerLog q s ∨
  (∃ h hs rest, is_Some e ∧
     threads s !! t = Some (FPassErr q e (h :: hs) :: rest) ∧
     threads s' !! t =
       Some (match h with
             | PropHn x => FCall x (PErr e)
             | CatchHn x f => FCall x (PCatch f e)
             end :: FPassErr q e hs :: rest) ∧
     handlerLog q s' = handlerLog q s ++ [EvErrHandler q h e]) ∨
  (∃ h hs rest, e = None ∧
     threads s !! t = Some (FPassThen q r (h :: hs) :: rest) ∧
     threads s' !! t =
       Some (match h with ThenHn x f => FCall x (PThen f r) end
             :: FPassThen q r hs :: rest) ∧
     handlerLog q s' = handlerLog q s ++ [EvThenHandler q h r]).

(** ** The order of the handlers

    [tl] and [el] are the handlers registered on [p] so far, in the order
    of registration: they are the queues of [p] while [p] is pending, and
    once [p] is done the pass has to call those of the queue that the
    outcome selects, in this order. *)
Definition orderTrack (p : pid) (tl : list (@ThenHandler V E M))
    (el : list (@ErrHandler V E M)) (s : @State V E M) : Prop :=
  (∃ P, heap s !! p = Some P ∧ notDone P = true ∧
     queue (thenList P) = tl ∧ queue (errorList P) = el) ∨
  (∃ r e, settledWith s p r e ∧
     passTrack p (passEvents p r e (Some tl) (Some el)) s).

End Queues.

(** ** The handlers that a schedule registers *)

Section Registered.

Context {V E M : Type}.
Variable zero : V.

Definition isPending (p : pid) (s : @State V E M) : bool :=
  match heap s !! p with
  | Some P => notDone P
  | None => false
  end.

(** The success handler that the operation [o], made in the state [s],
    pushes on [p.thenList]: [Then(p, f)] on a pending [p] pushes [thenHn],
    which captures [f] and the new promise. *)
Definition hereThen (p : pid) (o : @Op V E M) (s : @State V E M)
  : list (@ThenHandler V E M) :=
  match o with
  | OThen p' f =>
      if decide (p' = p)
      then (if isPending p s then [ThenHn (length (heap s)) f] else [])
      else []
  | _ => []
  end.

(** The failure handler that [o] pushes on [p.errorList]: [catchHn] of
    [Then], [catchHn] of [Catch]. *)
Definition hereErr (p : pid) (o : @Op V E M) (s : @State V E M)
  : list (@ErrHandler V E M) :=
  match o with
  | OThen p' f =>
      if decide (p' = p)
      then (if isPending p s then [PropHn (length (heap s))] else [])
      else []
  | OCatch p' f =>
      if decide (p' = p)
      then (if isPending p s then [CatchHn (length (heap s)) f] else [])
      else []
  | _ => []
  end.

(** The handlers pushed on the queues of [p] by the calls of [Then] and
    [Catch] in the schedule [os], run from [s], in the order of the
    calls. *)
Fixpoint pushedThen (p : pid) (os : list (@Op V E M)) (s : @State V E M)
  : list (@ThenHandler V E M) :=
  match os with
  | [] => []
  | o :: os' =>
      match exec zero o s with
      | Some s' => hereThen p o s ++ pushedThen p os' s'
      | None => []
      end
  end.

Fixpoint pushedErr (p : pid) (os : list (@Op V E M)) (s : @State V E M)
  : list (@ErrHandler V E M) :=
  match os with
  | [] => []
  | o :: os' =>
      match exec zero o s with
      | Some s' => hereErr p o s ++ pushedErr p os' s'
      | None => []
      end
  end.

End Registered.

(** ** The handler queues of the variant with its own linked list

    In that variant of promise.go the queues [thenStack] and [errorStack]
    are values of the type [stack]: a singly linked list of [element]s with
    a pointer to its first and to its last element.  Elements live in a
    heap of their own and are named by their place in it; [None] is the nil
    pointer. *)

Module Stack.

Section Defs.

Context {A : Type}.

(** type element struct { value interface{}; next *element } *)
Record element : Type := mkElement {
  value : A;
  next : option nat
}.

(** type stack struct { start *element; end *element } *)
Record stack : Type := mkStack {
  start : option nat;
  end_ : option nat
}.

(** func (l *stack) push(x interface{}) *element.  The answer is the new
    element, the stack and the heap; [None] is the panic of [l.end.next = e]
    on a nil [l.end]. *)
Definition push (l : stack) (x : A) (h : list element)
  : option (nat * stack * list element) :=
  let e := length h in
  let h1 := h ++ [mkElement x None] in
  match start l with
  | None => Some (e, mkStack (Some e) (Some e), h1)
  | Some _ =>
      n ← end_ l;
      el ← h1 !! n;
      Some (e, mkStack (start l) (Some e), <[n := mkElement (value el) (Some e)]> h1)
  end.

(** func (l *stack) format() *)
Definition format (l : stack) : stack := mkStack None None.

(** for s := l.start; s != nil; s = s.next { ... s.value ... }: the values
    in the order in which the loop of [call] visits them. *)
Fixpoint walk (fuel : nat) (h : list element) (cur : option nat) : option (list A) :=
  match cur with
  | None => Some []
  | Some a =>
      match fuel with
      | 0 => None
      | S fuel' =>
          el ← h !! a;
          vs ← walk fuel' h (next el);
          Some (value el :: vs)
      end
  end.

(** Several pushes in a row. *)
Fixpoint pushAll (l : stack) (xs : list A) (h : list element)
  : option (stack * list element) :=
  match xs with
  | [] => Some (l, h)
  | x :: xs' => '(_, l', h') ← push l x h; pushAll l' xs' h'
  end.

(** The elements from the pointer [a] up to the pointer [b] hold [xs]. *)
Fixpoint seg (h : list element) (a : option nat) (xs : list A) (b : option nat) : Prop :=
  match xs with
  | [] => a = b
  | x :: xs' =>
      ∃ n nx, a = Some n ∧ h !! n = Some (mkElement x nx) ∧ seg h nx xs' b
  end.

(** The stack [l] holds [xs], oldest first. *)
Definition repr (h : list element) (l : stack) (xs : list A) : Prop :=
  (xs = [] ∧ start l = None) ∨
  (∃ n init x, xs = init ++ [x] ∧ end_ l = Some n ∧
     seg h (start l) init (Some n) ∧ h !! n = Some (mkElement x None)).

(** [h'] has the elements of [h] as they are. *)
Definition extends (h h' : list element) : Prop :=
  ∀ i, i < length h → h' !! i = h !! i.

End Defs.

Arguments element A : clear implicits.
Arguments stack : clear implicits.

End Stack.

(** ** The batch combinators (promise_utils.go)

    [All], [Race] and the function returned by [Iterator] run in the
    goroutine of their caller, start goroutines of their own ([All]), and
    talk to the handlers they register through variables and unbuffered
    channels.  The user memory is a list of cells; a goroutine of the
    caller's side is a program of atomic actions. *)

Section Batch.

Context {V E : Type}.
Variable zero : V.

(** var NoPromises = errors.New("no promises specified") *)
Variable NoPromises : E.

(** An unbuffered channel: a sender offers its value and waits until a
    receiver has taken it. *)
Inductive chanState (A : Type) : Type :=
| Idle
| Offered (a : A)
| Taken.
Arguments Idle {A}.
Arguments Offered {A} a.
Arguments Taken {A}.

Inductive Cell : Type :=
| CVal (v : V)                          (* a variable of type T *)
| CErr (e : option E)                   (* a variable of type error *)
| CNat (n : nat)                        (* an int or uintptr variable *)
| CChanErr (c : chanState (option E))   (* chan error *)
| CChanSig (c : chanState unit)         (* chan struct{} *)
| CGroup (running : nat) (first : option E).
    (* errgroup.Group: the counter of its WaitGroup and the error that
       errOnce recorded *)

Local Abbreviation Mem := (list Cell).

Local Abbreviation UProg := (@UProg V E Mem).
Local Abbreviation State := (@State V E Mem).

Definition readVal (a : nat) (m : Mem) : V :=
  match m !! a with Some (CVal v) => v | _ => zero end.
Definition readErr (a : nat) (m : Mem) : option E :=
  match m !! a with Some (CErr e) => e | _ => None end.
Definition readNat (a : nat) (m : Mem) : nat :=
  match m !! a with Some (CNat n) => n | _ => 0 end.

Definition write (a : nat) (c : Cell) (m : Mem) : option Mem :=
  Some (<[a := c]> m).

(** ch <- x, first half: the channel must be free. *)
Definition offerErr (ch : nat) (x : option E) (m : Mem) : option Mem :=
  match m !! ch with
  | Some (CChanErr Idle) => Some (<[ch := CChanErr (Offered x)]> m)
  | _ => None
  end.
(** ch <- x, second half: the receiver has taken the value. *)
Definition ackErr (ch : nat) (m : Mem) : option Mem :=
  match m !! ch with
  | Some (CChanErr Taken) => Some (<[ch := CChanErr Idle]> m)
  | _ => None
  end.
(** <-ch: blocked until a sender has offered a value. *)
Definition takeErr (ch : nat) (m : Mem) : option Mem :=
  match m !! ch with
  | Some (CChanErr (Offered _)) => Some (<[ch := CChanErr Taken]> m)
  | _ => None
  end.
Definition offeredErr (ch : nat) (m : Mem) : option E :=
  match m !! ch with Some (CChanErr (Offered x)) => x | _ => None end.

Definition offerSig (ch : nat) (m : Mem) : option Mem :=
  match m !! ch with
  | Some (CChanSig Idle) => Some (<[ch := CChanSig (Offered ())]> m)
  | _ => None
  end.
Definition ackSig (ch : nat) (m : Mem) : option Mem :=
  match m !! ch with
  | Some (CChanSig Taken) => Some (<[ch := CChanSig Idle]> m)
  | _ => None
  end.
Definition takeSig (ch : nat) (m : Mem) : option Mem :=
  match m !! ch with
  | Some (CChanSig (Offered _)) => Some (<[ch := CChanSig Taken]> m)
  | _ => None
  end.

(** ch <- x inside a handler *)
Definition sendErr (ch : nat) (x : option E) (k : UProg) : UProg :=
  UStep (offerErr ch x) (λ _, UStep (ackErr ch) (λ _, k)).
Definition sendSig (ch : nat) (k : UProg) : UProg :=
  UStep (offerSig ch) (λ _, UStep (ackSig ch) (λ _, k)).

(** return struct{}{}, nil *)
Definition retUnit : UProg := URet (zero, None).

(** What a call returns to the program around it. *)
Inductive Out : Type :=
| OAll (results : list V) (err : option E)
| ORace (v : V) (err : option E)
| ONext (val : V) (fin : bool) (err : option E).

(** A goroutine of the caller's side. *)
Inductive CProg : Type :=
| CRet (outs : list Out)
    (* the goroutine is over; [outs] is what the calls in it returned *)
| CMem (g : Mem → option Mem) (k : Mem → CProg)
    (* an atomic action on the memory, blocked while [g] answers None;
       [k] sees the memory that the action found *)
| CNewFn (f : UProg) (k : pid → CProg)
| CNewResolved (v : V) (k : pid → CProg)
| CNewRejected (e : option E) (k : pid → CProg)
| CThen (p : pid) (f : V → UProg) (k : pid → CProg)
| CCatch (p : pid) (f : option E → UProg) (k : pid → CProg)
| CResolve (p : pid) (k : option (V * option E) → CProg)
| CGo (g : CProg) (k : CProg).

(** var x T / make(chan ...): a fresh cell; [k] gets its address. *)
Definition newCell (c : Cell) (k : nat → CProg) : CProg :=
  CMem (λ m, Some (m ++ [c])) (λ m, k (length m)).

(** *** All *)

(** The handlers of [All]:
      func(res T) (struct{}, error) { *ptr = res; errChan <- nil; return struct{}{}, nil }
      func(err error) (struct{}, error) { errChan <- err; return struct{}{}, nil } *)
Definition allThen (ptr errChan : nat) (r : V) : UProg :=
  UStep (write ptr (CVal r)) (λ _, sendErr errChan None retUnit).
Definition allCatch (errChan : nat) (e : option E) : UProg :=
  sendErr errChan e retUnit.

(** errgroup.Group, as its documentation describes it: [Go] adds one to the
    counter and starts the function in a goroutine; when the function
    returns, the first non-nil error is recorded and the counter goes down;
    [Wait] blocks until the counter is zero and returns the recorded
    error. *)
Definition groupAdd (wg : nat) (m : Mem) : option Mem :=
  match m !! wg with
  | Some (CGroup n e) => Some (<[wg := CGroup (S n) e]> m)
  | _ => None
  end.
Definition groupErr (wg : nat) (e : option E) (m : Mem) : option Mem :=
  match m !! wg with
  | Some (CGroup n None) => Some (<[wg := CGroup n e]> m)
  | Some (CGroup n (Some e0)) => Some m
  | _ => None
  end.
Definition groupDone (wg : nat) (m : Mem) : option Mem :=
  match m !! wg with
  | Some (CGroup n e) => Some (<[wg := CGroup (pred n) e]> m)
  | _ => None
  end.
Definition groupWait (wg : nat) (m : Mem) : option Mem :=
  match m !! wg with
  | Some (CGroup 0 e) => Some m
  | _ => None
  end.
Definition groupResult (wg : nat) (m : Mem) : option E :=
  match m !! wg with Some (CGroup _ e) => e | _ => None end.

(** The function that [All] hands to wg.Go for the promise [x]. *)
Definition allWorker (x : pid) (ptr wg : nat) : CProg :=
  newCell (CChanErr Idle) (λ errChan,
  CThen x (allThen ptr errChan) (λ _,
  CCatch x (allCatch errChan) (λ _,
  CMem (takeErr errChan) (λ m,
  CMem (groupErr wg (offeredErr errChan m)) (λ _,
  CMem (groupDone wg) (λ _,
  CRet [])))))).

(** for i, p := range promises { ... wg.Go(...) } *)
Fixpoint allLoop (promises : list pid) (ptr wg : nat) (k : CProg) : CProg :=
  match promises with
  | [] => k
  | p :: ps =>
      CMem (groupAdd wg) (λ _,
      CGo (allWorker p ptr wg) (allLoop ps (S ptr) wg k))
  end.

(** results := make([]T, len(promises)) *)
Definition newSlice (n : nat) (k : nat → CProg) : CProg :=
  CMem (λ m, Some (m ++ replicate n (CVal zero))) (λ m, k (length m)).

Definition readSlice (base n : nat) (m : Mem) : list V :=
  (λ i, readVal (base + i) m) <$> seq 0 n.

(** func All[T any](promises ...*Promise[T]) ([]T, error) *)
Definition All (promises : list pid) (k : list V → option E → CProg) : CProg :=
  newCell (CGroup 0 None) (λ wg,
  newSlice (length promises) (λ results,
  allLoop promises results wg
    (CMem (groupWait wg) (λ m,
     k (readSlice results (length promises) m) (groupResult wg m))))).

(** *** Race *)

(** atomic.SwapUintptr(&done, 1) *)
Definition swapOne (done : nat) (m : Mem) : option Mem :=
  Some (<[done := CNat 1]> m).

(** The handlers of [Race]. *)
Definition raceThen (done res errorCh : nat) (r : V) : UProg :=
  UStep (swapOne done) (λ m,
    if decide (readNat done m = 1) then retUnit
    else UStep (write res (CVal r)) (λ _, sendErr errorCh None retUnit)).
Definition raceCatch (done errorCh : nat) (e : option E) : UProg :=
  UStep (swapOne done) (λ m,
    if decide (readNat done m = 1) then retUnit
    else sendErr errorCh e retUnit).

Fixpoint raceLoop (promises : list pid) (done res errorCh : nat) (k : CProg) : CProg :=
  match promises with
  | [] => k
  | p :: ps =>
      CThen p (raceThen done res errorCh) (λ _,
      CCatch p (raceCatch done errorCh) (λ _,
      raceLoop ps done res errorCh k))
  end.

(** func Race[T any](promises ...*Promise[T]) (T, error) *)
Definition Race (promises : list pid) (k : V → option E → CProg) : CProg :=
  match promises with
  | [] => k zero (Some NoPromises)
  | _ =>
      newCell (CNat 0) (λ done,
      newCell (CChanErr Idle) (λ errorCh,
      newCell (CVal zero) (λ res,
      raceLoop promises done res errorCh
        (CMem (takeErr errorCh) (λ m,
         k (readVal res m) (offeredErr errorCh m))))))
  end.

(** *** Iterator *)

(** The handlers of the function returned by [Iterator]. *)
Definition iterThen (val waitCh : nat) (r : V) : UProg :=
  UStep (write val (CVal r)) (λ _, sendSig waitCh retUnit).
Definition iterCatch (err waitCh : nat) (e : option E) : UProg :=
  UStep (write err (CErr e)) (λ _, sendSig waitCh retUnit).

(** func Iterator[T any](promises ...*Promise[T]) func() (val T, end bool, err error):
    the closure captures [promises] and the variable [index]. *)
Definition Iterator (promises : list pid) (k : nat → CProg) : CProg :=
  newCell (CNat 0) k.

(** One call of the function returned by [Iterator]; [index] is the address
    of the captured variable. *)
Definition next (promises : list pid) (index : nat)
    (k : V → bool → option E → CProg) : CProg :=
  CMem (λ m,
      if decide (readNat index m = length promises) then Some m
      else Some (<[index := CNat (S (readNat index m))]> m))
    (λ m,
      match promises !! readNat index m with
      | None => k zero true None
      | Some p =>
          CResolve p (λ r,
            match r with
            | Some (v, e) => k v false e
            | None =>
                newCell (CVal zero) (λ val,
                newCell (CErr None) (λ err,
                newCell (CChanSig Idle) (λ waitCh,
                CThen p (iterThen val waitCh) (λ _,
                CCatch p (iterCatch err waitCh) (λ _,
                CMem (takeSig waitCh) (λ _,
                CMem Some (λ m', k (readVal val m') false (readErr err m'))))))))
            end)
      end).

(** *** The machine with the caller's goroutines *)

Record Sys : Type := mkSys {
  core : State;
  clients : list CProg
}.

Definition set_client (c : nat) (g : CProg) (σ : Sys) (s : State) : Sys :=
  mkSys s (<[c := g]> (clients σ)).

(** Goroutine [c] of the caller's side takes one step. *)
Definition cstep (c : nat) (σ : Sys) : option Sys :=
  g ← clients σ !! c;
  let s := core σ in
  match g with
  | CRet _ => None
  | CMem f k =>
      m' ← f (mem s);
      Some (set_client c (k (mem s)) σ (set_mem m' s))
  | CNewFn f k =>
      let '(p, s') := NewFn zero f s in Some (set_client c (k p) σ s')
  | CNewResolved v k =>
      let '(p, s') := NewResolved v s in Some (set_client c (k p) σ s')
  | CNewRejected e k =>
      let '(p, s') := NewRejected zero e s in Some (set_client c (k p) σ s')
  | CThen p f k =>
      '(q, s') ← Then zero p f s; Some (set_client c (k q) σ s')
  | CCatch p f k =>
      '(q, s') ← Catch zero p f s; Some (set_client c (k q) σ s')
  | CResolve p k =>
      r ← Resolve p s; Some (set_client c (k r) σ s)
  | CGo g' k =>
      Some (mkSys s (<[c := k]> (clients σ) ++ [g']))
  end.

Inductive Sched : Type :=
| Lib (t : nat)     (* a goroutine of the promise package steps *)
| Cli (c : nat).    (* a goroutine of the caller's side steps *)

Definition sstep (x : Sched) (σ : Sys) : option Sys :=
  match x with
  | Lib t => s' ← step zero t (core σ); Some (mkSys s' (clients σ))
  | Cli c => cstep c σ
  end.

Fixpoint srun (xs : list Sched) (σ : Sys) : option Sys :=
  match xs with
  | [] => Some σ
  | x :: xs' => σ' ← sstep x σ; srun xs' σ'
  end.

(** The program [g] started in an empty machine. *)
Definition boot (g : CProg) : Sys := mkSys (init []) [g].

(** Nothing can take a step any more. *)
Definition stuck (σ : Sys) : Prop := ∀ x, sstep x σ = None.

(** What goroutine [c] returned, if it is over. *)
Definition returned (c : nat) (σ : Sys) : option (list Out) :=
  match clients σ !! c with Some (CRet outs) => Some outs | _ => None end.

End Batch.

Arguments Idle {A}.
Arguments Offered {A} a.
Arguments Taken {A}.

(** ** Programs used as test cases

    Values are numbers, errors are strings, as in the tests of the
    package. *)

Module Examples.

Definition zeroV : nat := 0.
Definition NoPromises : string := "no promises specified".

Definition St : Type := @State nat string unit.
Definition UP : Type := @UProg nat string unit.

(** func(e error) (int, error) { return 1, nil } *)
Definition handler : option string → UP := λ _, URet (1, None).
(** func(v int) (int, error) { return v + 10, nil } *)
Definition addTen : nat → UP := λ v, URet (v + 10, None).

(** Handlers that reach a scheduling point before they return:
    func(v int) (int, error) { runtime.Gosched(); return v + 10, nil }
    func(e error) (int, error) { runtime.Gosched(); return 1, nil } *)
Definition addTenSlowly : nat → UP :=
  λ v, UStep (λ m, Some m) (λ _, URet (v + 10, None)).
Definition handlerSlowly : option string → UP :=
  λ _, UStep (λ m, Some m) (λ _, URet (1, None)).

(** p := NewFn(func() (int, error) { return 5, nil }) *)
Definition pendingFive : St := (NewFn zeroV (URet (5, None)) (init ())).2.

(** p := NewFn(func() (int, error) { return 0, errors.New("boom") }) *)
Definition pendingBoom : St := (NewFn zeroV (URet (0, Some "boom")) (init ())).2.

(** The goroutine of the promise runs [call] up to the end of its
    critical section. *)
Definition settleIt : list (@Op nat string unit) := [OStep 0; OStep 0; OStep 0].

(** ... for a producer with one more step. *)
Definition settleSlowly : list (@Op nat string unit) :=
  [OStep 0; OStep 0; OStep 0; OStep 0].

(** q := Catch(p, handler), called while p is pending *)
Definition catchOnPending : St :=
  match Catch zeroV 0 handler pendingFive with
  | Some (_, s) => s
  | None => pendingFive
  end.

(** ... and then p settles. *)
Definition catchSettled : St :=
  default catchOnPending (run zeroV settleIt catchOnPending).

(** p fails with "boom" after Then(p, addTen) and Catch(p, handler) were
    called; the goroutine of p is about to enter the critical section. *)
Definition boomWithHandlers : list (@Op nat string unit) :=
  [ONewFn (URet (0, Some "boom")); OThen 0 addTen; OCatch 0 handler;
   OStep 0; OStep 0].

Definition boomReady : St := default (init ()) (run zeroV boomWithHandlers (init ())).
Definition boomSettled : St := default boomReady (step zeroV 0 boomReady).

(** ... and then takes [doneMu] and calls the first failure handler. *)
Definition boomCalling : St :=
  default boomSettled (run zeroV [OStep 0; OStep 0] boomSettled).

(** *** Programs with the batch combinators *)

Definition Prog : Type := @CProg nat string.

(** All(NewResolved(1), NewResolved(2), NewResolved(3)) *)
Definition allHappy : Prog :=
  CNewResolved 1 (λ a, CNewResolved 2 (λ b, CNewResolved 3 (λ c,
  All zeroV [a; b; c] (λ results err, CRet [OAll results err])))).

Definition allHappySchedule : list Sched :=
  [Cli 0; Cli 0; Cli 0; Cli 0; Cli 0; Cli 0; Cli 0; Cli 0; Cli 0; Cli 0;
   Cli 0; Cli 1; Cli 1; Cli 1; Cli 2; Cli 2; Cli 2; Cli 3; Cli 3; Cli 3;
   Lib 0; Lib 0; Lib 0; Cli 1; Cli 1; Cli 1; Lib 0; Lib 0; Lib 0; Lib 0;
   Lib 0; Lib 1; Lib 1; Lib 1; Cli 2; Cli 2; Cli 2; Lib 1; Lib 1; Lib 1;
   Lib 1; Lib 1; Lib 2; Lib 2; Lib 2; Cli 3; Cli 3; Cli 3; Cli 0; Lib 2;
   Lib 2; Lib 2; Lib 2; Lib 2].

(** A producer that never returns: func() (int, error) { select {} } *)
Definition blockForever : @UProg nat string (list (@Cell nat string)) :=
  UStep (λ _, None) (λ _, URet (0, None)).

(** All(NewRejected[int](errors.New("x")), NewFn(func() (int, error) { select {} })) *)
Definition allRejectedAndBlocked : Prog :=
  CNewRejected (Some "x") (λ a, CNewFn blockForever (λ b,
  All zeroV [a; b] (λ results err, CRet [OAll results err]))).

Definition allRejectedSchedule : list Sched :=
  [Cli 0; Cli 0; Cli 0; Cli 0; Cli 0; Cli 0; Cli 0; Cli 0; Cli 1; Cli 1;
   Cli 1; Cli 2; Cli 2; Cli 2; Lib 0; Lib 1; Lib 1; Lib 1; Lib 1; Lib 1;
   Lib 2; Lib 2; Cli 1; Cli 1; Cli 1; Lib 2; Lib 2; Lib 2; Lib 2; Lib 2].

(** it := Iterator(NewFn(func() (int, error) { return 7, errors.New("b") })); it() *)
Definition iterPartial : Prog :=
  CNewFn (URet (7, Some "b")) (λ a,
  Iterator [a] (λ index,
  next zeroV [a] index (λ val fin err, CRet [ONext val fin err]))).

(** The call is made while the promise is pending. *)
Definition iterSlowSchedule : list Sched :=
  [Cli 0; Cli 0; Cli 0; Cli 0; Cli 0; Cli 0; Cli 0; Cli 0; Cli 0; Lib 0;
   Lib 0; Lib 0; Lib 0; Lib 0; Lib 0; Lib 0; Lib 0; Lib 0; Lib 0; Lib 0;
   Lib 0; Lib 0; Cli 0; Cli 0; Lib 0; Lib 0; Lib 0; Lib 0; Lib 0; Lib 0].

(** The promise is settled before the call is made. *)
Definition iterFastSchedule : list Sched :=
  [Cli 0; Cli 0; Lib 0; Lib 0; Lib 0; Lib 0; Lib 0; Cli 0; Cli 0].

(** it := Iterator(NewResolved(1), NewRejected[int](errors.New("b")));
    it(); it(); it(); it() *)
Definition iterDrain : Prog :=
  CNewResolved 1 (λ a, CNewRejected (Some "b") (λ b,
  Iterator [a; b] (λ index,
  next zeroV [a; b] index (λ v1 f1 e1,
  next zeroV [a; b] index (λ v2 f2 e2,
  next zeroV [a; b] index (λ v3 f3 e3,
  next zeroV [a; b] index (λ v4 f4 e4,
  CRet [ONext v1 f1 e1; ONext v2 f2 e2; ONext v3 f3 e3; ONext v4 f4 e4]))))))).

(** The machine after a schedule. *)
Definition after (xs : list Sched) (g : Prog) : @Sys nat string :=
  default (boot g) (srun zeroV xs (boot g)).

End Examples.

(** ** Further test cases *)

Module MoreExamples.

Import Examples.

(** The goroutine of the promise of [boomWithHandlers] is in its pass. *)
Definition boomInPass : list (@Op nat string unit) :=
  boomWithHandlers ++ [OStep 0; OStep 0].

(** The state after a schedule, from the empty machine. *)
Definition stateAfter (os : list (@Op nat string unit)) : St :=
  default (init ()) (run zeroV os (init ())).

(** p := NewResolved(5); q := Then(p, addTenSlowly) *)
Definition thenOnResolved : St :=
  match Then zeroV 0 addTenSlowly (stateAfter [ONewResolved 5]) with
  | Some (_, s) => s
  | None => init ()
  end.

(** p := NewRejected[int](errors.New("boom")); q := Catch(p, handlerSlowly) *)
Definition catchOnRejected : St :=
  match Catch zeroV 0 handlerSlowly (stateAfter [ONewRejected (Some "boom")]) with
  | Some (_, s) => s
  | None => init ()
  end.

(** p := NewFn(func() (int, error) { return 5, nil }); q := Then(p, addTenSlowly) *)
Definition thenOnPending : St :=
  match Then zeroV 0 addTenSlowly pendingFive with
  | Some (_, s) => s
  | None => init ()
  end.

(** p := NewFn(func() (int, error) { return 0, errors.New("boom") });
    q := Catch(p, handlerSlowly) *)
Definition catchOnPendingBoom : St :=
  match Catch zeroV 0 handlerSlowly pendingBoom with
  | Some (_, s) => s
  | None => init ()
  end.

(** Enough steps of goroutine 0 for [call] and its pass, with the nested
    [call] of one handler that takes one step before it returns. *)
Definition runToEnd : list (@Op nat string unit) :=
  [OStep 0; OStep 0; OStep 0; OStep 0; OStep 0; OStep 0; OStep 0; OStep 0; OStep 0;
   OStep 0; OStep 0; OStep 0].

(** The states on the way of [boomWithHandlers]: after [Then], and in the
    pass. *)
Definition boomAfterThen : St :=
  stateAfter [ONewFn (URet (0, Some "boom")); OThen 0 addTen].
Definition boomPassState : St := stateAfter boomInPass.

Definition thenOnPendingEnd : St :=
  default thenOnPending (run zeroV runToEnd thenOnPending).
Definition catchOnPendingBoomEnd : St :=
  default catchOnPendingBoom (run zeroV runToEnd catchOnPendingBoom).

(** A stack that holds 1 and 2. *)
Definition twoElements : list (Stack.element nat) :=
  [Stack.mkElement 1 (Some 1); Stack.mkElement 2 None].
Definition twoStack : Stack.stack := Stack.mkStack (Some 0) (Some 1).

(** A goroutine that calls the function returned by [Iterator] for the
    promises 0 and 1, with [index] at the address 0. *)
Definition iterClient : Prog :=
  next zeroV [0; 1] 0 (λ val fin err, CRet [ONext val fin err]).

(** [index] is 2: both promises have been consumed. *)
Definition iterAtEnd : @Sys nat string :=
  mkSys (mkState [] [] [CNat 2] []) [iterClient].

(** [index] is 0 and the promise 0 is done with 7. *)
Definition iterAtStart : @Sys nat string :=
  mkSys (mkState [mkPromise false false None None 7 None;
                  mkPromise false false None None 8 None] [] [CNat 0] [])
        [iterClient].

(** A goroutine that calls [All] without promises. *)
Definition allEmpty : @Sys nat string :=
  boot (All zeroV [] (λ results err, CRet [OAll results err])).

(** Schedules under which the programs of the batch combinators run to
    their end. *)
Definition iterTwoSchedule : list Sched :=
  [Cli 0; Cli 0; Cli 0; Cli 0; Cli 0; Cli 0; Cli 0; Cli 0; Cli 0; Cli 0;
   Lib 0; Lib 0; Lib 0; Lib 0; Lib 0; Lib 0; Lib 0; Lib 0; Cli 0; Cli 0;
   Cli 0; Cli 0; Cli 0; Lib 0; Lib 0; Lib 0; Lib 0; Lib 0; Lib 0].

Definition allOneSchedule : list Sched :=
  [Cli 0; Cli 0; Cli 0; Cli 0; Cli 0; Cli 1; Cli 1; Cli 1; Lib 0; Lib 0;
   Lib 0; Lib 0; Lib 0; Lib 0; Lib 0; Lib 0; Cli 1; Cli 1; Cli 1; Cli 0;
   Lib 0; Lib 0; Lib 0; Lib 0; Lib 0; Lib 0].

Definition raceTwoSchedule : list Sched :=
  [Cli 0; Cli 0; Cli 0; Cli 0; Cli 0; Cli 0; Cli 0; Cli 0; Cli 0; Lib 0;
   Lib 0; Lib 0; Lib 0; Lib 0; Lib 0; Lib 0; Lib 0; Lib 0; Cli 0; Lib 0;
   Lib 0; Lib 0; Lib 0; Lib 0; Lib 0; Lib 1; Lib 1; Lib 1; Lib 1; Lib 1;
   Lib 2; Lib 2; Lib 2; Lib 2; Lib 2; Lib 2].

End MoreExamples.

(** ** Exploring every schedule of a closed program

    A program that makes its promises itself, started in the empty machine,
    has finitely many states.  They are collected by a search, and a table
    of all their steps shows that no step leaves the collection.  States are
    found by a key of numbers; a key that is too coarse cannot make the
    result wrong, it only makes the table fail to check. *)

Section Explore.

Context {V E : Type}.
Variable zero : V.

Local Abbreviation Mem := (list (@Cell V E)).
Local Abbreviation UProg := (@UProg V E Mem).
Local Abbreviation State := (@State V E Mem).
Local Abbreviation Sys := (@Sys V E).
Local Abbreviation CProg := (@CProg V E).

(** The ghost record of events is read by no step: states are explored
    without it. *)
Definition eraseS (s : State) : State := mkState (heap s) (threads s) (mem s) [].
Definition erase (σ : Sys) : Sys := mkSys (eraseS (core σ)) (clients σ).
Definition sstepE (x : Sched) (σ : Sys) : option Sys := erase <$> sstep zero x σ.

(** *** The key of a state *)

Definition tagE (e : option E) : nat := match e with Some _ => 1 | None => 0 end.
Definition tagO {A} (o : option (list A)) : nat :=
  match o with Some l => S (length l) | None => 0 end.

(** The next [d] steps of user code, tried on the memory [m]. *)
Fixpoint shapeU (d : nat) (m : Mem) (u : UProg) : list nat :=
  match d with
  | 0 => [9]
  | S d' =>
      match u with
      | URet (_, e) => [0; tagE e]
      | UStep g k => 1 :: (if g m is Some _ then 1 else 0) :: shapeU d' m (k m)
      end
  end.

Definition keyProd (d : nat) (m : Mem) (f : @Producer V E Mem) : list nat :=
  match f with
  | PUser u => 0 :: shapeU d m u
  | PThen f r => 1 :: shapeU d m (f r)
  | PErr e => [2; tagE e]
  | PCatch f e => 3 :: tagE e :: shapeU d m (f e)
  | PThenDone p r e f => 4 :: p :: tagE e :: shapeU d m (f r)
  | PCatchDone p e f => 5 :: p :: tagE e :: shapeU d m (f e)
  end.

Definition keyFrame (d : nat) (m : Mem) (fr : @Frame V E Mem) : list nat :=
  match fr with
  | FCall q f => 10 :: q :: keyProd d m f
  | FRun q held u =>
      11 :: q :: (match held with Some p => S p | None => 0 end) :: shapeU d m u
  | FSettle q _ e => [12; q; tagE e]
  | FLockDone q _ e tl el =>
      13 :: q :: tagE e :: tagO tl :: tagO el ::
        (thenTarget <$> queue tl) ++ (errTarget <$> queue el)
  | FPassErr q e hs => 14 :: q :: length hs :: (errTarget <$> hs)
  | FPassThen q _ hs => 15 :: q :: length hs :: (thenTarget <$> hs)
  | FPanic => [16]
  end.

Definition keyPromise (P : @Promise V E Mem) : list nat :=
  (if notDone P then 1 else 0) :: (if doneMu P then 1 else 0) ::
  tagO (thenList P) :: tagO (errorList P) :: tagE (err P) ::
  (thenTarget <$> queue (thenList P)) ++ (errTarget <$> queue (errorList P)).

Definition tagChan {A} (c : chanState A) (f : A → nat) : nat :=
  match c with Idle => 0 | Offered a => 2 + f a | Taken => 1 end.

Definition keyCell (c : @Cell V E) : list nat :=
  match c with
  | CVal _ => [0]
  | CErr e => [1; tagE e]
  | CNat n => [2; n]
  | CChanErr c => [3; tagChan c tagE]
  | CChanSig c => [4; tagChan c (λ _, 0)]
  | CGroup n e => [5; n; tagE e]
  end.

Definition keyOut (o : @Out V E) : list nat :=
  match o with
  | OAll results e => [0; length results; tagE e]
  | ORace _ e => [1; tagE e]
  | ONext _ fin e => [2; if fin then 1 else 0; tagE e]
  end.

(** The next [d] actions of a goroutine of the caller's side. *)
Fixpoint shapeC (d : nat) (m : Mem) (g : CProg) : list nat :=
  match d with
  | 0 => [9]
  | S d' =>
      match g with
      | CRet outs => 0 :: length outs :: concat (keyOut <$> outs)
      | CMem f k => 1 :: (if f m is Some _ then 1 else 0) :: shapeC d' m (k m)
      | CNewFn _ k => 2 :: shapeC d' m (k 0)
      | CNewResolved _ k => 3 :: shapeC d' m (k 0)
      | CNewRejected _ k => 4 :: shapeC d' m (k 0)
      | CThen _ _ k => 5 :: shapeC d' m (k 0)
      | CCatch _ _ k => 6 :: shapeC d' m (k 0)
      | CResolve _ k => 7 :: shapeC d' m (k None)
      | CGo g' k => 8 :: shapeC d' m k
      end
  end.

Definition key (d : nat) (σ : Sys) : list nat :=
  let s := core σ in
  let m := mem s in
  concat ((λ P, 99 :: keyPromise P) <$> heap s) ++ [98] ++
  concat ((λ st, 99 :: concat ((λ fr, 97 :: keyFrame d m fr) <$> st)) <$> threads s)
  ++ [98] ++
  concat ((λ c, 99 :: keyCell c) <$> m) ++ [98] ++
  concat ((λ g, 99 :: shapeC d m g) <$> clients σ).

Fixpoint eqb_key (a b : list nat) : bool :=
  match a, b with
  | [], [] => true
  | x :: a', y :: b' => Nat.eqb x y && eqb_key a' b'
  | _, _ => false
  end.

Fixpoint lookupKey (k : list nat) (L : list (list nat * Sys)) : option Sys :=
  match L with
  | [] => None
  | (k', σ) :: L' => if eqb_key k k' then Some σ else lookupKey k L'
  end.

(** The states are kept in 256 buckets, by a hash of their key. *)
Definition hashKey (k : list nat) : nat :=
  N.to_nat (N.land (foldl (λ h x, N.land (h * 31 + N.of_nat x) 1048575) 7%N k) 255).

Definition lookupT (k : list nat) (T : list (list (list nat * Sys))) : option Sys :=
  b ← T !! hashKey k; lookupKey k b.

Definition insertT (k : list nat) (σ : Sys) (T : list (list (list nat * Sys)))
  : list (list (list nat * Sys)) :=
  alter (cons (k, σ)) (hashKey k) T.

Definition statesOf (T : list (list (list nat * Sys))) : list Sys := (concat T).*2.

(** *** The search *)

(** The steps that can be enabled in a machine with at most [nt]
    goroutines of the package and [nc] of the caller's side. *)
Definition cands (nt nc : nat) : list Sched := (Lib <$> seq 0 nt) ++ (Cli <$> seq 0 nc).

Fixpoint addNew (d : nat) (succs : list Sys) (T : list (list (list nat * Sys)))
    (todo : list Sys) : list (list (list nat * Sys)) * list Sys :=
  match succs with
  | [] => (T, todo)
  | σ' :: rest =>
      let k := key d σ' in
      match lookupT k T with
      | Some _ => addNew d rest T todo
      | None => addNew d rest (insertT k σ' T) (σ' :: todo)
      end
  end.

Fixpoint explore (fuel d nt nc : nat) (T : list (list (list nat * Sys))) (todo : list Sys)
  : list (list (list nat * Sys)) :=
  match fuel with
  | 0 => T
  | S fuel' =>
      match todo with
      | [] => T
      | σ :: todo' =>
          let succs := omap (λ x, sstepE x σ) (cands nt nc) in
          let '(T', todo'') := addNew d succs T todo' in
          explore fuel' d nt nc T' todo''
      end
  end.

Definition reach (fuel d nt nc : nat) (g : CProg) : list (list (list nat * Sys)) :=
  let σ0 := erase (boot g) in
  explore fuel d nt nc (insertT (key d σ0) σ0 (replicate 256 [])) [σ0].

(** *** The table *)

Definition found (d : nat) (T : list (list (list nat * Sys))) (o : option Sys)
  : option Sys :=
  σ' ← o; lookupT (key d σ') T.

Definition allSteps (nt nc : nat) (L : list Sys) : list (option Sys) :=
  concat ((λ σ, (λ x, sstepE x σ) <$> cands nt nc) <$> L).

Definition bounded (nt nc : nat) (σ : Sys) : bool :=
  (length (threads (core σ)) <=? nt) && (length (clients σ) <=? nc).

(** *** What is checked in every state *)

Definition canStep (nt nc : nat) (σ : Sys) : bool :=
  existsb (λ x, if sstepE x σ is Some _ then true else false) (cands nt nc).

Definition idleb (σ : Sys) : bool :=
  forallb (λ st, if st is [] then true else false) (threads (core σ)).

Definition returnedb (c : nat) (σ : Sys) : bool :=
  if returned c σ is Some _ then true else false.

(** The first of [allowed] that looks like [outs]. *)
Definition pick (allowed : list (list Out)) (outs : list Out) : option (list Out) :=
  find (λ a, eqb_key (concat (keyOut <$> a)) (concat (keyOut <$> outs))) allowed.

(** The table, as one equation: the first state is in [T]; every step from
    a state of [T] by one of the candidates leads to a state of [T]; no
    state of [T] has more goroutines than the candidates cover; a state of
    [T] in which no candidate can take a step is one in which goroutine 0
    of the caller's side has returned and every goroutine of the package
    is over; and what goroutine 0 returns, in the states of [T] in which
    it has returned, is one of [allowed]. *)
Definition tableOk (d nt nc : nat) (σ0 : Sys) (allowed : list (list Out))
    (T : list (list (list nat * Sys))) : Prop :=
  (found d T (Some σ0), found d T <$> allSteps nt nc (statesOf T),
   forallb (bounded nt nc) (statesOf T),
   forallb (λ σ, canStep nt nc σ || (returnedb 0 σ && idleb σ)) (statesOf T),
   pick allowed <$> omap (returned 0) (statesOf T))
  = (Some σ0, allSteps nt nc (statesOf T), true, true,
     Some <$> omap (returned 0) (statesOf T)).

Definition checked (fuel d nt nc : nat) (g : CProg) (allowed : list (list Out)) : Prop :=
  let T := reach fuel d nt nc g in tableOk d nt nc (erase (boot g)) allowed T.

(** What the check establishes, for every schedule. *)
Definition verdict (allowed : list (list Out)) (σ : Sys) : Prop :=
  (returned 0 σ = None ∨ ∃ outs, outs ∈ allowed ∧ returned 0 σ = Some outs) ∧
  (stuck zero σ →
     (∃ outs, outs ∈ allowed ∧ returned 0 σ = Some outs) ∧ idle (core σ)).

(** *** The programs *)

(** it := Iterator(NewFn(func() (T, error) { return v1, nil }), NewResolved(v2));
    it(); it(); it() *)
Definition iterTwo (v1 v2 : V) : CProg :=
  CNewFn (URet (v1, None)) (λ a,
  CNewResolved v2 (λ b,
  Iterator [a; b] (λ index,
  next zero [a; b] index (λ r1 f1 e1,
  next zero [a; b] index (λ r2 f2 e2,
  next zero [a; b] index (λ r3 f3 e3,
  CRet [ONext r1 f1 e1; ONext r2 f2 e2; ONext r3 f3 e3])))))).

(** All(NewFn(func() (T, error) { return v, nil })) *)
Definition allOne (v : V) : CProg :=
  CNewFn (URet (v, None)) (λ a,
  All zero [a] (λ results err, CRet [OAll results err])).

(** All(NewFn(func() (T, error) { return v, e0 })), e0 not nil *)
Definition allOneFail (v : V) (e0 : E) : CProg :=
  CNewFn (URet (v, Some e0)) (λ a,
  All zero [a] (λ results err, CRet [OAll results err])).

(** Race(NewFn(func() (T, error) { return v, nil }), NewRejected[T](e0)),
    e0 not nil *)
Definition raceTwo (NoPromises : E) (v : V) (e0 : E) : CProg :=
  CNewFn (URet (v, None)) (λ a,
  CNewRejected (Some e0) (λ b,
  Race zero NoPromises [a; b] (λ r err, CRet [ORace r err]))).

End Explore.

(** * Properties of the machine *)

Ltac unfold_step := unfold step in *.
Ltac unfold_atStage := unfold atStage in *.
Ltac unfold_cstep := unfold cstep in *.

Section Counting.

Context {A : Type}.

Lemma count_app x (l k : list nat) : count x (l ++ k) = count x l + count x k.
Proof. induction l as [|y l IH]; simpl; [done|]. rewrite IH. lia. Qed.

Lemma count_pos_elem x (l : list nat) : 0 < count x l ↔ x ∈ l.
Proof.
  induction l as [|y l IH]; simpl.
  - split; [lia|]. intros H. inversion H.
  - rewrite elem_of_cons, <- IH. destruct (decide (x = y)); split; intros; try lia; auto.
Qed.

Lemma count_fmap_app (f : A → nat) x (l : list A) (a : A) :
  count x (f <$> (l ++ [a])) = count x (f <$> l) + count x [f a].
Proof. rewrite fmap_app, count_app. done. Qed.

Lemma sumOf_app (g : A → nat) (l k : list A) :
  sumOf g (l ++ k) = sumOf g l + sumOf g k.
Proof. induction l as [|y l IH]; simpl; [done|]. rewrite IH. lia. Qed.

Lemma sumOf_insert (g : A → nat) (l : list A) i a b :
  l !! i = Some a →
  sumOf g (<[i := b]> l) + g a = sumOf g l + g b.
Proof.
  revert i. induction l as [|y l IH]; intros [|i] H; simplify_eq/=; [lia|].
  specialize (IH _ H). lia.
Qed.

Lemma sumOf_lookup_le (g : A → nat) (l : list A) i a :
  l !! i = Some a → g a ≤ sumOf g l.
Proof.
  revert i. induction l as [|y l IH]; intros [|i] H; simplify_eq/=; [lia|].
  specialize (IH _ H). lia.
Qed.

Lemma sumOf_pos (g : A → nat) (l : list A) :
  0 < sumOf g l → ∃ i a, l !! i = Some a ∧ 0 < g a.
Proof.
  induction l as [|y l IH]; simpl; [lia|]. intros H.
  destruct (decide (0 < g y)).
  - exists 0, y. done.
  - destruct IH as (i & a & ? & ?); [lia|]. exists (S i), a. done.
Qed.

End Counting.

Section Invariant.

Context {V E M : Type}.
Variable zero : V.

Local Abbreviation State := (@State V E M).
Local Abbreviation Promise := (@Promise V E M).
Local Abbreviation Frame := (@Frame V E M).
Local Abbreviation step_frame := (@step_frame V E M zero).
Local Abbreviation step := (@step V E M zero).
Local Abbreviation exec := (@exec V E M zero).
Local Abbreviation run := (@run V E M zero).
Local Abbreviation reachable := (@reachable V E M zero).


Lemma sameButLock_refl (P : Promise) : sameButLock P P.
Proof. by repeat split. Qed.

Lemma sameButLock_set b (P : Promise) : sameButLock P (set_doneMu b P).
Proof. by repeat split. Qed.


Lemma lockDone_inv p (s s' : State) :
  lockDone p s = Some s' →
  ∃ P, heap s !! p = Some P ∧ doneMu P = false ∧
       s' = set_heap (<[p := set_doneMu true P]> (heap s)) s.
Proof.
  unfold lockDone. intros H.
  destruct (heap s !! p) as [P|] eqn:HP; simplify_eq/=.
  destruct (doneMu P) eqn:HM; simplify_eq/=. eauto.
Qed.

Lemma unlockDone_inv p (s s' : State) :
  unlockDone p s = Some s' →
  ∃ P, heap s !! p = Some P ∧
       s' = set_heap (<[p := set_doneMu false P]> (heap s)) s.
Proof.
  unfold unlockDone. intros H.
  destruct (heap s !! p) as [P|] eqn:HP; simplify_eq/=. eauto.
Qed.

Lemma settle_inv q r e (s s' : State) tl el :
  settle q r e s = Some (tl, el, s') →
  ∃ P, heap s !! q = Some P ∧ tl = thenList P ∧ el = errorList P ∧
       s' = add_log (EvSettle q r e)
              (set_heap (<[q := mkPromise false (doneMu P) None None r e]> (heap s)) s).
Proof.
  unfold settle. intros H.
  destruct (heap s !! q) as [P|] eqn:HP; simplify_eq/=. eauto.
Qed.

Lemma count_singleton_fmap x (q : pid) : count x [q] = if decide (x = q) then 1 else 0.
Proof. simpl. lia. Qed.

Lemma calls_add_log q ev (s : State) :
  isCall q ev = false → calls q (add_log ev s) = calls q s.
Proof.
  intros H. unfold calls, add_log. simpl. rewrite filter_cons.
  case_decide; [congruence|done].
Qed.

Ltac shape_calls :=
  intros ? Hfc; unfold frameCount in Hfc; simpl in Hfc;
  try (rewrite calls_add_log;
       [done|simpl; apply bool_decide_eq_false; case_decide; [lia|congruence]]);
  try done.

Lemma step_frame_shape fr (s : State) frs s' :
  step_frame fr s = Some (frs, s') → FrameStep fr s frs s'.
Proof.
  intros H. destruct fr as [q [u|f r|e|f e|p r e f|p e f]|q held [[r e]|g k]|q r e|q r e tl el
                           |q e [|h hs]|q r [|h hs]|]; simpl in H.
  - simplify_eq. by apply FS_same.
  - simplify_eq. apply FS_same; try done. shape_calls.
  - simplify_eq. by apply FS_same.
  - simplify_eq. apply FS_same; try done. shape_calls.
  - destruct (lockDone p s) as [s1|] eqn:HL; simplify_eq/=.
    apply lockDone_inv in HL as (P & HP & _ & ->).
    destruct e; simplify_eq; (eapply FS_lock; try done); shape_calls.
  - destruct (lockDone p s) as [s1|] eqn:HL; simplify_eq/=.
    apply lockDone_inv in HL as (P & HP & _ & ->).
    eapply FS_lock; try done. shape_calls.
  - destruct held as [p|].
    + destruct (unlockDone p s) as [s1|] eqn:HL; simplify_eq/=.
      apply unlockDone_inv in HL as (P & HP & ->). by eapply FS_lock.
    + simplify_eq. by apply FS_same.
  - destruct (g (mem s)) as [m'|]; simplify_eq/=. by apply FS_same.
  - destruct (settle q r e s) as [[[tl el] s1]|] eqn:HS; simplify_eq/=.
    apply settle_inv in HS as (P & HP & -> & -> & ->). by eapply FS_settle.
  - destruct (lockDone q s) as [s1|] eqn:HL; simplify_eq/=.
    apply lockDone_inv in HL as (P & HP & _ & ->).
    destruct e, el, tl; simplify_eq;
      first [eapply FS_lock; eauto; intros x; unfold frameCount; simpl; lia
            |apply FS_same; try done; intros x; unfold frameCount; simpl; lia].
  - destruct (unlockDone q s) as [s1|] eqn:HL; simplify_eq/=.
    apply unlockDone_inv in HL as (P & HP & ->). by eapply FS_lock.
  - simplify_eq. apply FS_same; try done.
    intros x. unfold frameCount. destruct h; csimpl; repeat case_decide; lia.
  - destruct (unlockDone q s) as [s1|] eqn:HL; simplify_eq/=.
    apply unlockDone_inv in HL as (P & HP & ->). by eapply FS_lock.
  - simplify_eq. apply FS_same; try done.
    intros x. unfold frameCount. destruct h; csimpl; repeat case_decide; lia.
  - done.
Qed.

Lemma errCount_set_doneMu x b (P : Promise) : errCount x (set_doneMu b P) = errCount x P.
Proof. done. Qed.

Lemma selected_le x e (P : Promise) :
  thenCount x P ≤ errCount x P →
  count x (selected e (thenList P) (errorList P)) ≤ errCount x P.
Proof. unfold selected, thenCount, errCount. destruct e; lia. Qed.

Lemma hasFlag_insert_same b (s s' : State) p P P' x :
  heap s !! p = Some P → heap s' = <[p := P']> (heap s) →
  notDone P' = notDone P → hasFlag b s' x ↔ hasFlag b s x.
Proof.
  intros HP Hh Hn. unfold hasFlag. rewrite Hh.
  destruct (decide (x = p)) as [->|Hne].
  - rewrite list_lookup_insert_eq by (by eapply lookup_lt_Some).
    split; intros (Q & HQ & HnQ); simplify_eq; eexists; (split; [done|]); congruence.
  - by rewrite list_lookup_insert_ne.
Qed.

Lemma hasFlag_insert_ne b (s s' : State) p P' x :
  heap s' = <[p := P']> (heap s) → x ≠ p → hasFlag b s' x ↔ hasFlag b s x.
Proof. intros Hh Hne. unfold hasFlag. rewrite Hh. by rewrite list_lookup_insert_ne. Qed.

Lemma hasFlag_excl (s : State) x : pending s x → settled s x → False.
Proof. intros (P & HP & Hn) (Q & HQ & HnQ). simplify_eq. congruence. Qed.

Lemma settleCount_add_log q ev (s : State) :
  settleCount q (add_log ev s) = (if isSettle q ev then 1 else 0) + settleCount q s.
Proof.
  unfold settleCount, add_log. simpl. rewrite filter_cons.
  destruct (isSettle q ev); case_decide; simpl; done.
Qed.

Lemma targetCount_thread_pos (s : State) t st x :
  threads s !! t = Some st → 0 < stackCount x st → 0 < targetCount x s.
Proof.
  intros Ht Hx. unfold targetCount.
  pose proof (sumOf_lookup_le (stackCount x) _ _ _ Ht). lia.
Qed.

(** A step of a goroutine keeps the invariant. *)
Lemma step_Inv t (s s' : State) : Inv s → step t s = Some s' → Inv s'.
Proof.
  intros HI Hs. unfold step in Hs.
  destruct (threads s !! t) as [[|fr rest]|] eqn:Ht; simplify_eq/=.
  destruct (step_frame fr s) as [[frs s1]|] eqn:Hf; simplify_eq/=.
  pose proof (λ x, sumOf_lookup_le (stackCount x) _ _ _ Ht) as Hle.
  apply step_frame_shape in Hf.
  destruct Hf as [Hh Hth Hc Hl _ | p P b HP Hh Hth Hc Hl _ | q r e P -> HP -> ->].
  - assert (HT : ∀ x, targetCount x (set_thread t (frs ++ rest) s1) = targetCount x s).
    { intros x. unfold targetCount, set_thread. simpl. rewrite Hh, Hth.
      pose proof (sumOf_insert (stackCount x) _ _ _ (frs ++ rest) Ht) as Hi.
      unfold stackCount in *. rewrite sumOf_app in Hi. simpl in Hi.
      rewrite Hc in Hi. lia. }
    assert (HPd : ∀ b x, hasFlag b (set_thread t (frs ++ rest) s1) x ↔ hasFlag b s x).
    { intros b x. unfold hasFlag. simpl. by rewrite Hh. }
    destruct HI as [I1 I2 I3 I4 I5 I6]. split; simpl.
    + intros x. rewrite HT. auto.
    + intros x. unfold pending. rewrite HT, HPd. apply I2.
    + rewrite Hh. auto.
    + rewrite Hh. auto.
    + intros q. change (settleCount q (set_thread t (frs ++ rest) s1)) with (settleCount q s1).
      unfold settled. rewrite Hl, HPd. apply I5.
    + intros q. change (settleCount q (set_thread t (frs ++ rest) s1)) with (settleCount q s1).
      rewrite Hl. auto.
  - assert (HT : ∀ x, targetCount x (set_thread t (frs ++ rest) s1) = targetCount x s).
    { intros x. unfold targetCount, set_thread. simpl. rewrite Hh, Hth.
      pose proof (sumOf_insert (stackCount x) _ _ _ (frs ++ rest) Ht) as Hi.
      pose proof (sumOf_insert (errCount x) _ _ _ (set_doneMu b P) HP) as Hj.
      rewrite errCount_set_doneMu in Hj.
      unfold stackCount in *. rewrite sumOf_app in Hi. simpl in Hi.
      rewrite Hc in Hi. lia. }
    assert (HPd : ∀ b' x, hasFlag b' (set_thread t (frs ++ rest) s1) x ↔ hasFlag b' s x).
    { intros b' x. eapply (hasFlag_insert_same b' s); eauto. }
    destruct HI as [I1 I2 I3 I4 I5 I6]. split; simpl.
    + intros x. rewrite HT. auto.
    + intros x. unfold pending. rewrite HT, HPd. apply I2.
    + rewrite Hh. intros p' P' x Hp'.
      apply list_lookup_insert_Some in Hp' as [(-> & <- & _)|(_ & Hp')]; eauto.
      eapply (I3 _ _ x) in HP. done.
    + rewrite Hh. intros p' P' Hp'.
      apply list_lookup_insert_Some in Hp' as [(-> & <- & _)|(_ & Hp')]; eauto.
      apply (I4 _ _ HP).
    + intros q. change (settleCount q (set_thread t (frs ++ rest) s1)) with (settleCount q s1).
      unfold settled. rewrite Hl, HPd. apply I5.
    + intros q. change (settleCount q (set_thread t (frs ++ rest) s1)) with (settleCount q s1).
      rewrite Hl. auto.
  - set (P' := mkPromise false (doneMu P) None None r e).
    set (s2 := set_thread t _ _).
    destruct HI as [I1 I2 I3 I4 I5 I6].
    assert (HT : ∀ x, targetCount x s2 + (if decide (x = q) then 1 else 0) ≤ targetCount x s).
    { intros x. unfold targetCount, s2, set_thread. simpl.
      pose proof (sumOf_insert (stackCount x) _ _ _
        (FLockDone q r e (thenList P) (errorList P) :: rest) Ht) as Hi.
      pose proof (sumOf_insert (errCount x) _ _ _ P' HP) as Hj.
      pose proof (selected_le x e P (I3 _ _ x HP)) as Hk.
      change (stackCount x (?a :: ?b)) with (frameCount x a + stackCount x b) in Hi.
      change (frameCount x (FSettle q r e)) with (count x [q]) in Hi.
      change (frameCount x (FLockDone q r e ?a ?b)) with (count x (selected e a b)) in Hi.
      rewrite count_singleton_fmap in Hi.
      change (errCount x P') with 0 in Hj. lia. }
    assert (Hq : pending s q).
    { apply I2. eapply targetCount_thread_pos; [done|].
      unfold stackCount. simpl. unfold frameCount. simpl. case_decide; [lia|done]. }
    assert (Hnq : settled s2 q).
    { exists P'. split; [|done]. unfold s2. simpl.
      by rewrite list_lookup_insert_eq by (by eapply lookup_lt_Some). }
    assert (HPd : ∀ b x, x ≠ q → hasFlag b s2 x ↔ hasFlag b s x).
    { intros b x Hx. by eapply (hasFlag_insert_ne b s). }
    assert (HL : ∀ x, settleCount x s2 = (if decide (x = q) then 1 else 0) + settleCount x s).
    { intros x. unfold s2.
      change (settleCount x (set_thread _ _ ?a)) with (settleCount x a).
      rewrite settleCount_add_log. simpl.
      change (settleCount x (set_heap _ s)) with (settleCount x s).
      unfold bool_decide. repeat case_decide; simpl; congruence. }
    split.
    + intros x. specialize (HT x). specialize (I1 x). lia.
    + intros x Hx. specialize (HT x). specialize (I1 x).
      case_decide; [lia|]. apply HPd; [done|]. apply I2. lia.
    + intros p' Q x Hp'. unfold s2 in Hp'. simpl in Hp'.
      apply list_lookup_insert_Some in Hp' as [(-> & <- & _)|(_ & Hp')]; eauto.
    + intros p' Q Hp'. unfold s2 in Hp'. simpl in Hp'.
      apply list_lookup_insert_Some in Hp' as [(-> & <- & _)|(_ & Hp')]; eauto.
      done.
    + intros x. rewrite HL. destruct (decide (x = q)) as [->|Hx]; [done|].
      unfold settled. rewrite HPd by done. apply I5.
    + intros x. rewrite HL. destruct (decide (x = q)) as [->|Hx]; [|apply I6].
      destruct (decide (0 < settleCount q s)) as [Hpos|]; [|lia].
      apply I5 in Hpos. destruct (hasFlag_excl _ _ Hq Hpos).
Qed.

Lemma Inv_target_lt (s : State) x : Inv s → 0 < targetCount x s → x < length (heap s).
Proof.
  intros HI Hx. apply (inv_pending _ HI) in Hx as (P & HP & _).
  by eapply lookup_lt_Some.
Qed.

Lemma api_targetCount (s s' : State) hp N sts k x :
  ApiStep s s' hp N sts k →
  targetCount x s' = targetCount x s + (if decide (x = length (heap s)) then k else 0).
Proof.
  intros HA. unfold targetCount.
  rewrite (api_heap _ _ _ _ _ _ HA), (api_threads _ _ _ _ _ _ HA), !sumOf_app. simpl.
  pose proof (api_targets _ _ _ _ _ _ HA x). lia.
Qed.

Lemma api_lookup (s s' : State) hp N sts k q Q :
  ApiStep s s' hp N sts k → heap s !! q = Some Q →
  ∃ Q', heap s' !! q = Some Q' ∧ CellGrows (length (heap s)) Q Q'.
Proof.
  intros HA HQ. rewrite (api_heap _ _ _ _ _ _ HA).
  assert (Hx : q < length hp).
  { rewrite (api_len _ _ _ _ _ _ HA). by eapply lookup_lt_Some. }
  rewrite lookup_app_l by done.
  destruct (lookup_lt_is_Some_2 hp q Hx) as [Q' HQ'].
  destruct (api_cells _ _ _ _ _ _ HA _ _ HQ') as (Q0 & HQ0 & HG). simplify_eq.
  by exists Q'.
Qed.

Lemma api_hasFlag (s s' : State) hp N sts k b x :
  ApiStep s s' hp N sts k → hasFlag b s x → hasFlag b s' x.
Proof.
  intros HA (Q & HQ & Hn).
  destruct (api_lookup _ _ _ _ _ _ _ _ HA HQ) as (Q' & HQ' & HG).
  exists Q'. split; [done|]. rewrite (cg_flag _ _ _ HG). done.
Qed.

Lemma api_new_lookup (s s' : State) hp N sts k :
  ApiStep s s' hp N sts k → heap s' !! length (heap s) = Some N.
Proof.
  intros HA. rewrite (api_heap _ _ _ _ _ _ HA), <- (api_len _ _ _ _ _ _ HA).
  by rewrite list_lookup_middle.
Qed.

(** A call of the interface keeps the invariant. *)
Lemma Inv_api (s s' : State) hp N sts k :
  Inv s → ApiStep s s' hp N sts k → Inv s'.
Proof.
  intros HI HA.
  pose proof (λ x, api_targetCount _ _ _ _ _ _ x HA) as HT.
  split.
  - intros x. rewrite HT. case_decide as Hx.
    + subst x. destruct (decide (0 < targetCount (length (heap s)) s)) as [Hp|].
      * apply Inv_target_lt in Hp; [lia|done].
      * pose proof (api_k _ _ _ _ _ _ HA). lia.
    + pose proof (inv_unique _ HI x). lia.
  - intros x. rewrite HT. case_decide as Hx.
    + subst x. intros Hpos.
      destruct (decide (0 < targetCount (length (heap s)) s)) as [Hp|].
      { apply Inv_target_lt in Hp; [lia|done]. }
      exists N. split; [by eapply api_new_lookup|].
      apply (api_k_pending _ _ _ _ _ _ HA). lia.
    + intros Hpos. eapply api_hasFlag; [done|]. apply (inv_pending _ HI). lia.
  - rewrite (api_heap _ _ _ _ _ _ HA). intros p Q' x HQ'.
    apply lookup_app_Some in HQ' as [HQ'|[_ HQ']].
    + destruct (api_cells _ _ _ _ _ _ HA _ _ HQ') as (Q & _ & HG). apply (cg_count _ _ _ HG).
    + apply list_lookup_singleton_Some in HQ' as [_ <-]. apply (api_new_count _ _ _ _ _ _ HA).
  - rewrite (api_heap _ _ _ _ _ _ HA). intros p Q' HQ'.
    apply lookup_app_Some in HQ' as [HQ'|[_ HQ']].
    + destruct (api_cells _ _ _ _ _ _ HA _ _ HQ') as (Q & _ & HG). apply (cg_queues _ _ _ HG).
    + apply list_lookup_singleton_Some in HQ' as [_ <-]. apply (api_new_queues _ _ _ _ _ _ HA).
  - intros q. unfold settleCount. rewrite (api_log _ _ _ _ _ _ HA). intros Hpos.
    eapply api_hasFlag; [done|]. by apply (inv_log _ HI).
  - intros q. unfold settleCount. rewrite (api_log _ _ _ _ _ _ HA). apply (inv_once _ HI).
Qed.

Lemma CellGrows_refl (s : State) p (Q : Promise) n :
  Inv s → heap s !! p = Some Q → CellGrows n Q Q.
Proof.
  intros HI HQ. split; try done.
  - exists []. by rewrite app_nil_r.
  - exists []. by rewrite app_nil_r.
  - intros x. by eapply inv_then.
  - by eapply inv_queues.
Qed.

Lemma cells_same (s : State) :
  Inv s →
  ∀ p Q', heap s !! p = Some Q' →
    ∃ Q, heap s !! p = Some Q ∧ CellGrows (length (heap s)) Q Q'.
Proof. intros HI p Q' HQ'. exists Q'. split; [done|]. by eapply CellGrows_refl. Qed.

Lemma cells_insert (s : State) p P P' :
  Inv s → heap s !! p = Some P → CellGrows (length (heap s)) P P' →
  ∀ p0 Q', <[p := P']> (heap s) !! p0 = Some Q' →
    ∃ Q, heap s !! p0 = Some Q ∧ CellGrows (length (heap s)) Q Q'.
Proof.
  intros HI HP HG p0 Q' HQ'.
  apply list_lookup_insert_Some in HQ' as [(-> & <- & _)|(_ & HQ')].
  - by exists P.
  - by apply cells_same.
Qed.

Ltac api_side :=
  try done;
  try first
    [ by apply cells_same
    | by (simpl; rewrite app_nil_r)
    | by (intros ?; unfold stackCount, frameCount, errCount, thenCount; simpl;
          repeat case_decide; lia)
    | lia
    | by (simpl; eauto)
    | by (intros ? ?%list_elem_of_singleton; eauto)
    | by (intros ? ?%elem_of_nil) ].

Lemma NewFn_api f (s : State) :
  Inv s → ApiStep s (NewFn zero f s).2 (heap s) (pendingPromise zero)
            [[FCall (length (heap s)) (PUser f)]] 1.
Proof. intros HI. split; api_side. Qed.

Lemma NewResolved_api v (s : State) :
  Inv s → ApiStep s (NewResolved v s).2 (heap s)
            (mkPromise false false None None v None) [] 0.
Proof. intros HI. split; api_side. Qed.

Lemma NewRejected_api e (s : State) :
  Inv s → ApiStep s (NewRejected zero e s).2 (heap s)
            (mkPromise false false None None zero e) [] 0.
Proof. intros HI. split; api_side. Qed.

Lemma NewZero_api (s : State) :
  Inv s → ApiStep s (NewZero zero s).2 (heap s)
            (mkPromise false false None None zero None) [] 0.
Proof. intros HI. split; api_side. Qed.

Lemma pushBack_Some {A} (l : option (list A)) x l' :
  pushBack l x = Some l' → ∃ xs, l = Some xs ∧ l' = xs ++ [x].
Proof. destruct l; intros; simplify_eq/=; eauto. Qed.

Lemma Then_api p f (s s' : State) q :
  Inv s → Then zero p f s = Some (q, s') →
  q = length (heap s) ∧ ∃ hp N sts k, ApiStep s s' hp N sts k.
Proof.
  intros HI H. unfold Then in H.
  destruct (heap s !! p) as [P|] eqn:HP; simplify_eq/=.
  destruct (notDone P) eqn:Hn.
  - destruct (pushBack (thenList P) _) as [tl|] eqn:Htl; simplify_eq/=.
    destruct (pushBack (errorList P) _) as [el|] eqn:Hel; simplify_eq/=.
    apply pushBack_Some in Htl as (tl0 & Htl0 & ->).
    apply pushBack_Some in Hel as (el0 & Hel0 & ->).
    split; [done|].
    set (P' := mkPromise _ _ _ _ _ _).
    assert (HE : ∀ x, errCount x P' = errCount x P + (if decide (x = length (heap s)) then 1 else 0)).
    { intros x. unfold errCount. simpl. rewrite Hel0. simpl.
      rewrite fmap_app, count_app. simpl. lia. }
    assert (HT : ∀ x, thenCount x P' = thenCount x P + (if decide (x = length (heap s)) then 1 else 0)).
    { intros x. unfold thenCount. simpl. rewrite Htl0. simpl.
      rewrite fmap_app, count_app. simpl. lia. }
    exists (<[p := P']> (heap s)), (pendingPromise zero), [], 1. split; api_side.
    + by rewrite length_insert.
    + eapply cells_insert; eauto. split; try done.
      * exists [ThenHn (length (heap s)) f]. simpl. rewrite Htl0. split; [done|].
        by repeat constructor.
      * exists [PropHn (length (heap s))]. simpl. rewrite Hel0. split; [done|].
        by repeat constructor.
      * intros x. rewrite HE, HT. pose proof (inv_then _ HI _ _ x HP). lia.
    + intros x. pose proof (sumOf_insert (errCount x) _ _ _ P' HP) as Hi.
      rewrite HE in Hi. change (errCount x (pendingPromise zero)) with 0. simpl. lia.
  - simplify_eq. split; [done|].
    exists (heap s), (pendingPromise zero), [[FCall (length (heap s)) (PThenDone p (res P) (err P) f)]], 1.
    split; api_side.
Qed.

Lemma Catch_api p f (s s' : State) q :
  Inv s → Catch zero p f s = Some (q, s') →
  q = length (heap s) ∧ ∃ hp N sts k, ApiStep s s' hp N sts k.
Proof.
  intros HI H. unfold Catch in H.
  destruct (heap s !! p) as [P|] eqn:HP; simplify_eq/=.
  destruct (notDone P) eqn:Hn.
  - destruct (pushBack (errorList P) _) as [el|] eqn:Hel; simplify_eq/=.
    apply pushBack_Some in Hel as (el0 & Hel0 & ->).
    split; [done|].
    set (P' := mkPromise _ _ _ _ _ _).
    assert (HE : ∀ x, errCount x P' = errCount x P + (if decide (x = length (heap s)) then 1 else 0)).
    { intros x. unfold errCount. simpl. rewrite Hel0. simpl.
      rewrite fmap_app, count_app. simpl. lia. }
    exists (<[p := P']> (heap s)), (pendingPromise zero), [], 1. split; api_side.
    + by rewrite length_insert.
    + eapply cells_insert; eauto. split; try done.
      * exists []. simpl. by rewrite app_nil_r.
      * exists [CatchHn (length (heap s)) f]. simpl. rewrite Hel0. split; [done|].
        by repeat constructor.
      * intros x. rewrite HE. change (thenCount x P') with (thenCount x P).
        pose proof (inv_then _ HI _ _ x HP). lia.
      * simpl. intros _. split; [|eauto]. by eapply inv_queues.
    + intros x. pose proof (sumOf_insert (errCount x) _ _ _ P' HP) as Hi.
      rewrite HE in Hi. change (errCount x (pendingPromise zero)) with 0. simpl. lia.
  - destruct (err P) eqn:He; simplify_eq; (split; [done|]).
    + eexists (heap s), (pendingPromise zero), [_], 1.
      split; api_side.
    + exists (heap s), (mkPromise false false (Some []) (Some []) zero None), [], 0.
      split; api_side.
Qed.

(** The three kinds of operation. *)
Lemma exec_cases o (s s' : State) :
  Inv s → exec o s = Some s' →
  (∃ t, o = OStep t ∧ step t s = Some s') ∨
  ((∀ t, countSteps t [o] = 0) ∧ ∃ hp N sts k, ApiStep s s' hp N sts k) ∨
  ((∀ t, countSteps t [o] = 0) ∧ ∃ g, s' = set_mem (g (mem s)) s).
Proof.
  intros HI H. destruct o; simpl in H; simplify_eq.
  - left. eauto.
  - right; left. split; [done|]. do 4 eexists. by apply NewFn_api.
  - right; left. split; [done|]. do 4 eexists. by apply NewFn_api.
  - right; left. split; [done|]. do 4 eexists. by apply NewResolved_api.
  - right; left. split; [done|]. do 4 eexists. by apply NewRejected_api.
  - right; left. split; [done|]. do 4 eexists. by apply NewZero_api.
  - destruct (Then zero p f s) as [[q s1]|] eqn:HT; simplify_eq/=.
    right; left. split; [done|]. by eapply Then_api.
  - destruct (Catch zero p f s) as [[q s1]|] eqn:HT; simplify_eq/=.
    right; left. split; [done|]. by eapply Catch_api.
  - right; right. eauto.
Qed.

Lemma exec_Inv o (s s' : State) : Inv s → exec o s = Some s' → Inv s'.
Proof.
  intros HI H.
  destruct (exec_cases _ _ _ HI H) as [(t & _ & Hs)|[(_ & hp & N & sts & k & HA)|(_ & g & ->)]].
  - by eapply step_Inv.
  - by eapply Inv_api.
  - destruct HI. by split.
Qed.

Lemma run_Inv os (s s' : State) : Inv s → run os s = Some s' → Inv s'.
Proof.
  revert s. induction os as [|o os IH]; intros s HI H; simplify_eq/=; [done|].
  destruct (exec o s) as [s1|] eqn:He; simplify_eq/=.
  eapply IH; [|done]. by eapply exec_Inv.
Qed.

Lemma init_Inv (m : M) : Inv (init m : State).
Proof. split; simpl; try done; unfold targetCount, settleCount; simpl; intros; lia. Qed.

(** ** A settled promise keeps its outcome *)

Lemma settledWith_settled (s : State) q r e : settledWith s q r e → settled s q.
Proof. intros (P & ? & ? & _). by exists P. Qed.

Lemma step_keeps_outcome t (s s' : State) q r e :
  Inv s → step t s = Some s' → settledWith s q r e → settledWith s' q r e.
Proof.
  intros HI Hs (Q & HQ & Hn & Hr & He). unfold step in Hs.
  destruct (threads s !! t) as [[|fr rest]|] eqn:Ht; simplify_eq/=.
  destruct (step_frame fr s) as [[frs s1]|] eqn:Hf; simplify_eq/=.
  apply step_frame_shape in Hf.
  destruct Hf as [Hh Hth Hc Hl _ | p P b HP Hh Hth Hc Hl _ | q0 r0 e0 P -> HP -> ->].
  - exists Q. simpl. by rewrite Hh.
  - unfold settledWith. simpl. rewrite Hh.
    destruct (decide (q = p)) as [->|Hne].
    + rewrite list_lookup_insert_eq by (by eapply lookup_lt_Some).
      exists (set_doneMu b Q). by simplify_eq.
    + rewrite list_lookup_insert_ne by done. by exists Q.
  - assert (Hq : pending s q0).
    { apply (inv_pending _ HI). eapply targetCount_thread_pos; [done|].
      unfold stackCount. simpl. unfold frameCount. simpl. case_decide; [lia|done]. }
    assert (q ≠ q0).
    { intros ->. eapply hasFlag_excl; [done|]. by exists Q. }
    exists Q. simpl. by rewrite list_lookup_insert_ne.
Qed.

Lemma api_keeps_outcome (s s' : State) hp N sts k q r e :
  ApiStep s s' hp N sts k → settledWith s q r e → settledWith s' q r e.
Proof.
  intros HA (Q & HQ & Hn & Hr & He).
  destruct (api_lookup _ _ _ _ _ _ _ _ HA HQ) as (Q' & HQ' & HG).
  exists Q'. destruct HG. repeat split; congruence.
Qed.

Lemma exec_keeps_outcome o (s s' : State) q r e :
  Inv s → exec o s = Some s' → settledWith s q r e → settledWith s' q r e.
Proof.
  intros HI H HS.
  destruct (exec_cases _ _ _ HI H) as [(t & _ & Hs)|[(_ & hp & N & sts & k & HA)|(_ & g & ->)]].
  - by eapply step_keeps_outcome.
  - by eapply api_keeps_outcome.
  - done.
Qed.

Lemma run_keeps_outcome os (s s' : State) q r e :
  Inv s → run os s = Some s' → settledWith s q r e → settledWith s' q r e.
Proof.
  revert s. induction os as [|o os IH]; intros s HI H HS; simplify_eq/=; [done|].
  destruct (exec o s) as [s1|] eqn:He; simplify_eq/=.
  eapply IH; [|done|]; [by eapply exec_Inv|by eapply exec_keeps_outcome].
Qed.

Lemma Resolve_settledWith (s : State) q r e :
  Resolve q s = Some (Some (r, e)) ↔ settledWith s q r e.
Proof.
  unfold Resolve, settledWith. split.
  - intros H. destruct (heap s !! q) as [P|]; simplify_eq/=.
    destruct (notDone P) eqn:Hn; simplify_eq/=. by exists P.
  - intros (P & HP & Hn & <- & <-). rewrite HP. simpl. by rewrite Hn.
Qed.

(** ** Promises that nobody is about to settle, and steps of others *)

Lemma FrameStep_threads fr (s : State) frs s1 :
  FrameStep fr s frs s1 → threads s1 = threads s.
Proof. by intros [? ? ? ? ?|? ? ? ? ? ? ? ? ?|? ? ? ? ? ? ? ->]. Qed.

Lemma step_threads t (s s' : State) t' :
  step t s = Some s' → t' ≠ t → threads s' !! t' = threads s !! t'.
Proof.
  intros Hs Hne. unfold step in Hs.
  destruct (threads s !! t) as [[|fr rest]|] eqn:Ht; simplify_eq/=.
  destruct (step_frame fr s) as [[frs s1]|] eqn:Hf; simplify_eq/=.
  apply step_frame_shape, FrameStep_threads in Hf. rewrite Hf.
  by rewrite list_lookup_insert_ne.
Qed.

Lemma step_decompose t (s s' : State) :
  step t s = Some s' →
  ∃ fr rest frs s1, threads s !! t = Some (fr :: rest) ∧
    FrameStep fr s frs s1 ∧ s' = set_thread t (frs ++ rest) s1.
Proof.
  intros Hs. unfold step in Hs.
  destruct (threads s !! t) as [[|fr rest]|] eqn:Ht; simplify_eq/=.
  destruct (step_frame fr s) as [[frs s1]|] eqn:Hf; simplify_eq/=.
  apply step_frame_shape in Hf. by exists fr, rest, frs, s1.
Qed.

Lemma step_targetCount t (s s' : State) x :
  Inv s → step t s = Some s' → targetCount x s' ≤ targetCount x s.
Proof.
  intros HI Hs.
  apply step_decompose in Hs as (fr & rest & frs & s1 & Ht & Hf & ->).
  destruct Hf as [Hh Hth Hc Hl _ | p P b HP Hh Hth Hc Hl _ | q r e P -> HP -> ->].
  - unfold targetCount, set_thread. simpl. rewrite Hh, Hth.
    pose proof (sumOf_insert (stackCount x) _ _ _ (frs ++ rest) Ht) as Hi.
    unfold stackCount in *. rewrite sumOf_app in Hi. simpl in Hi.
    rewrite Hc in Hi. lia.
  - unfold targetCount, set_thread. simpl. rewrite Hh, Hth.
    pose proof (sumOf_insert (stackCount x) _ _ _ (frs ++ rest) Ht) as Hi.
    pose proof (sumOf_insert (errCount x) _ _ _ (set_doneMu b P) HP) as Hj.
    rewrite errCount_set_doneMu in Hj.
    unfold stackCount in *. rewrite sumOf_app in Hi. simpl in Hi.
    rewrite Hc in Hi. lia.
  - set (P' := mkPromise false (doneMu P) None None r e).
    unfold targetCount, set_thread. simpl.
    pose proof (sumOf_insert (stackCount x) _ _ _
      (FLockDone q r e (thenList P) (errorList P) :: rest) Ht) as Hi.
    pose proof (sumOf_insert (errCount x) _ _ _ P' HP) as Hj.
    pose proof (selected_le x e P (inv_then _ HI _ _ x HP)) as Hk.
    change (stackCount x (?a :: ?b)) with (frameCount x a + stackCount x b) in Hi.
    change (frameCount x (FSettle q r e)) with (count x [q]) in Hi.
    change (frameCount x (FLockDone q r e ?a ?b)) with (count x (selected e a b)) in Hi.
    rewrite count_singleton_fmap in Hi.
    change (errCount x P') with 0 in Hj. lia.
Qed.

Lemma frameCount_le_targetCount (s : State) t fr rest x :
  threads s !! t = Some (fr :: rest) → frameCount x fr ≤ targetCount x s.
Proof.
  intros Ht. unfold targetCount.
  pose proof (sumOf_lookup_le (stackCount x) _ _ _ Ht) as Hle.
  change (stackCount x (fr :: rest)) with (frameCount x fr + stackCount x rest) in Hle.
  lia.
Qed.

(** A step of a frame that does not target [q] leaves [q] alone. *)
Lemma step_other t (s s' : State) fr rest q :
  Inv s → threads s !! t = Some (fr :: rest) → step t s = Some s' →
  frameCount q fr = 0 →
  calls q s' = calls q s ∧
  (∀ Q, heap s !! q = Some Q →
     ∃ Q', heap s' !! q = Some Q' ∧ sameButLock Q Q').
Proof.
  intros HI Ht Hs Hq.
  apply step_decompose in Hs as (fr' & rest' & frs & s1 & Ht' & Hf & ->).
  simplify_eq.
  destruct Hf as [Hh Hth Hc Hl Hca | p P b HP Hh Hth Hc Hl Hca | q0 r e P -> HP -> ->].
  - split; [by apply Hca|]. intros Q HQ. exists Q. simpl. rewrite Hh.
    split; [done|apply sameButLock_refl].
  - split; [by apply Hca|]. intros Q HQ. simpl. rewrite Hh.
    destruct (decide (q = p)) as [->|Hne].
    + rewrite list_lookup_insert_eq by (by eapply lookup_lt_Some).
      simplify_eq. eexists. split; [done|apply sameButLock_set].
    + rewrite list_lookup_insert_ne by done. exists Q.
      split; [done|apply sameButLock_refl].
  - assert (q ≠ q0).
    { unfold frameCount in Hq. simpl in Hq. case_decide; [lia|done]. }
    split.
    + change (calls q (set_thread ?a ?b ?c)) with (calls q c).
      by rewrite calls_add_log.
    + intros Q HQ. exists Q. simpl. rewrite list_lookup_insert_ne by done.
      split; [done|apply sameButLock_refl].
Qed.

Lemma sameButLock_hasFlag (s s' : State) q b :
  (∀ Q, heap s !! q = Some Q → ∃ Q', heap s' !! q = Some Q' ∧ sameButLock Q Q') →
  hasFlag b s q → hasFlag b s' q.
Proof.
  intros H (Q & HQ & Hn). destruct (H _ HQ) as (Q' & HQ' & HS).
  exists Q'. split; [done|]. destruct HS as (-> & _). done.
Qed.

(** A promise that nobody is about to settle stays as it is, and the
    handler it was made with is not called. *)
Lemma exec_quiet o (s s' : State) q :
  Inv s → exec o s = Some s' → q < length (heap s) → targetCount q s = 0 →
  targetCount q s' = 0 ∧ calls q s' = calls q s ∧
  (∀ b, hasFlag b s q → hasFlag b s' q).
Proof.
  intros HI H Hlt Hq.
  destruct (exec_cases _ _ _ HI H) as [(t & _ & Hs)|[(_ & hp & N & sts & k & HA)|(_ & g & ->)]].
  - pose proof (step_targetCount _ _ _ q HI Hs) as Hle.
    destruct (step_decompose _ _ _ Hs) as (fr & rest & frs & s1 & Ht & _ & _).
    pose proof (frameCount_le_targetCount _ _ _ _ q Ht) as Hfr.
    destruct (step_other t s s' fr rest q HI Ht Hs) as (Hc & Hcell); [lia|].
    split; [lia|]. split; [done|]. intros b. by apply sameButLock_hasFlag.
  - split; [|split].
    + rewrite (api_targetCount _ _ _ _ _ _ q HA). case_decide; lia.
    + unfold calls. by rewrite (api_log _ _ _ _ _ _ HA).
    + intros b. by eapply api_hasFlag.
  - done.
Qed.

Lemma exec_length o (s s' : State) :
  Inv s → exec o s = Some s' → length (heap s) ≤ length (heap s').
Proof.
  intros HI H.
  destruct (exec_cases _ _ _ HI H) as [(t & _ & Hs)|[(_ & hp & N & sts & k & HA)|(_ & g & ->)]].
  - apply step_decompose in Hs as (fr & rest & frs & s1 & Ht & Hf & ->). simpl.
    destruct Hf as [Hh _ _ _ _ | p P b HP Hh _ _ _ _ | q0 r e P -> HP -> ->];
      simpl; rewrite ?Hh, ?length_insert; done.
  - rewrite (api_heap _ _ _ _ _ _ HA), length_app, (api_len _ _ _ _ _ _ HA). lia.
  - done.
Qed.

Lemma run_quiet os (s s' : State) q :
  Inv s → run os s = Some s' → q < length (heap s) → targetCount q s = 0 →
  targetCount q s' = 0 ∧ calls q s' = calls q s ∧
  (∀ b, hasFlag b s q → hasFlag b s' q).
Proof.
  revert s. induction os as [|o os IH]; intros s HI H Hlt Hq; simplify_eq/=; [done|].
  destruct (exec o s) as [s1|] eqn:He; simplify_eq/=.
  destruct (exec_quiet _ _ _ q HI He Hlt Hq) as (H1 & H2 & H3).
  destruct (IH s1) as (H4 & H5 & H6); try done.
  - by eapply exec_Inv.
  - pose proof (exec_length _ _ _ HI He). lia.
  - split; [done|]. split; [congruence|]. auto.
Qed.

(** What a step does to a cell: only the lock moves, unless the step is the
    critical section of [call] on this very promise. *)
Lemma step_cell t (s s' : State) fr rest c Q :
  threads s !! t = Some (fr :: rest) → step t s = Some s' →
  heap s !! c = Some Q →
  ∃ Q', heap s' !! c = Some Q' ∧
    (sameButLock Q Q' ∨
     ∃ r e, fr = FSettle c r e ∧ Q' = mkPromise false (doneMu Q) None None r e).
Proof.
  intros Ht Hs HQ.
  apply step_decompose in Hs as (fr' & rest' & frs & s1 & Ht' & Hf & ->).
  simplify_eq. simpl.
  destruct Hf as [Hh Hth Hc Hl Hca | p P b HP Hh Hth Hc Hl Hca | q0 r e P -> HP -> ->].
  - rewrite Hh. exists Q. split; [done|]. left. apply sameButLock_refl.
  - rewrite Hh. destruct (decide (c = p)) as [->|Hne].
    + rewrite list_lookup_insert_eq by (by eapply lookup_lt_Some).
      simplify_eq. eexists. split; [done|]. left. apply sameButLock_set.
    + rewrite list_lookup_insert_ne by done. exists Q.
      split; [done|]. left. apply sameButLock_refl.
  - simpl. destruct (decide (c = q0)) as [->|Hne].
    + rewrite list_lookup_insert_eq by (by eapply lookup_lt_Some).
      simplify_eq. eexists. split; [done|]. right. eauto.
    + rewrite list_lookup_insert_ne by done. exists Q.
      split; [done|]. left. apply sameButLock_refl.
Qed.

Lemma exec_WF o (s s' : State) : WF s → exec o s = Some s' → WF s'.
Proof.
  intros [HI HC] H. split; [by eapply exec_Inv|].
  intros q Hq. pose proof (exec_length _ _ _ HI H) as Hlen.
  destruct (exec_cases _ _ _ HI H) as [(t & _ & Hs)|[(_ & hp & N & sts & k & HA)|(_ & g & ->)]].
  - destruct (step_decompose _ _ _ Hs) as (fr & rest & frs & s1 & Ht & _ & _).
    pose proof (frameCount_le_targetCount _ _ _ _ q Ht) as Hfr.
    destruct (decide (0 < targetCount q s)) as [Hp|Hp].
    { apply Inv_target_lt in Hp; [lia|done]. }
    destruct (step_other t s s' fr rest q HI Ht Hs) as (Hc & _); [lia|].
    rewrite Hc. apply HC. lia.
  - unfold calls. rewrite (api_log _ _ _ _ _ _ HA). apply HC. lia.
  - apply HC. done.
Qed.

Lemma run_WF os (s s' : State) : WF s → run os s = Some s' → WF s'.
Proof.
  revert s. induction os as [|o os IH]; intros s HI H; simplify_eq/=; [done|].
  destruct (exec o s) as [s1|] eqn:He; simplify_eq/=.
  eapply IH; [|done]. by eapply exec_WF.
Qed.

Lemma init_WF (m : M) : WF (init m : State).
Proof. split; [apply init_Inv|done]. Qed.

Lemma run_app os1 os2 (s : State) :
  run (os1 ++ os2) s = (s1 ← run os1 s; run os2 s1).
Proof.
  revert s. induction os1 as [|o os1 IH]; intros s; simpl; [done|].
  destruct (exec o s); simpl; [apply IH|done].
Qed.

Lemma step_inv_top t (s s' : State) fr rest :
  threads s !! t = Some (fr :: rest) → step t s = Some s' →
  ∃ frs s1, step_frame fr s = Some (frs, s1) ∧
            s' = set_thread t (frs ++ rest) s1.
Proof.
  intros Ht Hs. unfold_step. rewrite Ht in Hs. simpl in Hs.
  destruct (step_frame fr s) as [[frs s1]|]; simplify_eq/=. eauto.
Qed.

Lemma set_thread_lookup t st (s s1 : State) st0 :
  threads s !! t = Some st0 → threads s1 = threads s →
  threads (set_thread t st s1) !! t = Some st.
Proof.
  intros Ht Hth. simpl. rewrite Hth.
  apply list_lookup_insert_eq. by eapply lookup_lt_Some.
Qed.

Lemma lock_keeps_pending b (s : State) p P q :
  heap s !! p = Some P →
  pending s q → pending (set_heap (<[p := set_doneMu b P]> (heap s)) s) q.
Proof.
  intros HP Hq. by eapply (hasFlag_insert_same true s _ p P (set_doneMu b P)).
Qed.

Lemma step_top t (s : State) fr rest frs s1 :
  threads s !! t = Some (fr :: rest) → step_frame fr s = Some (frs, s1) →
  step t s = Some (set_thread t (frs ++ rest) s1).
Proof.
  intros Ht Hf. unfold_step. rewrite Ht. simpl. by rewrite Hf.
Qed.

(** The last step of a producer: the critical section of [call]. *)
Lemma settle_step t (s s' : State) q r e rest :
  threads s !! t = Some (FSettle q r e :: rest) → step t s = Some s' →
  settledWith s' q r e ∧ calls q s' = calls q s.
Proof.
  intros Ht Hs.
  destruct (step_inv_top _ _ _ _ _ Ht Hs) as (frs & s1 & Hf & ->). simpl in Hf.
  destruct (settle q r e s) as [[[tl el] s2]|] eqn:HS; simplify_eq/=.
  apply settle_inv in HS as (P & HP & -> & -> & ->). split; [|done].
  eexists. split;
    [simpl; apply list_lookup_insert_eq; by eapply lookup_lt_Some|done].
Qed.

Lemma settledWith_inj (s : State) p r e r' e' :
  settledWith s p r e → settledWith s p r' e' → r = r' ∧ e = e'.
Proof. intros (P & HP & _ & <- & <-) (Q & HQ & _ & <- & <-). by simplify_eq. Qed.

End Invariant.

Ltac api_side :=
  try done;
  try first
    [ by apply cells_same
    | by (simpl; rewrite app_nil_r)
    | by (intros ?; unfold stackCount, frameCount, errCount, thenCount; simpl;
          repeat case_decide; lia)
    | lia
    | by (simpl; eauto)
    | by (intros ? ?%list_elem_of_singleton; eauto)
    | by (intros ? ?%elem_of_nil) ].


(** ** Mutual exclusion on the settlement-execution lock *)

Section MutexInvariant.

Context {V E M : Type}.
Variable zero : V.

Local Abbreviation State := (@State V E M).
Local Abbreviation Promise := (@Promise V E M).
Local Abbreviation Frame := (@Frame V E M).

Lemma lockBit_insert (s : State) p (P P' : Promise) x :
  heap s !! p = Some P →
  lockBit x (set_heap (<[p := P']> (heap s)) s)
  = if decide (x = p) then (if doneMu P' then 1 else 0) else lockBit x s.
Proof.
  intros HP. unfold lockBit. simpl. case_decide as Hx.
  - subst x. by rewrite list_lookup_insert_eq by (by eapply lookup_lt_Some).
  - by rewrite list_lookup_insert_ne.
Qed.

Lemma lockBit_le_1 (s : State) x : lockBit x s ≤ 1.
Proof. unfold lockBit. destruct (heap s !! x) as [P|]; [destruct (doneMu P)|]; lia. Qed.

Lemma holdTotal_step (s s1 : State) t fr rest frs x :
  threads s !! t = Some (fr :: rest) → threads s1 = threads s →
  holdTotal x (set_thread t (frs ++ rest) s1) + holdCount x fr
  = holdTotal x s + sumOf (holdCount x) frs.
Proof.
  intros Ht Hth. unfold holdTotal. simpl. rewrite Hth.
  pose proof (sumOf_insert (λ st, sumOf (holdCount x) st) _ _ _ (frs ++ rest) Ht) as Hi.
  simpl in Hi. rewrite sumOf_app in Hi. lia.
Qed.

Lemma holdCount_le_total (s : State) t fr rest x :
  threads s !! t = Some (fr :: rest) → holdCount x fr ≤ holdTotal x s.
Proof.
  intros Ht. unfold holdTotal.
  pose proof (sumOf_lookup_le (λ st, sumOf (holdCount x) st) _ _ _ Ht) as Hle.
  simpl in Hle. lia.
Qed.

Ltac fin_dec :=
  repeat match goal with
         | |- context [decide ?P] => destruct (decide P)
         | H : context [decide ?P] |- _ => destruct (decide P)
         end;
  simplify_eq; first [lia|congruence].

Ltac mutex_same Ht HM :=
  intros x;
  change (lockBit x (set_thread ?a ?b ?c)) with (lockBit x c);
  try change (lockBit x (add_log ?ev ?c)) with (lockBit x c);
  rewrite <- (HM x);
  match goal with
  | |- holdTotal x (set_thread ?t (?frs ++ ?rest) ?s1) = _ =>
      pose proof (holdTotal_step _ s1 _ _ _ frs x Ht eq_refl) as Hst;
      cbn [app] in *; simpl in Hst; fin_dec
  end.

Lemma step_Mutex t (s s' : State) : Mutex s → step zero t s = Some s' → Mutex s'.
Proof.
  intros HM Hs. unfold step in Hs.
  destruct (threads s !! t) as [[|fr rest]|] eqn:Ht; simplify_eq/=.
  destruct (step_frame zero fr s) as [[frs s1]|] eqn:Hf; simplify_eq/=.
  pose proof (λ x, holdCount_le_total s t fr rest x Ht) as Hle.
  pose proof (λ x, lockBit_le_1 s x) as Hb.
  assert (Hlock : ∀ p P b frs0 x,
    heap s !! p = Some P → (b = true → doneMu P = false) →
    sumOf (holdCount x) frs0 + (if decide (x = p) then (if b then 0 else 1) else 0)
      = holdCount x fr + (if decide (x = p) then (if b then 1 else 0) else 0) →
    holdTotal x (set_thread t (frs0 ++ rest)
                   (set_heap (<[p := set_doneMu b P]> (heap s)) s))
    = lockBit x (set_heap (<[p := set_doneMu b P]> (heap s)) s)).
  { intros p P b frs0 x HP Hfree Hcnt.
    rewrite (lockBit_insert _ _ _ _ _ HP). simpl.
    pose proof (holdTotal_step s (set_heap (<[p := set_doneMu b P]> (heap s)) s)
                  t fr rest frs0 x Ht eq_refl) as Hst.
    specialize (HM x). specialize (Hle x). specialize (Hb x).
    assert (Hbit : x = p → lockBit p s = if doneMu P then 1 else 0).
    { intros ->. unfold lockBit. by rewrite HP. }
    case_decide as Hx; [subst x; rewrite Hbit in * by done|];
      destruct b; try rewrite (Hfree eq_refl) in *; simpl;
      try destruct (doneMu P); lia. }
  destruct fr as [q [u|f r|e|f e|p r e f|p e f]|q held [[r e]|g k]|q r e|q r e tl el
                 |q e [|h hs]|q r [|h hs]|]; simpl in Hf.
  - simplify_eq. mutex_same Ht HM.
  - simplify_eq. mutex_same Ht HM.
  - simplify_eq. mutex_same Ht HM.
  - simplify_eq. mutex_same Ht HM.
  - destruct (lockDone p s) as [s2|] eqn:HL; simpl in Hf; simplify_eq.
    apply lockDone_inv in HL as (P & HP & Hfree & ->).
    destruct e; simplify_eq; intros x;
      change (holdTotal x (set_thread ?a ?b (add_log ?ev ?c)))
        with (holdTotal x (set_thread a b c));
      change (lockBit x (set_thread ?a ?b ?c)) with (lockBit x c);
      change (lockBit x (add_log ?ev ?c)) with (lockBit x c);
      apply (Hlock p P true); try done; simpl; fin_dec.
  - destruct (lockDone p s) as [s2|] eqn:HL; simpl in Hf; simplify_eq.
    apply lockDone_inv in HL as (P & HP & Hfree & ->). intros x.
    change (holdTotal x (set_thread ?a ?b (add_log ?ev ?c)))
      with (holdTotal x (set_thread a b c));
    change (lockBit x (set_thread ?a ?b ?c)) with (lockBit x c);
    change (lockBit x (add_log ?ev ?c)) with (lockBit x c).
    apply (Hlock p P true); try done; simpl; fin_dec.
  - destruct held as [p|].
    + destruct (unlockDone p s) as [s2|] eqn:HL; simpl in Hf; simplify_eq.
      apply unlockDone_inv in HL as (P & HP & ->). intros x.
      change (lockBit x (set_thread ?a ?b ?c)) with (lockBit x c).
      apply (Hlock p P false); try done; simpl; fin_dec.
    + simplify_eq. mutex_same Ht HM.
  - destruct (g (mem s)) as [m'|]; simpl in Hf; simplify_eq. intros x.
    change (lockBit x (set_thread ?a ?b ?c)) with (lockBit x s).
    rewrite <- (HM x).
    pose proof (holdTotal_step s (set_mem m' s) t _ rest [FRun q held (k (mem s))] x
                  Ht eq_refl) as Hst.
    cbn [app] in *. simpl in Hst. lia.
  - destruct (settle q r e s) as [[[tl el] s2]|] eqn:HS; simpl in Hf; simplify_eq.
    apply settle_inv in HS as (P & HP & -> & -> & ->). intros x.
    change (lockBit x (set_thread ?a ?b (add_log ?ev ?c))) with (lockBit x c).
    rewrite (lockBit_insert _ _ _ _ _ HP). simpl.
    assert (Hbit : (if decide (x = q) then (if doneMu P then 1 else 0) else lockBit x s)
                   = lockBit x s).
    { case_decide; [subst; unfold lockBit; by rewrite HP|done]. }
    rewrite Hbit, <- (HM x).
    pose proof (holdTotal_step s
      (add_log (EvSettle q r e)
         (set_heap (<[q := mkPromise false (doneMu P) None None r e]> (heap s)) s))
      t _ rest [FLockDone q r e (thenList P) (errorList P)] x Ht eq_refl) as Hst.
    cbn [app] in *. simpl in Hst. lia.
  - destruct (lockDone q s) as [s2|] eqn:HL; simpl in Hf; simplify_eq.
    apply lockDone_inv in HL as (P & HP & Hfree & ->).
    destruct e, el, tl; simplify_eq;
      first [ mutex_same Ht HM
            | intros x; change (lockBit x (set_thread ?a ?b ?c)) with (lockBit x c);
              apply (Hlock q P true); try done; simpl; fin_dec ].
  - destruct (unlockDone q s) as [s2|] eqn:HL; simpl in Hf; simplify_eq.
    apply unlockDone_inv in HL as (P & HP & ->). intros x.
    change (lockBit x (set_thread ?a ?b ?c)) with (lockBit x c).
    apply (Hlock q P false); try done; simpl; fin_dec.
  - simplify_eq. intros x.
    change (lockBit x (set_thread ?a ?b ?c)) with (lockBit x s).
    rewrite <- (HM x).
    pose proof (holdTotal_step s (add_log (EvErrHandler q h e) s) t _ rest
                  [invokeErr h e; FPassErr q e hs] x Ht eq_refl) as Hst.
    destruct h; cbn [app invokeErr invokeThen] in *; simpl in Hst; fin_dec.
  - destruct (unlockDone q s) as [s2|] eqn:HL; simpl in Hf; simplify_eq.
    apply unlockDone_inv in HL as (P & HP & ->). intros x.
    change (lockBit x (set_thread ?a ?b ?c)) with (lockBit x c).
    apply (Hlock q P false); try done; simpl; fin_dec.
  - simplify_eq. intros x.
    change (lockBit x (set_thread ?a ?b ?c)) with (lockBit x s).
    rewrite <- (HM x).
    pose proof (holdTotal_step s (add_log (EvThenHandler q h r) s) t _ rest
                  [invokeThen h r; FPassThen q r hs] x Ht eq_refl) as Hst.
    destruct h; cbn [app invokeErr invokeThen] in *; simpl in Hst; fin_dec.
  - done.
Qed.

Lemma fresh_stacks_sum (g : Frame → nat) (sts : list (list Frame)) :
  (∀ q prod, g (FCall q prod) = 0) →
  (∀ st, st ∈ sts → ∃ q prod, st = [FCall q prod]) →
  sumOf (λ st, sumOf g st) sts = 0.
Proof.
  intros Hg Hsts. induction sts as [|st sts IH]; simpl; [done|].
  destruct (Hsts st ltac:(by left)) as (q & prod & ->). simpl. rewrite Hg.
  rewrite IH; [done|]. intros st' Hin. apply Hsts. by right.
Qed.

Lemma api_lockBit (s s' : State) hp N sts k x :
  ApiStep s s' hp N sts k → lockBit x s' = lockBit x s.
Proof.
  intros HA. unfold lockBit.
  destruct (heap s !! x) as [Q|] eqn:HQ.
  - destruct (api_lookup _ _ _ _ _ _ _ _ HA HQ) as (Q' & -> & HG).
    by rewrite (cg_lock _ _ _ HG).
  - apply lookup_ge_None in HQ.
    rewrite (api_heap _ _ _ _ _ _ HA).
    destruct (decide (x = length (heap s))) as [->|Hne].
    + rewrite <- (api_len _ _ _ _ _ _ HA), list_lookup_middle by done.
      by rewrite (api_new_lock _ _ _ _ _ _ HA).
    + rewrite lookup_ge_None_2; [done|].
      rewrite length_app, (api_len _ _ _ _ _ _ HA). simpl. lia.
Qed.

Lemma api_Mutex (s s' : State) hp N sts k :
  Mutex s → ApiStep s s' hp N sts k → Mutex s'.
Proof.
  intros HM HA x. rewrite (api_lockBit _ _ _ _ _ _ x HA), <- (HM x).
  unfold holdTotal. rewrite (api_threads _ _ _ _ _ _ HA), sumOf_app.
  rewrite (fresh_stacks_sum (holdCount x) sts); [lia|done|].
  apply (api_new_frames _ _ _ _ _ _ HA).
Qed.

Lemma exec_Mutex o (s s' : State) :
  Inv s → Mutex s → exec zero o s = Some s' → Mutex s'.
Proof.
  intros HI HM H.
  destruct (exec_cases zero _ _ _ HI H)
    as [(t & _ & Hs)|[(_ & hp & N & sts & k & HA)|(_ & g & ->)]].
  - by eapply step_Mutex.
  - by eapply api_Mutex.
  - done.
Qed.

Lemma run_Mutex os (s s' : State) :
  Inv s → Mutex s → run zero os s = Some s' → Mutex s'.
Proof.
  revert s. induction os as [|o os IH]; intros s HI HM H; simplify_eq/=; [done|].
  destruct (exec zero o s) as [s1|] eqn:He; simplify_eq/=.
  eapply IH; [| |done]; [by eapply exec_Inv|by eapply exec_Mutex].
Qed.

Lemma init_Mutex (m : M) : Mutex (init m : State).
Proof. intros x. unfold holdTotal, lockBit. simpl. by destruct x. Qed.

End MutexInvariant.

(** ** The pass over the handlers *)

Section PassInvariant.

Context {V E M : Type}.
Variable zero : V.

Local Abbreviation State := (@State V E M).
Local Abbreviation Promise := (@Promise V E M).
Local Abbreviation Frame := (@Frame V E M).
Local Abbreviation Event := (@Event V E M).

Lemma handlerLog_add_log q (ev : Event) (s : State) :
  handlerLog q (add_log ev s)
  = handlerLog q s ++ (if isHandlerEv q ev then [ev] else []).
Proof.
  unfold handlerLog, add_log. simpl. rewrite filter_cons.
  destruct (isHandlerEv q ev); case_decide; simpl; try done.
  by rewrite app_nil_r.
Qed.

Lemma passTotal_step (s s1 : State) t fr rest frs x :
  threads s !! t = Some (fr :: rest) → threads s1 = threads s →
  passTotal x (set_thread t (frs ++ rest) s1) + passCount x fr
  = passTotal x s + sumOf (passCount x) frs.
Proof.
  intros Ht Hth. unfold passTotal. simpl. rewrite Hth.
  pose proof (sumOf_insert (λ st, sumOf (passCount x) st) _ _ _ (frs ++ rest) Ht) as Hi.
  simpl in Hi. rewrite sumOf_app in Hi. lia.
Qed.

Lemma passCount_other q (fr : Frame) :
  passCount q fr = 0 →
  match fr with
  | FLockDone p _ _ _ _ => p ≠ q
  | FPassErr p _ _ => p ≠ q
  | FPassThen p _ _ => p ≠ q
  | _ => True
  end.
Proof.
  unfold passCount. destruct fr; simpl; try done; case_decide; done.
Qed.

(** A step of a frame that is neither a frame of the pass of [q] nor the
    critical section of [call] on [q] calls no handler of [q] and starts no
    pass of [q]. *)
Lemma step_frame_pass (fr : Frame) (s : State) frs s' q :
  step_frame zero fr s = Some (frs, s') →
  passCount q fr = 0 → (∀ r e, fr ≠ FSettle q r e) →
  sumOf (passCount q) frs = 0 ∧ handlerLog q s' = handlerLog q s.
Proof.
  intros H Hp Hns. pose proof (passCount_other q fr Hp) as Hne.
  destruct fr as [q0 [u|f r|e|f e|p r e f|p e f]|q0 held [[r e]|g k]|q0 r e|q0 r e tl el
                 |q0 e [|h hs]|q0 r [|h hs]|]; simpl in H.
  - by simplify_eq.
  - simplify_eq. split; [done|]. by rewrite handlerLog_add_log, app_nil_r.
  - by simplify_eq.
  - simplify_eq. split; [done|]. by rewrite handlerLog_add_log, app_nil_r.
  - destruct (lockDone p s) as [s1|] eqn:HL; simpl in H; simplify_eq.
    apply lockDone_inv in HL as (P & HP & _ & ->).
    destruct e; simplify_eq; (split; [done|]);
      [done|by rewrite handlerLog_add_log, app_nil_r].
  - destruct (lockDone p s) as [s1|] eqn:HL; simpl in H; simplify_eq.
    apply lockDone_inv in HL as (P & HP & _ & ->).
    split; [done|]. by rewrite handlerLog_add_log, app_nil_r.
  - destruct held as [p|].
    + destruct (unlockDone p s) as [s1|] eqn:HL; simpl in H; simplify_eq.
      by apply unlockDone_inv in HL as (P & HP & ->).
    + by simplify_eq.
  - destruct (g (mem s)) as [m'|]; simpl in H; by simplify_eq.
  - destruct (settle q0 r e s) as [[[tl el] s1]|] eqn:HS; simpl in H; simplify_eq.
    apply settle_inv in HS as (P & HP & -> & -> & ->).
    assert (q0 ≠ q) by (intros ->; by eapply Hns).
    split.
    + simpl. unfold passCount. simpl. by rewrite decide_False.
    + by rewrite handlerLog_add_log, app_nil_r.
  - destruct (lockDone q0 s) as [s1|] eqn:HL; simpl in H; simplify_eq.
    apply lockDone_inv in HL as (P & HP & _ & ->).
    destruct e, el, tl; simplify_eq; (split; [|done]);
      simpl; unfold passCount; simpl; rewrite ?decide_False by done; done.
  - destruct (unlockDone q0 s) as [s1|] eqn:HL; simpl in H; simplify_eq.
    by apply unlockDone_inv in HL as (P & HP & ->).
  - simplify_eq. split.
    + simpl. unfold passCount. destruct h; simpl; by rewrite decide_False.
    + rewrite handlerLog_add_log. simpl.
      rewrite bool_decide_eq_false_2 by done. by rewrite app_nil_r.
  - destruct (unlockDone q0 s) as [s1|] eqn:HL; simpl in H; simplify_eq.
    by apply unlockDone_inv in HL as (P & HP & ->).
  - simplify_eq. split.
    + simpl. unfold passCount. destruct h; simpl; by rewrite decide_False.
    + rewrite handlerLog_add_log. simpl.
      rewrite bool_decide_eq_false_2 by done. by rewrite app_nil_r.
  - done.
Qed.

(** The frame of the pass of [q] takes a step: it calls the next handler,
    first in the queue, or it is over, with nothing left to call. *)
Lemma pass_frame_step (fr : Frame) (s : State) frs s' q todo :
  step_frame zero fr s = Some (frs, s') → todoOf q fr = Some todo →
  (∃ pre fr' todo', frs = pre ++ [fr'] ∧ sumOf (passCount q) pre = 0 ∧
     todoOf q fr' = Some todo' ∧
     handlerLog q s' ++ todo' = handlerLog q s ++ todo)
  ∨ (sumOf (passCount q) frs = 0 ∧ todo = [] ∧ handlerLog q s' = handlerLog q s).
Proof.
  intros H Ht.
  destruct fr as [q0 prod|q0 held u|q0 r e|q0 r e tl el|q0 e hs|q0 r hs|];
    simpl in Ht; try done; case_decide; simplify_eq; simpl in H.
  - destruct (lockDone q s) as [s1|] eqn:HL; simpl in H; simplify_eq.
    apply lockDone_inv in HL as (P & HP & _ & ->).
    destruct e as [e|].
    + destruct el as [hs|]; simplify_eq.
      * left. exists [], (FPassErr q (Some e) hs), ((λ h, EvErrHandler q h (Some e)) <$> hs).
        split; [done|]. split; [done|]. split; [|done].
        simpl. by rewrite decide_True.
      * right. done.
    + destruct tl as [hs|]; simplify_eq.
      * left. exists [], (FPassThen q r hs), ((λ h, EvThenHandler q h r) <$> hs).
        split; [done|]. split; [done|]. split; [|done].
        simpl. by rewrite decide_True.
      * right. done.
  - destruct hs as [|h hs]; simpl in H.
    + destruct (unlockDone q s) as [s1|] eqn:HL; simpl in H; simplify_eq.
      apply unlockDone_inv in HL as (P & HP & ->). right. done.
    + simplify_eq. left.
      exists [invokeErr h e], (FPassErr q e hs), ((λ h, EvErrHandler q h e) <$> hs).
      split; [done|]. split; [by destruct h|]. split.
      * simpl. by rewrite decide_True.
      * rewrite handlerLog_add_log. simpl. rewrite bool_decide_eq_true_2 by done.
        by rewrite <- app_assoc.
  - destruct hs as [|h hs]; simpl in H.
    + destruct (unlockDone q s) as [s1|] eqn:HL; simpl in H; simplify_eq.
      apply unlockDone_inv in HL as (P & HP & ->). right. done.
    + simplify_eq. left.
      exists [invokeThen h r], (FPassThen q r hs), ((λ h, EvThenHandler q h r) <$> hs).
      split; [done|]. split; [by destruct h|]. split.
      * simpl. by rewrite decide_True.
      * rewrite handlerLog_add_log. simpl. rewrite bool_decide_eq_true_2 by done.
        by rewrite <- app_assoc.
Qed.

Lemma todoOf_passCount q (fr : Frame) todo : todoOf q fr = Some todo → passCount q fr = 1.
Proof. unfold passCount. by intros ->. Qed.

Lemma settle_frame_pending (s : State) t q r e rest :
  Inv s → threads s !! t = Some (FSettle q r e :: rest) → pending s q.
Proof.
  intros HI Ht. apply (inv_pending _ HI). eapply targetCount_thread_pos; [done|].
  unfold stackCount. simpl. unfold frameCount. simpl. case_decide; [lia|done].
Qed.

Lemma passCount_le_total (s : State) t fr rest x :
  threads s !! t = Some (fr :: rest) → passCount x fr ≤ passTotal x s.
Proof.
  intros Ht. unfold passTotal.
  pose proof (sumOf_lookup_le (λ st, sumOf (passCount x) st) _ _ _ Ht) as Hle.
  simpl in Hle. lia.
Qed.

(** Steps of goroutines and the invariant of the passes. *)
Lemma step_PassInv t (s s' : State) :
  Inv s → PassInv s → step zero t s = Some s' → PassInv s'.
Proof.
  intros HI HP Hs q Hq.
  assert (Hq0 : ¬ settled s q).
  { intros (Q & HQ & Hn).
    apply Hq, (settledWith_settled _ q (res Q) (err Q)).
    eapply (step_keeps_outcome zero); [done|done|]. by exists Q. }
  destruct (HP q Hq0) as [Hlog Htot].
  unfold step in Hs.
  destruct (threads s !! t) as [[|fr rest]|] eqn:Ht; simplify_eq/=.
  destruct (step_frame zero fr s) as [[frs s1]|] eqn:Hf; simplify_eq/=.
  pose proof (passCount_le_total s t fr rest q Ht) as Hle.
  assert (Hth : threads s1 = threads s)
    by (by eapply FrameStep_threads, step_frame_shape).
  pose proof (passTotal_step s s1 t fr rest frs q Ht Hth) as Hst.
  destruct (step_frame_pass _ _ _ _ q Hf) as [Hfrs Hl]; [lia| |].
  - intros r e ->. apply Hq.
    simpl in Hf. destruct (settle q r e s) as [[[tl el] s2]|] eqn:HS; simpl in Hf; simplify_eq.
    apply settle_inv in HS as (P & HP' & -> & -> & ->).
    eexists. split; [simpl; apply list_lookup_insert_eq; by eapply lookup_lt_Some|done].
  - split; [|lia].
    change (handlerLog q (set_thread ?a ?b ?c)) with (handlerLog q c). congruence.
Qed.

Lemma api_passTotal (s s' : State) hp N sts k x :
  ApiStep s s' hp N sts k → passTotal x s' = passTotal x s.
Proof.
  intros HA. unfold passTotal. rewrite (api_threads _ _ _ _ _ _ HA), sumOf_app.
  rewrite (fresh_stacks_sum (passCount x) sts); [lia|done|].
  apply (api_new_frames _ _ _ _ _ _ HA).
Qed.

Lemma api_settled_back (s s' : State) hp N sts k q :
  ApiStep s s' hp N sts k → q < length (heap s) → settled s' q → settled s q.
Proof.
  intros HA Hlt (Q' & HQ' & Hn).
  destruct (lookup_lt_is_Some_2 _ _ Hlt) as [Q HQ].
  destruct (api_lookup _ _ _ _ _ _ _ _ HA HQ) as (Q0 & HQ0 & HG). simplify_eq.
  exists Q. split; [done|]. by rewrite <- (cg_flag _ _ _ HG).
Qed.

Lemma exec_PassInv o (s s' : State) :
  Inv s → PassInv s → exec zero o s = Some s' → PassInv s'.
Proof.
  intros HI HP H.
  destruct (exec_cases zero _ _ _ HI H)
    as [(t & _ & Hs)|[(_ & hp & N & sts & k & HA)|(_ & g & ->)]].
  - by eapply step_PassInv.
  - intros q Hq. rewrite (api_passTotal _ _ _ _ _ _ q HA).
    unfold handlerLog. rewrite (api_log _ _ _ _ _ _ HA). apply HP.
    intros Hs. apply Hq. by eapply api_hasFlag.
  - done.
Qed.

Lemma run_PassInv os (s s' : State) :
  Inv s → PassInv s → run zero os s = Some s' → PassInv s'.
Proof.
  revert s. induction os as [|o os IH]; intros s HI HM H; simplify_eq/=; [done|].
  destruct (exec zero o s) as [s1|] eqn:He; simplify_eq/=.
  eapply IH; [| |done]; [by eapply exec_Inv|by eapply exec_PassInv].
Qed.

Lemma init_PassInv (m : M) : PassInv (init m : State).
Proof. by intros q _. Qed.

Lemma two_threads_pass (s : State) t t' st st' x :
  threads s !! t = Some st → threads s !! t' = Some st' → t ≠ t' →
  sumOf (passCount x) st + sumOf (passCount x) st' ≤ passTotal x s.
Proof.
  intros Ht Ht' Hne. unfold passTotal.
  pose proof (sumOf_insert (λ st, sumOf (passCount x) st) _ _ _ [] Ht) as Hi.
  assert (Ht2 : <[t := []]> (threads s) !! t' = Some st')
    by (by rewrite list_lookup_insert_ne).
  pose proof (sumOf_lookup_le (λ st, sumOf (passCount x) st) _ _ _ Ht2) as Hle.
  simpl in Hi, Hle. lia.
Qed.

Lemma exec_passTrack o (s s' : State) q X :
  Inv s → passTrack q X s → exec zero o s = Some s' → passTrack q X s'.
Proof.
  intros HI [Hq Hcase] H.
  assert (Hq' : settled s' q).
  { destruct Hq as (Q & HQ & Hn).
    apply (settledWith_settled _ q (res Q) (err Q)).
    eapply (exec_keeps_outcome zero); [done|done|]. by exists Q. }
  split; [done|].
  destruct (exec_cases zero _ _ _ HI H)
    as [(t' & -> & Hs)|[(_ & hp & N & sts & k & HA)|(_ & g & ->)]].
  - (* a goroutine steps *)
    destruct (step_decompose zero _ _ _ Hs) as (fr0 & rest0 & _ & _ & Ht' & _ & _).
    destruct (step_inv_top zero _ _ _ _ _ Ht' Hs) as (frs & s1 & Hf & ->).
    assert (Hth : threads s1 = threads s)
      by (by eapply FrameStep_threads, step_frame_shape).
    change (handlerLog q (set_thread t' (frs ++ rest0) s1)) with (handlerLog q s1).
    assert (Hns : ∀ r e, fr0 ≠ FSettle q r e).
    { intros r e ->. eapply hasFlag_excl; [|exact Hq].
      by eapply settle_frame_pending. }
    pose proof (passTotal_step s s1 t' fr0 rest0 frs q Ht' Hth) as Hst.
    destruct Hcase as [(t & pre & fr & post & todo & Ht & Htodo & HX & Htot)|[HX Htot]].
    + pose proof (todoOf_passCount _ _ _ Htodo) as Hpc.
      destruct (decide (t' = t)) as [->|Hne].
      * rewrite Ht in Ht'. destruct pre as [|fr1 pre]; simplify_eq/=.
        -- (* the frame of the pass steps *)
           destruct (pass_frame_step _ _ _ _ _ _ Hf Htodo)
             as [(pre' & fr' & todo' & -> & Hpre & Htodo' & Hlog)|(Hfrs & -> & Hlog)].
           ++ left. exists t, pre', fr', rest0, todo'.
              split; [rewrite <- app_assoc; by eapply set_thread_lookup|].
              split; [done|]. split; [by rewrite Hlog|].
              rewrite sumOf_app in Hst. simpl in Hst.
              rewrite (todoOf_passCount _ _ _ Htodo') in Hst. lia.
           ++ right. rewrite app_nil_r. split; [congruence|lia].
        -- (* a frame above it steps *)
           assert (Hp0 : passCount q fr0 = 0).
           { unfold passTotal in Htot.
             pose proof (sumOf_lookup_le (λ st, sumOf (passCount q) st) _ _ _ Ht) as Hle.
             simpl in Hle. rewrite sumOf_app in Hle. simpl in Hle. lia. }
           destruct (step_frame_pass _ _ _ _ q Hf Hp0 Hns) as [Hfrs Hlog].
           left. exists t, (frs ++ pre), fr, post, todo.
           split; [rewrite <- app_assoc; by eapply set_thread_lookup|].
           split; [done|]. split; [congruence|lia].
      * (* another goroutine steps *)
        assert (Hp0 : passCount q fr0 = 0).
        { pose proof (two_threads_pass s t t' _ _ q Ht Ht' ltac:(done)) as Hle.
          rewrite sumOf_app in Hle. simpl in Hle. lia. }
        destruct (step_frame_pass _ _ _ _ q Hf Hp0 Hns) as [Hfrs Hlog].
        left. exists t, pre, fr, post, todo.
        split; [simpl; rewrite Hth; by rewrite list_lookup_insert_ne|].
        split; [done|]. split; [congruence|lia].
    + assert (Hp0 : passCount q fr0 = 0).
      { pose proof (passCount_le_total s t' fr0 rest0 q Ht'). lia. }
      destruct (step_frame_pass _ _ _ _ q Hf Hp0 Hns) as [Hfrs Hlog].
      right. split; [congruence|lia].
  - (* a call of the interface *)
    rewrite (api_passTotal _ _ _ _ _ _ q HA).
    assert (Hlog : handlerLog q s' = handlerLog q s).
    { unfold handlerLog. by rewrite (api_log _ _ _ _ _ _ HA). }
    rewrite Hlog.
    destruct Hcase as [(t & pre & fr & post & todo & Ht & Htodo & HX & Htot)|[HX Htot]];
      [left|by right].
    exists t, pre, fr, post, todo. split; [|done].
    rewrite (api_threads _ _ _ _ _ _ HA). rewrite lookup_app_l; [done|].
    by eapply lookup_lt_Some.
  - done.
Qed.

Lemma run_passTrack os (s s' : State) q X :
  Inv s → passTrack q X s → run zero os s = Some s' → passTrack q X s'.
Proof.
  revert s. induction os as [|o os IH]; intros s HI HT H; simplify_eq/=; [done|].
  destruct (exec zero o s) as [s1|] eqn:He; simplify_eq/=.
  eapply IH; [| |done]; [by eapply exec_Inv|by eapply exec_passTrack].
Qed.

Lemma sumOf_elem_le {A} (g : A → nat) (l : list A) a : a ∈ l → g a ≤ sumOf g l.
Proof.
  intros Hin. apply list_elem_of_lookup in Hin as [i Hi]. by eapply sumOf_lookup_le.
Qed.

Lemma holder_locks (s : State) t st fr x :
  Mutex s → threads s !! t = Some st → fr ∈ st → 0 < holdCount x fr →
  lockBit x s = 1.
Proof.
  intros HM Ht Hin Hh. pose proof (lockBit_le_1 s x) as Hb. rewrite <- (HM x) in *.
  unfold holdTotal in *.
  pose proof (sumOf_lookup_le (λ st, sumOf (holdCount x) st) _ _ _ Ht) as Hle.
  pose proof (sumOf_elem_le (holdCount x) st fr Hin) as Hle2.
  simpl in Hle. lia.
Qed.

(** The critical section of [call] starts the pass. *)
Lemma settle_starts_pass t (s s1 : State) q r e rest P :
  Inv s → PassInv s →
  threads s !! t = Some (FSettle q r e :: rest) → heap s !! q = Some P →
  step zero t s = Some s1 →
  heap s1 !! q = Some (mkPromise false (doneMu P) None None r e) ∧
  (∀ x, x ≠ q → heap s1 !! x = heap s !! x) ∧
  threads s1 !! t = Some (FLockDone q r e (thenList P) (errorList P) :: rest) ∧
  handlerLog q s1 = [] ∧
  passTrack q (passEvents q r e (thenList P) (errorList P)) s1.
Proof.
  intros HI HP Ht HQ Hs.
  pose proof (settle_frame_pending _ _ _ _ _ _ HI Ht) as Hpend.
  destruct (HP q) as [Hlog Htot].
  { intros Hset. by eapply hasFlag_excl. }
  destruct (step_inv_top zero _ _ _ _ _ Ht Hs) as (frs & s2 & Hf & ->).
  pose proof (passTotal_step s s2 t _ rest frs q Ht
                (FrameStep_threads _ _ _ _ (step_frame_shape zero _ _ _ _ Hf))) as Hst.
  simpl in Hf. destruct (settle q r e s) as [[[tl el] s3]|] eqn:HS; simpl in Hf; simplify_eq.
  apply settle_inv in HS as (P0 & HP0 & -> & -> & ->). simplify_eq.
  assert (Hlk : threads (set_thread t ([FLockDone q r e (thenList P) (errorList P)] ++ rest)
            (add_log (EvSettle q r e)
               (set_heap (<[q := mkPromise false (doneMu P) None None r e]> (heap s)) s))) !! t
          = Some (FLockDone q r e (thenList P) (errorList P) :: rest)).
  { by eapply set_thread_lookup. }
  assert (Hl1 : handlerLog q (set_thread t ([FLockDone q r e (thenList P) (errorList P)] ++ rest)
            (add_log (EvSettle q r e)
               (set_heap (<[q := mkPromise false (doneMu P) None None r e]> (heap s)) s))) = []).
  { change (handlerLog q (set_thread ?a ?b ?c)) with (handlerLog q c).
    rewrite handlerLog_add_log. simpl. rewrite app_nil_r. exact Hlog. }
  assert (Hcell : heap (set_thread t ([FLockDone q r e (thenList P) (errorList P)] ++ rest)
            (add_log (EvSettle q r e)
               (set_heap (<[q := mkPromise false (doneMu P) None None r e]> (heap s)) s))) !! q
          = Some (mkPromise false (doneMu P) None None r e)).
  { simpl. apply list_lookup_insert_eq. by eapply lookup_lt_Some. }
  split; [done|]. split.
  { intros x Hx. simpl. by rewrite list_lookup_insert_ne. }
  split; [done|]. split; [done|]. split.
  - eexists. split; [exact Hcell|done].
  - left. exists t, [], (FLockDone q r e (thenList P) (errorList P)), rest,
      (passEvents q r e (thenList P) (errorList P)).
    split; [done|]. split; [simpl; by rewrite decide_True|].
    split; [by rewrite Hl1|].
    cbn [app] in *. simpl in Hst. unfold passCount in Hst. simpl in Hst.
    rewrite decide_True in Hst by done. lia.
Qed.

(** ** The frames of the pass and the outcome of their promise *)

Lemma frameOutcome_mono (s s' : State) (fr : Frame) :
  (∀ q r e, settledWith s q r e → settledWith s' q r e) →
  frameOutcome s fr → frameOutcome s' fr.
Proof.
  intros Hm. destruct fr; simpl; try done; [by apply Hm| |by apply Hm].
  intros [He [r Hr]]. split; [done|]. exists r. by apply Hm.
Qed.

(** Where the frames come from that a step puts on the stack. *)
Lemma step_frame_origin (fr0 : Frame) (s : State) frs s1 fr' :
  step_frame zero fr0 s = Some (frs, s1) → fr' ∈ frs →
  match fr' with
  | FLockDone q r e _ _ => fr0 = FSettle q r e
  | FPassErr q e _ =>
      (is_Some e ∧ ∃ r tl el, fr0 = FLockDone q r e tl el) ∨
      (∃ hs, fr0 = FPassErr q e hs)
  | FPassThen q r _ =>
      (∃ tl el, fr0 = FLockDone q r None tl el) ∨ (∃ hs, fr0 = FPassThen q r hs)
  | _ => True
  end.
Proof.
  intros H Hin.
  destruct fr0 as [q0 [u|f r|e|f e|p r e f|p e f]|q0 held [[r e]|g k]|q0 r e|q0 r e tl el
                 |q0 e [|h hs]|q0 r [|h hs]|]; simpl in H.
  - simplify_eq. by apply list_elem_of_singleton in Hin as ->.
  - simplify_eq. by apply list_elem_of_singleton in Hin as ->.
  - simplify_eq. by apply list_elem_of_singleton in Hin as ->.
  - simplify_eq. by apply list_elem_of_singleton in Hin as ->.
  - destruct (lockDone p s) as [s2|]; simpl in H; [|done].
    destruct e; simplify_eq; by apply list_elem_of_singleton in Hin as ->.
  - destruct (lockDone p s) as [s2|]; simpl in H; simplify_eq.
    by apply list_elem_of_singleton in Hin as ->.
  - destruct held as [p|].
    + destruct (unlockDone p s) as [s2|]; simpl in H; simplify_eq.
      by apply list_elem_of_singleton in Hin as ->.
    + simplify_eq. by apply list_elem_of_singleton in Hin as ->.
  - destruct (g (mem s)) as [m'|]; simpl in H; simplify_eq.
    by apply list_elem_of_singleton in Hin as ->.
  - destruct (settle q0 r e s) as [[[tl el] s2]|]; simpl in H; simplify_eq.
    by apply list_elem_of_singleton in Hin as ->.
  - destruct (lockDone q0 s) as [s2|]; simpl in H; [|done].
    destruct e as [e|].
    + destruct el as [hs|]; simplify_eq; apply list_elem_of_singleton in Hin as ->;
        [|done]. left. split; [done|]. eauto.
    + destruct tl as [hs|]; simplify_eq; apply list_elem_of_singleton in Hin as ->;
        [|done]. left. eauto.
  - destruct (unlockDone q0 s) as [s2|]; simpl in H; simplify_eq.
    by apply elem_of_nil in Hin.
  - simplify_eq. apply elem_of_cons in Hin as [->|Hin].
    + by destruct h.
    + apply list_elem_of_singleton in Hin as ->. right. eauto.
  - destruct (unlockDone q0 s) as [s2|]; simpl in H; simplify_eq.
    by apply elem_of_nil in Hin.
  - simplify_eq. apply elem_of_cons in Hin as [->|Hin].
    + by destruct h.
    + apply list_elem_of_singleton in Hin as ->. right. eauto.
  - done.
Qed.

Lemma step_PassOutcome t (s s' : State) :
  Inv s → PassOutcome s → step zero t s = Some s' → PassOutcome s'.
Proof.
  intros HI HP Hs t' st' fr' Ht' Hin.
  assert (Hm : ∀ q r e, settledWith s q r e → settledWith s' q r e).
  { intros q r e. by eapply (step_keeps_outcome zero). }
  destruct (step_decompose zero _ _ _ Hs) as (fr0 & rest & _ & _ & Ht & _ & _).
  destruct (decide (t' = t)) as [->|Hne].
  - destruct (step_inv_top zero _ _ _ _ _ Ht Hs) as (frs & s1 & Hf & Heq).
    assert (Hst : st' = frs ++ rest).
    { subst s'. simpl in Ht'.
      rewrite (FrameStep_threads _ _ _ _ (step_frame_shape zero _ _ _ _ Hf)) in Ht'.
      rewrite list_lookup_insert_eq in Ht' by (by eapply lookup_lt_Some). congruence. }
    subst st'. apply elem_of_app in Hin as [Hin|Hin].
    + pose proof (step_frame_origin _ _ _ _ _ Hf Hin) as Ho.
      assert (H0 : frameOutcome s' fr0).
      { eapply frameOutcome_mono; [exact Hm|]. eapply HP; [exact Ht|by left]. }
      destruct fr' as [| | |q r e tl el|q e hs|q r hs|]; try done; simpl.
      * subst fr0. by destruct (settle_step zero _ _ _ _ _ _ _ Ht Hs).
      * destruct Ho as [[He (r & tl & el & ->)]|[hs0 ->]]; [|done].
        split; [done|]. by exists r.
      * destruct Ho as [(tl & el & ->)|[hs0 ->]]; done.
    + eapply frameOutcome_mono; [exact Hm|]. eapply HP; [exact Ht|by right].
  - rewrite (step_threads zero _ _ _ _ Hs Hne) in Ht'.
    eapply frameOutcome_mono; [exact Hm|]. eapply HP; [exact Ht'|exact Hin].
Qed.

Lemma exec_PassOutcome o (s s' : State) :
  Inv s → PassOutcome s → exec zero o s = Some s' → PassOutcome s'.
Proof.
  intros HI HP H.
  destruct (exec_cases zero _ _ _ HI H)
    as [(t & _ & Hs)|[(_ & hp & N & sts & k & HA)|(_ & g & ->)]].
  - by eapply step_PassOutcome.
  - intros t st fr Ht Hin. rewrite (api_threads _ _ _ _ _ _ HA) in Ht.
    apply lookup_app_Some in Ht as [Ht|[_ Ht]].
    + eapply frameOutcome_mono; [|by eapply HP].
      intros q r e. by eapply api_keeps_outcome.
    + apply list_elem_of_lookup_2 in Ht.
      destruct (api_new_frames _ _ _ _ _ _ HA _ Ht) as (q & prod & ->).
      by apply list_elem_of_singleton in Hin as ->.
  - done.
Qed.

Lemma run_PassOutcome os (s s' : State) :
  Inv s → PassOutcome s → run zero os s = Some s' → PassOutcome s'.
Proof.
  revert s. induction os as [|o os IH]; intros s HI HM H; simplify_eq/=; [done|].
  destruct (exec zero o s) as [s1|] eqn:He; simplify_eq/=.
  eapply IH; [| |done]; [by eapply exec_Inv|by eapply exec_PassOutcome].
Qed.

Lemma init_PassOutcome (m : M) : PassOutcome (init m : State).
Proof. intros t st fr Ht. simpl in Ht. by rewrite lookup_nil in Ht. Qed.

(** ** The record of the calls and the frames of the pass *)

(** A frame of the pass of [q], wherever it is, is the one that
    [passTrack] follows. *)
Lemma passTrack_frame (s : State) q X t st (fr : Frame) todo :
  passTrack q X s → threads s !! t = Some st → fr ∈ st →
  todoOf q fr = Some todo → handlerLog q s ++ todo = X.
Proof.
  intros [_ Hcase] Ht Hin Htodo.
  pose proof (todoOf_passCount _ _ _ Htodo) as Hpc.
  pose proof (sumOf_elem_le (passCount q) st fr Hin) as Hst.
  destruct Hcase as [(t0 & pre & fr0 & post & todo0 & Ht0 & Htodo0 & HX & Htot)|[HX Htot]].
  - pose proof (todoOf_passCount _ _ _ Htodo0) as Hpc0.
    destruct (decide (t = t0)) as [->|Hne].
    + simplify_eq.
      pose proof (sumOf_lookup_le (λ st, sumOf (passCount q) st) _ _ _ Ht0) as Hle.
      simpl in Hle. fold (passTotal q s) in Hle.
      rewrite sumOf_app in Hle. simpl in Hle.
      apply elem_of_app in Hin as [Hin|Hin].
      * pose proof (sumOf_elem_le (passCount q) pre fr Hin). lia.
      * apply elem_of_cons in Hin as [->|Hin]; [congruence|].
        pose proof (sumOf_elem_le (passCount q) post fr Hin). lia.
    + pose proof (two_threads_pass s t t0 _ _ q Ht Ht0 Hne) as Hle.
      rewrite sumOf_app in Hle. simpl in Hle. lia.
  - pose proof (sumOf_lookup_le (λ st, sumOf (passCount q) st) _ _ _ Ht) as Hle.
    simpl in Hle. fold (passTotal q s) in Hle. lia.
Qed.

Lemma errEvent_inj q (e : option E) :
  Inj (=) (=) (λ h : @ErrHandler V E M, EvErrHandler q h e).
Proof. intros h h' H. by simplify_eq. Qed.

Lemma thenEvent_inj q (r : V) :
  Inj (=) (=) (λ h : @ThenHandler V E M, EvThenHandler (E:=E) q h r).
Proof. intros h h' H. by simplify_eq. Qed.

Lemma fmap_split_inj {A B} (f : A → B) `{!Inj (=) (=) f} (l hs : list A) (k : list B) :
  k ++ (f <$> hs) = f <$> l → ∃ called, l = called ++ hs ∧ k = f <$> called.
Proof.
  intros H. symmetry in H. apply fmap_app_inv in H as (l1 & l2 & -> & H2 & ->).
  exists l1. split; [|done]. f_equal. by apply (inj (fmap f)).
Qed.

Lemma pass_frames_hold (s : State) q r e tl el t st fr :
  PassOutcome s → settledWith s q r e →
  passTrack q (passEvents q r e (Some tl) (Some el)) s →
  threads s !! t = Some st → fr ∈ st → passHolds q r e tl el s fr.
Proof.
  intros HO HS HT Ht Hin. pose proof (HO _ _ _ Ht Hin) as Hfo.
  destruct fr as [| | | |q' e' hs|q' r' hs|]; simpl; try done; intros ->.
  - destruct Hfo as [He [r0 Hr0]].
    destruct (settledWith_inj _ _ _ _ _ _ Hr0 HS) as [-> ->].
    split; [done|]. split; [done|].
    pose proof (passTrack_frame s q _ t st (FPassErr q e hs)
                  ((λ h, EvErrHandler q h e) <$> hs) HT Ht Hin) as HX.
    simpl in HX. rewrite decide_True in HX by done. specialize (HX eq_refl).
    destruct He as [e0 ->]. simpl in HX.
    by apply (fmap_split_inj _ (Inj0:=errEvent_inj q (Some e0))).
  - destruct (settledWith_inj _ _ _ _ _ _ Hfo HS) as [-> <-].
    split; [done|]. split; [done|].
    pose proof (passTrack_frame s q _ t st (FPassThen q r hs)
                  ((λ h, EvThenHandler q h r) <$> hs) HT Ht Hin) as HX.
    simpl in HX. rewrite decide_True in HX by done. specialize (HX eq_refl).
    simpl in HX.
    by apply (fmap_split_inj _ (Inj0:=thenEvent_inj q r)).
Qed.

(** A step that adds to the record of the handlers of [q] is the step of
    a frame of the pass of [q] that calls the first handler it has
    left. *)
Lemma step_handler_call t (s s' : State) q :
  step zero t s = Some s' →
  handlerLog q s' = handlerLog q s ∨
  (∃ e h hs rest,
     threads s !! t = Some (FPassErr q e (h :: hs) :: rest) ∧
     threads s' !! t = Some (invokeErr h e :: FPassErr q e hs :: rest) ∧
     handlerLog q s' = handlerLog q s ++ [EvErrHandler q h e]) ∨
  (∃ r h hs rest,
     threads s !! t = Some (FPassThen q r (h :: hs) :: rest) ∧
     threads s' !! t = Some (invokeThen h r :: FPassThen q r hs :: rest) ∧
     handlerLog q s' = handlerLog q s ++ [EvThenHandler q h r]).
Proof.
  intros Hs.
  destruct (step_decompose zero _ _ _ Hs) as (fr0 & rest & _ & _ & Ht & _ & _).
  destruct (step_inv_top zero _ _ _ _ _ Ht Hs) as (frs & s1 & Hf & ->).
  change (handlerLog q (set_thread t (frs ++ rest) s1)) with (handlerLog q s1).
  destruct (decide (passCount q fr0 = 0)) as [Hp|Hp].
  - left.
    assert (Hcase : (∃ r e, fr0 = FSettle q r e) ∨ (∀ r e, fr0 ≠ FSettle q r e)).
    { destruct fr0 as [| |q0 r e| | | |]; try (right; intros ? ?; discriminate).
      destruct (decide (q0 = q)) as [->|Hne]; [left; eauto|].
      right. intros r' e' ?. by simplify_eq. }
    destruct Hcase as [(r & e & ->)|Hns].
    + simpl in Hf. destruct (settle q r e s) as [[[tl el] s2]|] eqn:HS;
        simpl in Hf; simplify_eq.
      apply settle_inv in HS as (P & HP & -> & -> & ->).
      by rewrite handlerLog_add_log, app_nil_r.
    + by eapply step_frame_pass.
  - unfold passCount in Hp.
    destruct fr0 as [| | |q0 r e tl el|q0 e hs|q0 r hs|]; simpl in Hp; try done;
      case_decide; try done; subst q0; simpl in Hf.
    + left. destruct (lockDone q s) as [s2|] eqn:HL; simpl in Hf; [|done].
      apply lockDone_inv in HL as (P & HP & _ & ->).
      destruct e, el, tl; by simplify_eq.
    + destruct hs as [|h hs]; simpl in Hf.
      * left. destruct (unlockDone q s) as [s2|] eqn:HL; simpl in Hf; simplify_eq.
        by apply unlockDone_inv in HL as (P & HP & ->).
      * simplify_eq. right; left. exists e, h, hs, rest. split; [done|].
        split; [by eapply set_thread_lookup|].
        rewrite handlerLog_add_log. simpl. by rewrite bool_decide_eq_true_2.
    + destruct hs as [|h hs]; simpl in Hf.
      * left. destruct (unlockDone q s) as [s2|] eqn:HL; simpl in Hf; simplify_eq.
        by apply unlockDone_inv in HL as (P & HP & ->).
      * simplify_eq. right; right. exists r, h, hs, rest. split; [done|].
        split; [by eapply set_thread_lookup|].
        rewrite handlerLog_add_log. simpl. by rewrite bool_decide_eq_true_2.
Qed.

Lemma pass_step_calls t (s s' : State) q r e tl el :
  PassOutcome s → settledWith s q r e →
  passTrack q (passEvents q r e (Some tl) (Some el)) s →
  step zero t s = Some s' → passCalls q r e t s s'.
Proof.
  intros HO HS HT Hs.
  destruct (step_handler_call t s s' q Hs)
    as [Hl|[(e' & h & hs & rest & Ht & Ht' & Hl)|(r' & h & hs & rest & Ht & Ht' & Hl)]].
  - by left.
  - destruct (pass_frames_hold s q r e tl el t _ _ HO HS HT Ht ltac:(by left) eq_refl)
      as (-> & He & _).
    right; left. exists h, hs, rest. split; [done|]. split; [done|].
    split; [|done]. rewrite Ht'. by destruct h.
  - destruct (pass_frames_hold s q r e tl el t _ _ HO HS HT Ht ltac:(by left) eq_refl)
      as (-> & He & _).
    right; right. exists h, hs, rest. split; [done|]. split; [done|].
    split; [|done]. rewrite Ht'. by destruct h.
Qed.

End PassInvariant.

(** * The promise state machine: settlement, construction, chaining *)

Section Core.

Context {V E M : Type}.
Variable zero : V.

Local Abbreviation State := (@State V E M).
Local Abbreviation Promise := (@Promise V E M).
Local Abbreviation Frame := (@Frame V E M).
Local Abbreviation UProg := (@UProg V E M).
Local Abbreviation step := (@step V E M zero).
Local Abbreviation exec := (@exec V E M zero).
Local Abbreviation run := (@run V E M zero).
Local Abbreviation thenErrStage := (@thenErrStage V E M zero).
Local Abbreviation holder := (@holder V E M zero).
Local Abbreviation thenInFlight := (@thenInFlight V E M zero).
Local Abbreviation thenTrack := (@thenTrack V E M zero).

(** ** The branches of [Then] and [Catch] for a promise that is done *)

Lemma Then_settled (s : State) p r e f :
  settledWith s p r e →
  Then zero p f s =
    Some (length (heap s),
          spawn [FCall (length (heap s)) (PThenDone p r e f)]
            (alloc (pendingPromise zero) s)).
Proof.
  intros (P & HP & Hn & <- & <-). unfold Then. rewrite HP. simpl. by rewrite Hn.
Qed.

Lemma Catch_settled_success (s : State) p r f :
  settledWith s p r None →
  Catch zero p f s =
    Some (length (heap s),
          alloc (mkPromise false false (Some []) (Some []) zero None) s).
Proof.
  intros (P & HP & Hn & <- & He). unfold Catch. rewrite HP. simpl.
  by rewrite Hn, He.
Qed.

Lemma Catch_settled_failure (s : State) p r e f :
  settledWith s p r (Some e) →
  Catch zero p f s =
    Some (length (heap s),
          spawn [FCall (length (heap s)) (PCatchDone p (Some e) f)]
            (alloc (pendingPromise zero) s)).
Proof.
  intros (P & HP & Hn & <- & He). unfold Catch. rewrite HP. simpl.
  by rewrite Hn, He.
Qed.

Lemma settled_targetCount (s : State) q :
  Inv s → settled s q → targetCount q s = 0.
Proof.
  intros HI Hq. destruct (decide (0 < targetCount q s)) as [Hp|]; [|lia].
  apply (inv_pending _ HI) in Hp. destruct (hasFlag_excl _ _ Hp Hq).
Qed.

(** A promise that is done and that nobody targets: its outcome stays and
    the handler it was made with is never called. *)
Lemma settled_forever os (s s' : State) q r e :
  Inv s → settledWith s q r e → run os s = Some s' →
  settledWith s' q r e ∧ calls q s' = calls q s.
Proof.
  intros HI HS H. split; [by eapply run_keeps_outcome|].
  assert (Hlt : q < length (heap s)).
  { destruct HS as (Q & HQ & _). by eapply lookup_lt_Some. }
  eapply (run_quiet zero); try done.
  apply settled_targetCount; [done|]. by eapply settledWith_settled.
Qed.

Lemma alloc_settledWith (s : State) r e tl el :
  settledWith (alloc (mkPromise false false tl el r e) s) (length (heap s)) r e.
Proof.
  eexists. split; [simpl; by rewrite list_lookup_middle|done].
Qed.

(** ** A goroutine that runs one [call] with a producer that does not block

    [stage i] is the stack of goroutine [t] after [i] of its steps; after
    [n] steps the promise [q] is settled with [(r, e)]. *)

Lemma two_threads_count (s : State) t t' st st' x :
  threads s !! t = Some st → threads s !! t' = Some st' → t ≠ t' →
  stackCount x st + stackCount x st' ≤ sumOf (stackCount x) (threads s).
Proof.
  intros Ht Ht' Hne.
  pose proof (sumOf_insert (stackCount x) _ _ _ [] Ht) as Hi.
  assert (Ht2 : <[t := []]> (threads s) !! t' = Some st')
    by (by rewrite list_lookup_insert_ne).
  pose proof (sumOf_lookup_le (stackCount x) _ _ _ Ht2) as Hle.
  change (stackCount x []) with 0 in Hi. lia.
Qed.

Section Stages.

Variables (t : nat) (q : pid) (r : V) (e : option E).
Variable stage : nat → list Frame.
Variable cl : nat → list (@Event V E M).
Variable n : nat.

Hypothesis stage_target : ∀ i, i < n → stackCount q (stage i) = 1.
Hypothesis stage_step : ∀ i (s s' : State), i < n → Inv s →
  threads s !! t = Some (stage i) → pending s q → calls q s = cl i →
  step t s = Some s' →
  calls q s' = cl (S i) ∧
  if decide (S i < n) then threads s' !! t = Some (stage (S i)) ∧ pending s' q
  else settledWith s' q r e.

Local Abbreviation atStage := (atStage t q r e stage cl n).

Lemma exec_stage o (s s' : State) i :
  Inv s → atStage i s → exec o s = Some s' →
  atStage (i + countSteps t [o]) s'.
Proof using stage_target stage_step.
  intros HI [Hcl Hat] H. case_decide as Hi.
  - destruct Hat as [Ht Hq]. rewrite Nat.min_l in Hcl by lia.
    destruct (exec_cases zero _ _ _ HI H)
      as [(t' & -> & Hs)|[(Hz & hp & N & sts & k & HA)|(Hz & g & ->)]].
    + destruct (decide (t' = t)) as [->|Hne].
      * destruct (stage_step i s s' Hi HI Ht Hq Hcl Hs) as [Hc Hn].
        simpl. rewrite decide_True by done.
        replace (i + (1 + 0)) with (S i) by lia. split.
        -- rewrite Nat.min_l by lia. done.
        -- case_decide; done.
      * simpl. rewrite decide_False by done. replace (i + (0 + 0)) with i by lia.
        destruct (step_decompose zero _ _ _ Hs) as (fr & rest & frs & s1 & Ht' & _ & Hs').
        assert (Hfr : frameCount q fr = 0).
        { pose proof (two_threads_count s t t' _ _ q Ht Ht' ltac:(done)) as Hle.
          pose proof (inv_unique _ HI q) as Hu. unfold targetCount in Hu.
          rewrite stage_target in Hle by done.
          change (stackCount q (fr :: rest)) with (frameCount q fr + stackCount q rest) in Hle.
          lia. }
        destruct (step_other zero t' s s' fr rest q HI Ht' Hs Hfr) as [Hc Hcell].
        split; [rewrite Nat.min_l by lia; congruence|].
        rewrite decide_True by done. split.
        -- rewrite (step_threads zero _ _ _ t Hs); done.
        -- by eapply sameButLock_hasFlag.
    + rewrite Hz. replace (i + 0) with i by lia. split.
      { rewrite Nat.min_l by lia. unfold calls. by rewrite (api_log _ _ _ _ _ _ HA). }
      rewrite decide_True by done. split.
      * rewrite (api_threads _ _ _ _ _ _ HA). rewrite lookup_app_l; [done|].
        by eapply lookup_lt_Some.
      * by eapply api_hasFlag.
    + rewrite Hz. replace (i + 0) with i by lia. split.
      { rewrite Nat.min_l by lia. done. }
      by rewrite decide_True.
  - pose proof (settled_forever [o] s s' q r e HI Hat) as Hf.
    simpl in Hf. rewrite H in Hf. simpl in Hf. destruct (Hf eq_refl) as [HS Hc].
    rewrite Nat.min_r in Hcl by lia.
    split; [rewrite Nat.min_r by lia; congruence|]. rewrite decide_False by lia. done.
Qed.

Lemma countSteps_cons (o : @Op V E M) os :
  countSteps t (o :: os) = countSteps t [o] + countSteps t os.
Proof. destruct o; simpl; lia. Qed.

Lemma run_stage os (s s' : State) i :
  Inv s → atStage i s → run os s = Some s' →
  atStage (i + countSteps t os) s'.
Proof using stage_target stage_step.
  revert s i. induction os as [|o os IH]; intros s i HI Hat H.
  - simpl in *. simplify_eq. replace (i + 0) with i by lia. done.
  - simpl in H. destruct (exec o s) as [s1|] eqn:He; simpl in H; [|done].
    pose proof (exec_stage _ _ _ _ HI Hat He) as Hat1.
    pose proof (IH s1 _ (exec_Inv zero _ _ _ HI He) Hat1 H) as Hat2.
    rewrite countSteps_cons.
    by replace (i + (countSteps t [o] + countSteps t os))
      with (i + countSteps t [o] + countSteps t os) by lia.
Qed.

End Stages.





(** ** A goroutine that runs one [call], with any user code

    The stages are given by a predicate on the stack, so that the user
    code may take steps that depend on the memory. *)

Section Track.

Variables (t : nat) (q : pid).
Variable stageP : bool → nat → list Frame → Prop.
Variable fin : V → option E → Prop.
Variable cl : bool → list (@Event V E M).

Hypothesis stage_target : ∀ b i st, stageP b i st → stackCount q st = 1.
Hypothesis stage_step : ∀ b i st (s s' : State), Inv s →
  threads s !! t = Some st → stageP b i st → pending s q → calls q s = cl b →
  step t s = Some s' → stageTrack t q stageP fin cl (S i) s'.

Local Abbreviation track := (stageTrack t q stageP fin cl).

Lemma exec_stageTrack o (s s' : State) i :
  Inv s → track i s → exec o s = Some s' → track (i + countSteps t [o]) s'.
Proof using stage_target stage_step.
  intros HI [(b & st & Ht & Hst & Hq & Hc)|(r & e & HS & Hf & Hc)] H.
  - destruct (exec_cases zero _ _ _ HI H)
      as [(t' & -> & Hs)|[(Hz & hp & N & sts & k & HA)|(Hz & g & ->)]].
    + destruct (decide (t' = t)) as [->|Hne].
      * simpl. rewrite decide_True by done.
        replace (i + (1 + 0)) with (S i) by lia. by eapply stage_step.
      * simpl. rewrite decide_False by done. replace (i + (0 + 0)) with i by lia.
        destruct (step_decompose zero _ _ _ Hs) as (fr & rest & frs & s1 & Ht' & _ & Hs').
        assert (Hfr : frameCount q fr = 0).
        { pose proof (two_threads_count s t t' _ _ q Ht Ht' ltac:(done)) as Hle.
          pose proof (inv_unique _ HI q) as Hu. unfold targetCount in Hu.
          rewrite (stage_target _ _ _ Hst) in Hle.
          change (stackCount q (fr :: rest)) with (frameCount q fr + stackCount q rest) in Hle.
          lia. }
        destruct (step_other zero t' s s' fr rest q HI Ht' Hs Hfr) as [Hc' Hcell].
        left. exists b, st. split; [by rewrite (step_threads zero _ _ _ t Hs)|].
        split; [done|]. split; [by eapply sameButLock_hasFlag|congruence].
    + rewrite Hz. replace (i + 0) with i by lia. left. exists b, st. split.
      { rewrite (api_threads _ _ _ _ _ _ HA). rewrite lookup_app_l; [done|].
        by eapply lookup_lt_Some. }
      split; [done|]. split; [by eapply api_hasFlag|].
      unfold calls. by rewrite (api_log _ _ _ _ _ _ HA).
    + rewrite Hz. replace (i + 0) with i by lia. left. by exists b, st.
  - right. exists r, e.
    destruct (settled_forever [o] s s' q r e HI HS) as [HS' Hc'].
    { simpl. by rewrite H. }
    split; [done|]. split; [done|congruence].
Qed.

Lemma run_stageTrack os (s s' : State) i :
  Inv s → track i s → run os s = Some s' → track (i + countSteps t os) s'.
Proof using stage_target stage_step.
  revert s i. induction os as [|o os IH]; intros s i HI Hat H.
  - simpl in *. simplify_eq. replace (i + 0) with i by lia. done.
  - simpl in H. destruct (exec o s) as [s1|] eqn:He; simpl in H; [|done].
    pose proof (exec_stageTrack _ _ _ _ HI Hat He) as Hat1.
    pose proof (IH s1 _ (exec_Inv zero _ _ _ HI He) Hat1 H) as Hat2.
    rewrite (countSteps_cons t).
    by replace (i + (countSteps t [o] + countSteps t os))
      with (i + countSteps t [o] + countSteps t os) by lia.
Qed.

End Track.

(** The stages of [callStage]: what the goroutine does once the user code
    has been entered. *)
Section CallStage.

Variables (t : nat) (q : pid) (first : Frame) (held : option pid).
Variable I : nat → UProg → Prop.
Variable J : nat → V → option E → Prop.
Variable fin : V → option E → Prop.
Variable cl : bool → list (@Event V E M).

Hypothesis I_step : ∀ i g k m, I i (UStep g k) → is_Some (g m) → I (S i) (k m).
Hypothesis I_ret : ∀ i r e, I i (URet (r, e)) → J (S i) r e.
Hypothesis J_fin : ∀ i r e, J i r e → fin r e.
Hypothesis first_target : frameCount q first = 1.
Hypothesis first_step : ∀ (s s' : State), Inv s →
  threads s !! t = Some [first] → pending s q → calls q s = cl false →
  step t s = Some s' →
  ∃ u, threads s' !! t = Some [FRun q held u] ∧ I 1 u ∧ pending s' q ∧
       calls q s' = cl true.

Lemma callStage_target b i st :
  callStage q first held I J b i st → stackCount q st = 1.
Proof using first_target.
  intros [(_ & _ & ->)|[(_ & u & -> & _)|(_ & r & e & -> & _)]];
    unfold stackCount; simpl; [lia| |];
    unfold frameCount; simpl; rewrite decide_True by done; lia.
Qed.

Lemma callStage_step b i st (s s' : State) :
  Inv s → threads s !! t = Some st → callStage q first held I J b i st →
  pending s q → calls q s = cl b → step t s = Some s' →
  stageTrack t q (callStage q first held I J) fin cl (S i) s'.
Proof using I_step I_ret J_fin first_step.
  intros HI Ht [(-> & -> & ->)|[(-> & u & -> & Hu)|(-> & r & e & -> & Hj)]] Hq Hc Hs.
  - destruct (first_step s s' HI Ht Hq Hc Hs) as (u & Ht' & Hu & Hq' & Hc').
    left. exists true, [FRun q held u]. split; [done|]. split; [|done].
    right; left. split; [done|]. by exists u.
  - destruct (step_inv_top zero _ _ _ _ _ Ht Hs) as (frs & s1 & Hf & ->).
    destruct u as [[r e]|g k]; simpl in Hf.
    + assert (Hst : frs = [FSettle q r e] ∧ pending s1 q ∧ calls q s1 = calls q s ∧
                     threads s1 = threads s).
      { destruct held as [p|].
        - destruct (unlockDone p s) as [s2|] eqn:HL; simpl in Hf; simplify_eq.
          apply unlockDone_inv in HL as (P & HP & ->).
          split; [done|]. split; [by apply lock_keeps_pending|done].
        - by simplify_eq. }
      destruct Hst as (-> & Hq' & Hc' & Hth).
      left. exists true, [FSettle q r e].
      split; [by eapply set_thread_lookup|]. split.
      { right; right. split; [done|]. exists r, e. split; [done|]. by apply I_ret. }
      split; [done|].
      change (calls q (set_thread ?a ?b ?c)) with (calls q c). congruence.
    + destruct (g (mem s)) as [m'|] eqn:Hg; simpl in Hf; simplify_eq.
      left. exists true, [FRun q held (k (mem s))].
      split; [by eapply set_thread_lookup|]. split; [|done].
      right; left. split; [done|]. exists (k (mem s)). split; [done|].
      eapply I_step; [done|]. by rewrite Hg.
  - destruct (settle_step zero _ _ _ _ _ _ _ Ht Hs) as [HS Hc'].
    right. exists r, e. split; [done|]. split; [by eapply J_fin|congruence].
Qed.

End CallStage.

(** What [returnsIn] and [canReturn] give to the stages. *)
Lemma within_step (r : V) (e : option E) N i g (k : M → UProg) (m : M) :
  within r e N i (UStep g k) → is_Some (g m) → within r e N (S i) (k m).
Proof.
  intros (j & Hj & Hle) _. destruct j as [|j]; simpl in Hj; [done|].
  exists j. split; [apply Hj|lia].
Qed.

Lemma within_ret (r : V) (e : option E) N i r' e' :
  within (M:=M) r e N i (URet (r', e')) → settleBy r e N (S i) r' e'.
Proof.
  intros (j & Hj & Hle). simpl in Hj. simplify_eq.
  split; [done|]. split; [done|lia].
Qed.

Lemma outcomeOf_step (u0 : UProg) i g k (m : M) :
  outcomeOf u0 i (UStep g k) → is_Some (g m) → outcomeOf u0 (S i) (k m).
Proof. intros H Hg r e Hk. apply H. simpl. by exists m. Qed.

Lemma outcomeOf_ret (u0 : UProg) i r e :
  outcomeOf u0 i (URet (r, e)) → outcomeIs u0 (S i) r e.
Proof. intros H. by apply H. Qed.

Lemma returnsIn_canReturn (r : V) (e : option E) n (u : UProg) r' e' :
  returnsIn r e n u → canReturn r' e' u → r' = r ∧ e' = e.
Proof.
  revert n. induction u as [x|g k IH]; intros n Hr Hc; simpl in *.
  - by simplify_eq.
  - destruct n as [|n]; [done|]. destruct Hc as (m & _ & Hc).
    destruct (Hr m) as [_ Hr']. by eapply IH.
Qed.

Lemma callStage_bound (q : pid) (first : Frame) held (r : V) (e : option E) N b i st :
  0 < N → callStage q first held (within r e N) (settleBy r e N) b i st → i < N.
Proof.
  intros HN [(_ & -> & _)|[(_ & u & _ & j & _ & Hle)|(_ & r' & e' & _ & _ & _ & Hlt)]]; lia.
Qed.

(** A goroutine at a stage of [callStage] whose user code cannot be
    blocked can take a step. *)
Lemma callStage_enabled t (q : pid) u0 (r : V) (e : option E) N b i st (s : State) :
  threads s !! t = Some st → pending s q →
  callStage q (FCall q (PUser u0)) None (within r e N) (settleBy r e N) b i st →
  ∃ s', step t s = Some s'.
Proof.
  intros Ht (Q & HQ & _) [(_ & _ & ->)|[(_ & u & -> & j & Hj & _)|(_ & r' & e' & -> & _)]].
  - eexists. by eapply step_top.
  - destruct u as [[r' e']|g k].
    + eexists. by eapply step_top.
    + destruct j as [|j]; simpl in Hj; [done|].
      destruct (Hj (mem s)) as [[m' Hg] _].
      eexists. eapply step_top; [done|]. simpl. rewrite Hg. done.
  - eexists. eapply step_top; [done|]. simpl. unfold settle. rewrite HQ. done.
Qed.


(** *** The goroutine that [Then] starts for a promise that is done with
    an error *)


Lemma thenErr_stage_step t p q r0 e0 f cs i (s s' : State) :
  i < 3 → Inv s →
  threads s !! t = Some (thenErrStage p q r0 e0 f i) → pending s q →
  calls q s = cs → step t s = Some s' →
  calls q s' = cs ∧
  if decide (S i < 3)
  then threads s' !! t = Some (thenErrStage p q r0 e0 f (S i)) ∧ pending s' q
  else settledWith s' q zero (Some e0).
Proof.
  intros Hi HI Ht Hq Hc Hs.
  destruct i as [|[|[|i]]]; [| | |lia]; simpl in Ht.
  - destruct (step_inv_top zero _ _ _ _ _ Ht Hs) as (frs & s1 & Hf & ->).
    simpl in Hf. destruct (lockDone p s) as [s2|] eqn:HL; simpl in Hf; simplify_eq.
    apply lockDone_inv in HL as (P & HP & _ & ->).
    split; [done|]. rewrite decide_True by lia.
    split; [by eapply set_thread_lookup|by apply lock_keeps_pending].
  - destruct (step_inv_top zero _ _ _ _ _ Ht Hs) as (frs & s1 & Hf & ->).
    simpl in Hf. destruct (unlockDone p s) as [s2|] eqn:HL; simpl in Hf; simplify_eq.
    apply unlockDone_inv in HL as (P & HP & ->).
    split; [done|]. rewrite decide_True by lia.
    split; [by eapply set_thread_lookup|by apply lock_keeps_pending].
  - destruct (settle_step zero _ _ _ _ _ _ _ Ht Hs) as [HS Hc'].
    split; [congruence|]. by rewrite decide_False by lia.
Qed.

Lemma calls_add_log_true q ev (s : State) :
  isCall q ev = true → calls q (add_log ev s) = ev :: calls q s.
Proof.
  intros H. unfold calls, add_log. simpl. rewrite filter_cons.
  case_decide; [done|congruence].
Qed.

Lemma thenOk_stage_step t p q r0 f r e i (s s' : State) :
  f r0 = URet (r, e) →
  i < 3 → Inv s →
  threads s !! t = Some (thenOkStage p q r0 f r e i) → pending s q →
  calls q s = (if decide (i = 0) then [] else [EvCallThen q r0]) →
  step t s = Some s' →
  calls q s' = [EvCallThen q r0] ∧
  if decide (S i < 3)
  then threads s' !! t = Some (thenOkStage p q r0 f r e (S i)) ∧ pending s' q
  else settledWith s' q r e.
Proof.
  intros Hfr Hi HI Ht Hq Hc Hs.
  destruct i as [|[|[|i]]]; [| | |lia]; simpl in Ht.
  - destruct (step_inv_top zero _ _ _ _ _ Ht Hs) as (frs & s1 & Hf & ->).
    simpl in Hf. destruct (lockDone p s) as [s2|] eqn:HL; simpl in Hf; simplify_eq.
    apply lockDone_inv in HL as (P & HP & _ & ->).
    split.
    + change (calls q (set_thread ?a ?b ?c)) with (calls q c).
      rewrite calls_add_log_true by (simpl; by apply bool_decide_eq_true).
      change (calls q (set_heap ?a ?b)) with (calls q b). rewrite Hc.
      by rewrite decide_True.
    + rewrite decide_True by lia. rewrite Hfr.
      split; [by eapply set_thread_lookup|by apply lock_keeps_pending].
  - destruct (step_inv_top zero _ _ _ _ _ Ht Hs) as (frs & s1 & Hf & ->).
    simpl in Hf. destruct (unlockDone p s) as [s2|] eqn:HL; simpl in Hf; simplify_eq.
    apply unlockDone_inv in HL as (P & HP & ->).
    split; [done|]. rewrite decide_True by lia.
    split; [by eapply set_thread_lookup|by apply lock_keeps_pending].
  - destruct (settle_step zero _ _ _ _ _ _ _ Ht Hs) as [HS Hc'].
    split; [by rewrite Hc'|]. by rewrite decide_False by lia.
Qed.

Lemma thenOkStage_target p q r0 f r e i :
  stackCount q (thenOkStage (V:=V) (E:=E) (M:=M) p q r0 f r e i) = 1.
Proof.
  destruct i as [|[|i]]; unfold stackCount, frameCount; simpl.
  all: case_decide; lia.
Qed.

Lemma thenErrStage_target p q r0 e0 f i :
  stackCount q (thenErrStage p q r0 e0 f i) = 1.
Proof.
  destruct i as [|[|i]]; unfold stackCount, frameCount; simpl.
  all: case_decide; lia.
Qed.

(** ** [Catch] on a pending promise that then succeeds *)

Lemma settle_targetCount t (s s' : State) p r e rest P x :
  Inv s → threads s !! t = Some (FSettle p r e :: rest) → heap s !! p = Some P →
  step t s = Some s' →
  targetCount x s' + (if decide (x = p) then 1 else 0) + errCount x P
  = targetCount x s + count x (selected e (thenList P) (errorList P)).
Proof.
  intros HI Ht HP Hs.
  destruct (step_inv_top zero _ _ _ _ _ Ht Hs) as (frs & s1 & Hf & ->). simpl in Hf.
  destruct (settle p r e s) as [[[tl el] s2]|] eqn:HS; simpl in Hf; simplify_eq.
  apply settle_inv in HS as (P0 & HP0 & -> & -> & ->). simplify_eq.
  set (P' := mkPromise false (doneMu P) None None r e).
  unfold targetCount, set_thread. simpl.
  pose proof (sumOf_insert (stackCount x) _ _ _
    (FLockDone p r e (thenList P) (errorList P) :: rest) Ht) as Hi.
  pose proof (sumOf_insert (errCount x) _ _ _ P' HP) as Hj.
  change (stackCount x (?a :: ?b)) with (frameCount x a + stackCount x b) in Hi.
  change (frameCount x (FSettle p r e)) with (count x [p]) in Hi.
  change (frameCount x (FLockDone p r e ?a ?b)) with (count x (selected e a b)) in Hi.
  rewrite count_singleton_fmap in Hi.
  change (errCount x P') with 0 in Hj. lia.
Qed.

Lemma count_fresh_zero {A} (f : A → nat) (l : list A) n x :
  Forall (λ h, f h = n) l → x ≠ n → count x (f <$> l) = 0.
Proof.
  intros Hl Hx. induction Hl as [|h l Hh Hl IH]; simpl; [done|].
  rewrite decide_False by congruence. done.
Qed.

Lemma CellGrows_counts n (Q Q' : Promise) x :
  CellGrows n Q Q' → x ≠ n →
  errCount x Q' = errCount x Q ∧ thenCount x Q' = thenCount x Q.
Proof.
  intros [_ _ _ _ (tl & Htl & HFt) (el & Hel & HFe) _ _] Hx.
  unfold errCount, thenCount. rewrite Htl, Hel, !fmap_app, !count_app.
  rewrite (count_fresh_zero _ _ _ _ HFt Hx), (count_fresh_zero _ _ _ _ HFe Hx). lia.
Qed.

Lemma heap_count_le (s : State) p P x :
  heap s !! p = Some P → errCount x P ≤ sumOf (errCount x) (heap s).
Proof. apply sumOf_lookup_le. Qed.

Lemma exec_catchTrack o (s s' : State) p q :
  Inv s → catchTrack p q s → exec o s = Some s' → catchTrack p q s'.
Proof.
  intros HI [(Hq & Hc & P & HP & Hn & Hth & Her)|[(r & e & HS)|(Hq & Hc & Hz)]] H.
  - assert (Hqlt : q < length (heap s)).
    { destruct Hq as (Q & HQ & _). by eapply lookup_lt_Some. }
    destruct (exec_cases zero _ _ _ HI H)
      as [(t & -> & Hs)|[(_ & hp & N & sts & k & HA)|(_ & g & ->)]].
    + destruct (step_decompose zero _ _ _ Hs) as (fr & rest & frs & s1 & Ht & _ & _).
      assert (Hfr : frameCount q fr = 0).
      { pose proof (frameCount_le_targetCount _ _ _ _ q Ht) as Hle.
        pose proof (inv_unique _ HI q) as Hu.
        pose proof (heap_count_le _ _ _ q HP) as Hh.
        unfold targetCount in *.
        pose proof (sumOf_lookup_le (stackCount q) _ _ _ Ht) as Hle2.
        change (stackCount q (fr :: rest)) with (frameCount q fr + stackCount q rest) in Hle2.
        lia. }
      destruct (step_other zero t s s' fr rest q HI Ht Hs Hfr) as [Hc' Hcell].
      assert (Hq' : pending s' q) by (by eapply sameButLock_hasFlag).
      destruct (step_cell zero t s s' fr rest p P Ht Hs HP)
        as (P' & HP' & [HSB|(r & e & -> & ->)]).
      * left. split; [done|]. split; [congruence|]. exists P'. split; [done|].
        destruct HSB as (Hn' & Htl & Hel & _). unfold thenCount, errCount in *.
        rewrite Htl, Hel. split; [congruence|done].
      * destruct e as [e|].
        -- right; left. exists r, e. by exists (mkPromise false (doneMu P) None None r (Some e)).
        -- right; right. split; [done|]. split; [congruence|].
           pose proof (settle_targetCount t s s' p r None rest P q HI Ht HP Hs) as Heq.
           pose proof (inv_unique _ HI q). simpl in Heq.
           change (count q (thenTarget <$> queue (thenList P))) with (thenCount q P) in Heq.
           lia.
    + destruct (api_lookup _ _ _ _ _ _ _ _ HA HP) as (P' & HP' & HG).
      destruct (CellGrows_counts _ _ _ q HG ltac:(lia)) as [He' Ht'].
      left. split; [by eapply api_hasFlag|]. split.
      { unfold calls. by rewrite (api_log _ _ _ _ _ _ HA). }
      exists P'. split; [done|]. rewrite (cg_flag _ _ _ HG). split; [done|]. lia.
    + left. split; [done|]. split; [done|]. by exists P.
  - right; left. exists r, e. by eapply exec_keeps_outcome.
  - assert (Hqlt : q < length (heap s)).
    { destruct Hq as (Q & HQ & _). by eapply lookup_lt_Some. }
    destruct (exec_quiet zero _ _ _ q HI H Hqlt Hz) as (H1 & H2 & H3).
    right; right. split; [by apply H3|]. split; [congruence|done].
Qed.

Lemma run_catchTrack os (s s' : State) p q :
  Inv s → catchTrack p q s → run os s = Some s' → catchTrack p q s'.
Proof.
  revert s. induction os as [|o os IH]; intros s HI HT H; simplify_eq/=; [done|].
  destruct (exec o s) as [s1|] eqn:He; simplify_eq/=.
  eapply IH; [| |done]; [by eapply exec_Inv|by eapply exec_catchTrack].
Qed.

Lemma fresh_counts (s : State) p P x :
  Inv s → heap s !! p = Some P → length (heap s) ≤ x →
  errCount x P = 0 ∧ thenCount x P = 0.
Proof.
  intros HI HP Hx.
  pose proof (heap_count_le _ _ _ x HP) as Hle.
  pose proof (inv_then _ HI _ _ x HP) as Hth.
  destruct (decide (0 < targetCount x s)) as [Hp|Hp].
  { apply Inv_target_lt in Hp; [lia|done]. }
  unfold targetCount in Hp. lia.
Qed.

Lemma Catch_pending_track p f (s s1 : State) q :
  WF s → pending s p → Catch zero p f s = Some (q, s1) →
  q = length (heap s) ∧ catchWaiting p q s1.
Proof.
  intros [HI HC] (P & HP & Hn) H. unfold Catch in H. rewrite HP in H. simpl in H.
  rewrite Hn in H.
  destruct (pushBack (errorList P) _) as [el|] eqn:Hel; simpl in H; simplify_eq.
  apply pushBack_Some in Hel as (el0 & Hel0 & ->).
  split; [done|].
  destruct (fresh_counts s p P (length (heap s)) HI HP ltac:(done)) as [He Ht].
  assert (Hp : p < length (heap s)) by (by eapply lookup_lt_Some).
  split; [|split].
  - exists (pendingPromise zero). split; [|done]. simpl.
    rewrite lookup_app_r by (by rewrite length_insert).
    rewrite length_insert, Nat.sub_diag. done.
  - apply HC. done.
  - eexists. split.
    { simpl. rewrite lookup_app_l by (by rewrite length_insert).
      by apply list_lookup_insert_eq. }
    split; [done|]. split; [done|].
    unfold errCount in *. simpl. rewrite Hel0 in He. simpl in He.
    rewrite fmap_app, count_app, He. simpl. by rewrite decide_True.
Qed.


Lemma pending_Resolve (s : State) q : pending s q ↔ Resolve q s = Some None.
Proof.
  unfold Resolve. split.
  - intros (Q & -> & Hn). simpl. by rewrite Hn.
  - intros H. destruct (heap s !! q) as [Q|] eqn:HQ; simplify_eq/=.
    destruct (notDone Q) eqn:Hn; simplify_eq. by exists Q.
Qed.

(** [Catch] on a promise that is done without an error: nothing is started,
    the new promise is done from the start with the zero value and a nil
    error, and the handler is never called. *)
Lemma Catch_settled_passthrough os (s s1 s' : State) p v f q :
  WF s → settledWith s p v None →
  Catch zero p f s = Some (q, s1) → run os s1 = Some s' →
  threads s1 = threads s ∧ log s1 = log s ∧
  settledWith s1 q zero None ∧
  settledWith s' q zero None ∧ calls q s' = [].
Proof.
  intros HW HS HC H. rewrite (Catch_settled_success _ _ _ f HS) in HC. simplify_eq.
  split; [done|]. split; [done|].
  set (s1 := alloc _ s) in *.
  assert (HS1 : settledWith s1 (length (heap s)) zero None) by apply alloc_settledWith.
  split; [done|].
  destruct (settled_forever os s1 s' (length (heap s)) zero None) as [HS3 Hc3];
    [|done|done|].
  - eapply (Inv_api s); [apply HW|].
    eapply (mkApiStep _ _ (heap s) _ [] 0); api_side. apply cells_same, HW.
  - split; [done|]. rewrite Hc3. apply (wf_calls _ HW). done.
Qed.

(** [Catch] on a promise that is pending and then succeeds: the handler is
    never called, and the new promise stays pending for ever. *)
Lemma Catch_pending_then_success os (s s1 s' : State) p v f q :
  WF s → pending s p →
  Catch zero p f s = Some (q, s1) → run os s1 = Some s' →
  settledWith s' p v None →
  pending s' q ∧ calls q s' = [].
Proof.
  intros HW Hp HC H HS.
  destruct (Catch_pending_track _ _ _ _ _ HW Hp HC) as [-> HT].
  assert (HI1 : Inv s1).
  { eapply (exec_Inv zero (OCatch p f)); [apply HW|]. simpl. by rewrite HC. }
  destruct (run_catchTrack os s1 s' p _ HI1 (or_introl HT) H)
    as [(_ & _ & P & HP & Hn & _)|[(r & e & HS')|(Hq & Hc & _)]].
  - destruct HS as (Q & HQ & HnQ & _). simplify_eq. congruence.
  - destruct (settledWith_inj _ _ _ _ _ _ HS HS') as [_ ?]. done.
  - done.
Qed.

(** ** [Then] on a pending promise that then fails *)

Lemma holder_count q e0 fr : holder q e0 fr → frameCount q fr = 1.
Proof.
  unfold frameCount.
  destruct fr as [q' [| |e| | |]|q' ? ?|q' r e|q' r e tl el|q' e hs|q' r hs|]; simpl; try done.
  - intros [-> _]. by rewrite decide_True.
  - intros [-> _]. by rewrite decide_True.
  - intros (-> & hs & -> & Hc & _). done.
  - intros (-> & Hc & _). done.
Qed.

Lemma stackCount_app x (st1 st2 : list Frame) :
  stackCount x (st1 ++ st2) = stackCount x st1 + stackCount x st2.
Proof. apply sumOf_app. Qed.

Lemma propOnly_tail q (h : @ErrHandler V E M) hs :
  propOnly q (h :: hs) →
  (errTarget h = q ∧ h = PropHn q) ∨ (errTarget h ≠ q ∧ propOnly q hs).
Proof.
  intros [Hc Hh]. destruct (decide (errTarget h = q)) as [Hq|Hq].
  - left. split; [done|]. apply Hh; [by left|done].
  - right. split; [done|]. split.
    + simpl in Hc. rewrite decide_False in Hc by congruence. done.
    + intros h' Hin. apply Hh. by right.
Qed.

(** The holder takes a step. *)
Lemma holder_step t (s s' : State) q e0 fr post :
  Inv s → threads s !! t = Some (fr :: post) → holder q e0 fr →
  pending s q → step t s = Some s' →
  calls q s' = calls q s ∧
  ((pending s' q ∧
    ∃ pre fr' post', threads s' !! t = Some (pre ++ fr' :: post') ∧ holder q e0 fr')
   ∨ settledWith s' q zero (Some e0)).
Proof.
  intros HI Ht Hh Hq Hs.
  destruct fr as [q' [| |e| | |]|q' ? ?|q' r e|q' r e tl el|q' e hs|q' r hs|];
    simpl in Hh; try done.
  - destruct Hh as [-> ->].
    destruct (step_inv_top zero _ _ _ _ _ Ht Hs) as (frs & s1 & Hf & ->).
    simpl in Hf. simplify_eq. split; [done|]. left. split; [done|].
    exists [], (FSettle q zero (Some e0)), post.
    split; [by eapply set_thread_lookup|done].
  - destruct Hh as (-> & -> & ->).
    destruct (settle_step zero _ _ _ _ _ _ _ Ht Hs) as [HS Hc]. split; [done|]. by right.
  - destruct Hh as (-> & hs & -> & Hp).
    destruct (step_inv_top zero _ _ _ _ _ Ht Hs) as (frs & s1 & Hf & ->).
    simpl in Hf. destruct (lockDone q' s) as [s2|] eqn:HL; simpl in Hf; simplify_eq.
    apply lockDone_inv in HL as (P & HP & _ & ->).
    split; [done|]. left. split; [by apply lock_keeps_pending|].
    exists [], (FPassErr q' (Some e0) hs), post.
    split; [by eapply set_thread_lookup|done].
  - destruct Hh as (-> & Hp). destruct hs as [|h hs].
    { destruct Hp as [Hc _]. simpl in Hc. lia. }
    destruct (step_inv_top zero _ _ _ _ _ Ht Hs) as (frs & s1 & Hf & ->).
    simpl in Hf. simplify_eq. split.
    { change (calls q (set_thread ?a ?b ?c)) with (calls q c).
      by rewrite calls_add_log. }
    left. split; [done|].
    destruct (propOnly_tail _ _ _ Hp) as [[_ ->]|[Hne Hp']].
    + exists [], (FCall q (PErr (Some e0))), (FPassErr q' (Some e0) hs :: post).
      split; [by eapply set_thread_lookup|done].
    + exists [invokeErr h (Some e0)], (FPassErr q' (Some e0) hs), post.
      split; [by eapply set_thread_lookup|done].
Qed.

Lemma exec_thenInFlight o (s s' : State) q e0 :
  Inv s → thenInFlight q e0 s → exec o s = Some s' →
  calls q s' = [] ∧
  (thenInFlight q e0 s' ∨ settledWith s' q zero (Some e0)).
Proof.
  intros HI (Hq & Hc & t & pre & fr & post & Ht & Hh) H.
  pose proof (holder_count _ _ _ Hh) as Hfc.
  destruct (exec_cases zero _ _ _ HI H)
    as [(t' & -> & Hs)|[(_ & hp & N & sts & k & HA)|(_ & g & ->)]].
  - destruct (decide (t' = t)) as [->|Hne].
    + destruct pre as [|fr0 pre].
      * simpl in Ht.
        destruct (holder_step _ _ _ _ _ _ _ HI Ht Hh Hq Hs)
          as [Hc' [(Hq' & pre' & fr' & post' & Ht' & Hh')|HS]].
        -- split; [congruence|]. left. split; [done|]. split; [congruence|].
           by exists t, pre', fr', post'.
        -- split; [congruence|]. by right.
      * simpl in Ht.
        assert (Hfr : frameCount q fr0 = 0).
        { pose proof (inv_unique _ HI q) as Hu. unfold targetCount in Hu.
          pose proof (sumOf_lookup_le (stackCount q) _ _ _ Ht) as Hle.
          change (stackCount q (fr0 :: ?b)) with (frameCount q fr0 + stackCount q b) in Hle.
          rewrite stackCount_app in Hle.
          change (stackCount q (fr :: post)) with (frameCount q fr + stackCount q post) in Hle.
          lia. }
        destruct (step_other zero t s s' fr0 _ q HI Ht Hs Hfr) as [Hc' Hcell].
        split; [congruence|]. left. split; [by eapply sameButLock_hasFlag|].
        split; [congruence|].
        destruct (step_inv_top zero _ _ _ _ _ Ht Hs) as (frs & s1 & Hf & ->).
        exists t, (frs ++ pre), fr, post. split; [|done].
        rewrite <- app_assoc.
        eapply set_thread_lookup; [done|].
        by eapply FrameStep_threads, step_frame_shape.
    + destruct (step_decompose zero _ _ _ Hs) as (fr0 & rest & frs & s1 & Ht' & _ & _).
      assert (Hfr : frameCount q fr0 = 0).
      { pose proof (two_threads_count s t t' _ _ q Ht Ht' ltac:(done)) as Hle.
        pose proof (inv_unique _ HI q) as Hu. unfold targetCount in Hu.
        rewrite stackCount_app in Hle.
        change (stackCount q (fr :: post)) with (frameCount q fr + stackCount q post) in Hle.
        change (stackCount q (fr0 :: rest)) with (frameCount q fr0 + stackCount q rest) in Hle.
        lia. }
      destruct (step_other zero t' s s' fr0 rest q HI Ht' Hs Hfr) as [Hc' Hcell].
      split; [congruence|]. left. split; [by eapply sameButLock_hasFlag|].
      split; [congruence|]. exists t, pre, fr, post. split; [|done].
      rewrite (step_threads zero _ _ _ t Hs); done.
  - assert (Hc' : calls q s' = []).
    { unfold calls. rewrite (api_log _ _ _ _ _ _ HA). done. }
    split; [done|]. left. split; [by eapply api_hasFlag|]. split; [done|].
    exists t, pre, fr, post. split; [|done].
    rewrite (api_threads _ _ _ _ _ _ HA). rewrite lookup_app_l; [done|].
    by eapply lookup_lt_Some.
  - split; [done|]. left. split; [done|]. split; [done|]. by exists t, pre, fr, post.
Qed.

Lemma propOnly_grow q n (hs el : list (@ErrHandler V E M)) :
  propOnly q hs → Forall (λ h, errTarget h = n) el → q ≠ n →
  propOnly q (hs ++ el).
Proof.
  intros [Hc Hh] Hel Hne. split.
  - rewrite fmap_app, count_app, Hc, (count_fresh_zero _ _ _ _ Hel Hne). lia.
  - intros h Hin Ht. apply elem_of_app in Hin as [Hin|Hin]; [by apply Hh|].
    rewrite Forall_forall in Hel. apply Hel in Hin. congruence.
Qed.

Lemma exec_thenTrack o (s s' : State) p q :
  Inv s → thenTrack p q s → exec o s = Some s' → thenTrack p q s'.
Proof.
  intros HI [(Hq & Hc & P & HP & Hn & Hpo)|[(r & HS)|(r0 & e0 & HS & [HF|[HSq Hc]])]] H.
  - assert (Hqlt : q < length (heap s)).
    { destruct Hq as (Q & HQ & _). by eapply lookup_lt_Some. }
    assert (Her : errCount q P = 1) by apply Hpo.
    destruct (exec_cases zero _ _ _ HI H)
      as [(t & -> & Hs)|[(_ & hp & N & sts & k & HA)|(_ & g & ->)]].
    + destruct (step_decompose zero _ _ _ Hs) as (fr & rest & frs & s1 & Ht & _ & _).
      assert (Hfr : frameCount q fr = 0).
      { pose proof (inv_unique _ HI q) as Hu.
        pose proof (heap_count_le _ _ _ q HP) as Hh.
        unfold targetCount in *.
        pose proof (sumOf_lookup_le (stackCount q) _ _ _ Ht) as Hle2.
        change (stackCount q (fr :: rest)) with (frameCount q fr + stackCount q rest) in Hle2.
        lia. }
      destruct (step_other zero t s s' fr rest q HI Ht Hs Hfr) as [Hc' Hcell].
      assert (Hq' : pending s' q) by (by eapply sameButLock_hasFlag).
      destruct (step_cell zero t s s' fr rest p P Ht Hs HP)
        as (P' & HP' & [HSB|(r & e & -> & ->)]).
      * left. split; [done|]. split; [congruence|]. exists P'. split; [done|].
        destruct HSB as (Hn' & Htl & Hel & _). rewrite Hel. split; [congruence|done].
      * destruct e as [e|].
        -- right; right. exists r, e. split.
           { by exists (mkPromise false (doneMu P) None None r (Some e)). }
           left. split; [done|]. split; [congruence|].
           destruct (step_inv_top zero _ _ _ _ _ Ht Hs) as (frs' & s2 & Hf & Hs').
           simpl in Hf.
           destruct (settle p r (Some e) s) as [[[tl el] s3]|] eqn:HSt;
             simpl in Hf; simplify_eq.
           apply settle_inv in HSt as (P0 & HP0 & -> & -> & ->). simplify_eq.
           exists t, [], (FLockDone p r (Some e) (thenList P) (errorList P)), rest.
           split; [by eapply set_thread_lookup|].
           simpl. split; [done|].
           destruct (inv_queues _ HI _ _ HP Hn) as [_ [hs Hhs]].
           exists hs. split; [done|]. by rewrite Hhs in Hpo.
        -- right; left. exists r.
           by exists (mkPromise false (doneMu P) None None r None).
    + destruct (api_lookup _ _ _ _ _ _ _ _ HA HP) as (P' & HP' & HG).
      left. split; [by eapply api_hasFlag|]. split.
      { unfold calls. by rewrite (api_log _ _ _ _ _ _ HA). }
      exists P'. split; [done|]. rewrite (cg_flag _ _ _ HG). split; [done|].
      destruct (cg_error _ _ _ HG) as (el & -> & Hel).
      eapply propOnly_grow; [done|done|lia].
    + left. split; [done|]. split; [done|]. by exists P.
  - right; left. exists r. by eapply exec_keeps_outcome.
  - right; right. exists r0, e0. split; [by eapply exec_keeps_outcome|].
    destruct (exec_thenInFlight _ _ _ _ _ HI HF H) as [Hc [HF'|HS']]; [by left|by right].
  - right; right. exists r0, e0. split; [by eapply exec_keeps_outcome|]. right.
    destruct (settled_forever [o] s s' q zero (Some e0) HI HSq) as [HS' Hc'].
    { simpl. by rewrite H. }
    split; [done|congruence].
Qed.

Lemma run_thenTrack os (s s' : State) p q :
  Inv s → thenTrack p q s → run os s = Some s' → thenTrack p q s'.
Proof.
  revert s. induction os as [|o os IH]; intros s HI HT H; simplify_eq/=; [done|].
  destruct (exec o s) as [s1|] eqn:He; simplify_eq/=.
  eapply IH; [| |done]; [by eapply exec_Inv|by eapply exec_thenTrack].
Qed.

Lemma Then_pending_track p f (s s1 : State) q :
  WF s → pending s p → Then zero p f s = Some (q, s1) →
  q = length (heap s) ∧ thenWaiting p q s1 ∧
  ∃ P, heap s1 !! p = Some P ∧
       ThenHn q f ∈ queue (thenList P) ∧ PropHn q ∈ queue (errorList P).
Proof.
  intros [HI HC] (P & HP & Hn) H. unfold Then in H. rewrite HP in H. simpl in H.
  rewrite Hn in H.
  destruct (pushBack (thenList P) _) as [tl|] eqn:Htl; simpl in H; simplify_eq.
  destruct (pushBack (errorList P) _) as [el|] eqn:Hel; simpl in H; simplify_eq.
  apply pushBack_Some in Htl as (tl0 & Htl0 & ->).
  apply pushBack_Some in Hel as (el0 & Hel0 & ->).
  split; [done|].
  destruct (fresh_counts s p P (length (heap s)) HI HP ltac:(done)) as [He Ht].
  assert (Hp : p < length (heap s)) by (by eapply lookup_lt_Some).
  set (P' := mkPromise _ _ _ _ _ _).
  assert (HP' : (<[p := P']> (heap s) ++ [pendingPromise zero]) !! p = Some P').
  { rewrite lookup_app_l by (by rewrite length_insert).
    by apply list_lookup_insert_eq. }
  split; [split; [|split]|].
  - exists (pendingPromise zero). split; [|done]. simpl.
    rewrite lookup_app_r by (by rewrite length_insert).
    rewrite length_insert, Nat.sub_diag. done.
  - apply HC. done.
  - exists P'. split; [done|]. split; [done|]. simpl. split.
    + unfold errCount in He. rewrite Hel0 in He. simpl in He.
      rewrite fmap_app, count_app, He. simpl. by rewrite decide_True.
    + intros h Hin Hth. apply elem_of_app in Hin as [Hin|Hin].
      * exfalso. unfold errCount in He. rewrite Hel0 in He. simpl in He.
        assert (0 < count (length (heap s)) (errTarget <$> el0)); [|lia].
        apply count_pos_elem. rewrite <- Hth. by apply list_elem_of_fmap_2.
      * by apply list_elem_of_singleton in Hin.
  - exists P'. split; [done|]. simpl. split; apply elem_of_app; right; by left.
Qed.

Lemma holder_not_idle (s : State) t pre fr post :
  threads s !! t = Some (pre ++ fr :: post) → ¬ idle s.
Proof. intros Ht Hi. apply Hi in Ht. by destruct pre. Qed.

Lemma passEvents_queue q (r : V) (e : option E)
    (tl : option (list (@ThenHandler V E M))) (el : option (list (@ErrHandler V E M))) :
  passEvents q r e tl el = passEvents q r e (Some (queue tl)) (Some (queue el)).
Proof. by destruct e. Qed.

(** C2.  The settlement engine.  Goroutine [t] is in [q.call(f)] and [f] has
    returned [(r, e)].  Its next step, the section under the state lock,
    marks [q] as settled, stores [(r, e)], stores nil in both queue fields
    of [q] and keeps the two detached queues; no handler of [q] has been
    called so far.  From then on, in every state [s'] that any schedule
    leads to:
    - the handlers of [q] that have been called are a prefix, in the order
      of registration, of the detached failure queue, each called with
      the error, when [e] is not nil, and of the detached success queue,
      each called with the value, when [e] is nil; they have all been
      called once no goroutine has anything left to do;
    - a frame of the pass of [q] runs the failure queue with [e], and
      only if [e] is not nil, or the success queue with [r], and only if
      [e] is nil, and it holds exactly the handlers of that detached
      queue that have not been called, in their order ([passHolds]);
    - a step that calls a handler of [q] is the step of that frame which
      takes the first handler it has left and runs its wrapper with the
      error, or with the value ([passCalls]);
    - a frame that runs the pass holds [q.doneMu], and the pass cannot
      start while [q.doneMu] is held;
    - [Then] and [Catch] on [q] take the branch for a promise that is
      done, which does not touch the queues.
    In the variant of the package that keeps the queues in values of the
    type [stack], the critical section of [call] copies the two stacks
    and resets the fields with [format]: there the fields hold empty
    stacks, on which [push] works. *)
Theorem call_settles_then_runs_handlers (m : M) os1 os2 (s s1 s' : State)
    t q r e rest P :
  run os1 (init m) = Some s →
  threads s !! t = Some (FSettle q r e :: rest) →
  heap s !! q = Some P →
  step t s = Some s1 →
  run os2 s1 = Some s' →
  heap s1 !! q = Some (mkPromise false (doneMu P) None None r e) ∧
  (∀ x, x ≠ q → heap s1 !! x = heap s !! x) ∧
  threads s1 !! t = Some (FLockDone q r e (thenList P) (errorList P) :: rest) ∧
  handlerLog q s1 = [] ∧
  (∃ todo, handlerLog q s' ++ todo = passEvents q r e (thenList P) (errorList P) ∧
           (idle s' → todo = [])) ∧
  (∀ t' st fr, threads s' !! t' = Some st → fr ∈ st →
     passHolds q r e (queue (thenList P)) (queue (errorList P)) s' fr) ∧
  (∀ t' s'', step t' s' = Some s'' → passCalls q r e t' s' s'') ∧
  (∀ t' st fr, threads s' !! t' = Some st → fr ∈ st →
     (∃ hs, fr = FPassErr q e hs) ∨ (∃ hs, fr = FPassThen q r hs) →
     lockBit q s' = 1) ∧
  (∀ (s2 : State) Q tl el, heap s2 !! q = Some Q → doneMu Q = true →
     step_frame zero (FLockDone q r e tl el) s2 = None) ∧
  (∀ f, ∃ x, Then zero q f s' = Some (length (heap s'), x)) ∧
  (∀ f, ∃ x, Catch zero q f s' = Some (length (heap s'), x)) ∧
  (∀ (A : Type) (h : list (Stack.element A)) (l : Stack.stack) (x : A),
     Stack.repr h (Stack.format l) [] ∧
     Stack.push (Stack.format l) x h =
       Some (length h, Stack.mkStack (Some (length h)) (Some (length h)),
             h ++ [Stack.mkElement x None])).
Proof.
  intros H1 Ht HQ Hs H2.
  assert (HI : Inv s) by (eapply run_Inv; [apply init_Inv|done]).
  assert (HP : PassInv s).
  { eapply run_PassInv; [apply init_Inv|apply init_PassInv|done]. }
  assert (Hrun : run (os1 ++ OStep t :: os2) (init m) = Some s').
  { rewrite run_app, H1. simpl. unfold_step. by rewrite Hs. }
  assert (HM : Mutex s').
  { eapply (run_Mutex zero (os1 ++ OStep t :: os2)); [apply init_Inv|apply init_Mutex|done]. }
  assert (HO : PassOutcome s').
  { eapply (run_PassOutcome zero (os1 ++ OStep t :: os2));
      [apply init_Inv|apply init_PassOutcome|done]. }
  destruct (settle_starts_pass zero t s s1 q r e rest P HI HP Ht HQ Hs)
    as (Hc & Hx & Hth & Hl & HT).
  split; [done|]. split; [done|]. split; [done|]. split; [done|].
  assert (HI1 : Inv s1) by (eapply (exec_Inv zero (OStep t)); done).
  assert (HS : settledWith s' q r e).
  { eapply (run_keeps_outcome zero); [exact HI1|exact H2|].
    by destruct (settle_step zero _ _ _ _ _ _ _ Ht Hs). }
  pose proof (run_passTrack zero os2 s1 s' q _ HI1 HT H2) as HT'.
  rewrite passEvents_queue in HT'.
  split.
  { rewrite passEvents_queue.
    destruct HT' as [_ [(t' & pre & fr & post & todo & Ht' & _ & HX & _)|[HX _]]].
    - exists todo. split; [done|]. intros Hid. apply Hid in Ht'. by destruct pre.
    - exists []. by rewrite app_nil_r. }
  split; [intros t' st fr Ht' Hin; by eapply pass_frames_hold|].
  split; [intros t' s'' Hs'; by eapply (pass_step_calls zero)|].
  split.
  { intros t0 st fr0 Ht0 Hin [[hs ->]|[hs ->]];
      apply (holder_locks s' t0 st _ q HM Ht0 Hin); simpl; case_decide; first [lia|done]. }
  split.
  { intros s2 Q tl el HQ2 Hlk. simpl. unfold lockDone. rewrite HQ2. simpl.
    by rewrite Hlk. }
  split; [|split].
  - intros f. rewrite (Then_settled _ _ _ _ f HS). eauto.
  - intros f. destruct e as [e|].
    + rewrite (Catch_settled_failure _ _ _ _ f HS). eauto.
    + rewrite (Catch_settled_success _ _ _ f HS). eauto.
  - intros A h l x. split; [by left|done].
Qed.

(** C3.  A promise goes from pending to settled at most once, and for good:
    in every state [s] that a program can reach, once [Resolve] answers a
    resolution, it answers the same value and error in every later state
    [s'] (so the promise is never pending again), and no promise has been
    settled twice. *)
Theorem settle_once (m : M) os1 os2 (s s' : State) p r e :
  run os1 (init m) = Some s →
  Resolve p s = Some (Some (r, e)) →
  run os2 s = Some s' →
  Resolve p s' = Some (Some (r, e)) ∧
  Resolve p s' ≠ Some None ∧
  (∀ q, settleCount q s' ≤ 1).
Proof.
  intros H1 HR H2.
  assert (HI : Inv s) by (eapply run_Inv; [apply init_Inv|done]).
  assert (HI' : Inv s') by (by eapply run_Inv).
  apply Resolve_settledWith in HR.
  pose proof (run_keeps_outcome zero _ _ _ _ _ _ HI H2 HR) as HR'.
  apply Resolve_settledWith in HR'.
  split; [done|]. split; [congruence|]. apply (inv_once _ HI').
Qed.

(** C8.  A promise built with every field at its zero value,
    [&Promise[T]{}], is settled successfully with the zero value from the
    start and in every later state [s']: [Resolve] answers the zero value
    and a nil error, [Then] takes the branch for a promise that is done (it
    starts the goroutine that hands the zero value to the handler) and
    [Catch] takes the branch for a promise that is done without an error (it
    starts nothing and returns a promise that is done). *)
Theorem zero_value_promise_is_resolved (m : M) os1 os2 (s s' : State) :
  run os1 (init m) = Some s →
  run os2 (NewZero zero s).2 = Some s' →
  let p := (NewZero zero s).1 in
  Resolve p (NewZero zero s).2 = Some (Some (zero, None)) ∧
  Resolve p s' = Some (Some (zero, None)) ∧
  (∀ f, Then zero p f s' =
          Some (length (heap s'),
                spawn [FCall (length (heap s')) (PThenDone p zero None f)]
                  (alloc (pendingPromise zero) s'))) ∧
  (∀ f, Catch zero p f s' =
          Some (length (heap s'),
                alloc (mkPromise false false (Some []) (Some []) zero None) s')).
Proof.
  intros H1 H2 p.
  assert (HI : Inv s) by (eapply run_Inv; [apply init_Inv|done]).
  assert (HS : settledWith (NewZero zero s).2 p zero None) by apply alloc_settledWith.
  assert (HS' : settledWith s' p zero None).
  { eapply run_keeps_outcome; [|done|done].
    eapply Inv_api; [done|by apply NewZero_api]. }
  split; [by apply Resolve_settledWith|].
  split; [by apply Resolve_settledWith|].
  split; intros f; [by apply Then_settled|by eapply Catch_settled_success].
Qed.





Lemma spawn_alloc_lookups (s : State) st :
  threads (spawn st (alloc (pendingPromise zero) s)) !! length (threads s) = Some st ∧
  pending (spawn st (alloc (pendingPromise zero) s)) (length (heap s)).
Proof.
  split; [simpl; by rewrite list_lookup_middle|].
  eexists. split; [simpl; by rewrite list_lookup_middle|done].
Qed.

Lemma spawn_alloc_Inv (s : State) prod :
  Inv s →
  Inv (spawn [FCall (length (heap s)) prod] (alloc (pendingPromise zero) s)).
Proof.
  intros HI. eapply (Inv_api s _ (heap s) (pendingPromise zero) [_] 1); [done|].
  split; api_side.
Qed.

(** A goroutine that is started with [go q.call(prod)] on a new promise
    [q]. *)
Lemma spawn_track prod held (I : nat → UProg → Prop)
    (J : nat → V → option E → Prop) (fin : V → option E → Prop)
    (cl : bool → list (@Event V E M)) os (s s' : State) :
  (∀ i g k (m : M), I i (UStep g k) → is_Some (g m) → I (S i) (k m)) →
  (∀ i r e, I i (URet (r, e)) → J (S i) r e) →
  (∀ i r e, J i r e → fin r e) →
  (∀ (s0 s0' : State), Inv s0 →
     threads s0 !! length (threads s) = Some [FCall (length (heap s)) prod] →
     pending s0 (length (heap s)) → calls (length (heap s)) s0 = cl false →
     step (length (threads s)) s0 = Some s0' →
     ∃ u, threads s0' !! length (threads s) = Some [FRun (length (heap s)) held u] ∧
          I 1 u ∧ pending s0' (length (heap s)) ∧
          calls (length (heap s)) s0' = cl true) →
  cl false = [] → WF s →
  run os (spawn [FCall (length (heap s)) prod] (alloc (pendingPromise zero) s)) = Some s' →
  stageTrack (length (threads s)) (length (heap s))
    (callStage (length (heap s)) (FCall (length (heap s)) prod) held I J)
    fin cl (countSteps (length (threads s)) os) s'.
Proof.
  intros HIs HIr HJ Hfirst Hcl HW H.
  pose proof (spawn_alloc_Inv s prod (wf_inv _ HW)) as HI1.
  destruct (spawn_alloc_lookups s [FCall (length (heap s)) prod]) as [Ht Hq].
  set (t := length (threads s)) in *. set (q := length (heap s)) in *.
  change (countSteps t os) with (0 + countSteps t os).
  eapply (run_stageTrack t q _ fin cl); [| |exact HI1| |exact H].
  - apply callStage_target. unfold frameCount. simpl. by rewrite decide_True.
  - intros b i st s0 s0' HI0 Ht0 Hst0 Hq0 Hc0 Hs0.
    by eapply (callStage_step t q _ held I J fin cl).
  - left. exists false, [FCall q prod]. split; [done|]. split; [by left|].
    split; [done|]. rewrite Hcl. simpl. apply (wf_calls _ HW). done.
Qed.

(** The first step of the goroutine of [NewFn]: it enters the producer. *)
Lemma user_first_step t q u0 (I : nat → UProg → Prop) cs (s s' : State) :
  I 1 u0 → threads s !! t = Some [FCall q (PUser u0)] → pending s q →
  calls q s = cs → step t s = Some s' →
  ∃ u, threads s' !! t = Some [FRun q None u] ∧ I 1 u ∧ pending s' q ∧
       calls q s' = cs.
Proof.
  intros Hu Ht Hq Hc Hs.
  destruct (step_inv_top zero _ _ _ _ _ Ht Hs) as (frs & s1 & Hf & ->).
  simpl in Hf. simplify_eq. exists u0.
  split; [by eapply set_thread_lookup|done].
Qed.

(** The first step of the goroutine that [Then] starts for a promise that
    is done without an error: it takes [p.doneMu] and calls [f(res)]. *)
Lemma thenDone_first_step t p q v f (I : nat → UProg → Prop) (s s' : State) :
  I 1 (f v) → threads s !! t = Some [FCall q (PThenDone p v None f)] →
  pending s q → calls q s = [] → step t s = Some s' →
  ∃ u, threads s' !! t = Some [FRun q (Some p) u] ∧ I 1 u ∧ pending s' q ∧
       calls q s' = [EvCallThen q v].
Proof.
  intros Hu Ht Hq Hc Hs.
  destruct (step_inv_top zero _ _ _ _ _ Ht Hs) as (frs & s1 & Hf & ->).
  simpl in Hf. destruct (lockDone p s) as [s2|] eqn:HL; simpl in Hf; simplify_eq.
  apply lockDone_inv in HL as (P & HP & _ & ->).
  exists (f v). split; [by eapply set_thread_lookup|]. split; [done|].
  split; [by apply lock_keeps_pending|].
  change (calls q (set_thread ?a ?b ?c)) with (calls q c).
  rewrite calls_add_log_true by (simpl; by apply bool_decide_eq_true).
  change (calls q (set_heap ?a ?b)) with (calls q b). by rewrite Hc.
Qed.

(** The first step of the goroutine that [Catch] starts for a promise
    that is done with an error: it takes [p.doneMu] and calls [f(err)]. *)
Lemma catchDone_first_step t p q e0 f (I : nat → UProg → Prop) (s s' : State) :
  I 1 (f e0) → threads s !! t = Some [FCall q (PCatchDone p e0 f)] →
  pending s q → calls q s = [] → step t s = Some s' →
  ∃ u, threads s' !! t = Some [FRun q (Some p) u] ∧ I 1 u ∧ pending s' q ∧
       calls q s' = [EvCallCatch q e0].
Proof.
  intros Hu Ht Hq Hc Hs.
  destruct (step_inv_top zero _ _ _ _ _ Ht Hs) as (frs & s1 & Hf & ->).
  simpl in Hf. destruct (lockDone p s) as [s2|] eqn:HL; simpl in Hf; simplify_eq.
  apply lockDone_inv in HL as (P & HP & _ & ->).
  exists (f e0). split; [by eapply set_thread_lookup|]. split; [done|].
  split; [by apply lock_keeps_pending|].
  change (calls q (set_thread ?a ?b ?c)) with (calls q c).
  rewrite calls_add_log_true by (simpl; by apply bool_decide_eq_true).
  change (calls q (set_heap ?a ?b)) with (calls q b). by rewrite Hc.
Qed.

(** C9.  [NewFnWithArg(arg, f)] is [NewFn] of the producer
    [func() (X, error) { return f(arg) }], for every [arg] and [f]: the two
    calls give the same promise and the same machine, so that every
    schedule [os2] leads both to the same state, and to the same answer
    of [Resolve].  In that state the promise is pending or settled with an
    outcome that [f(arg)] returns.  If [f(arg)] returns [(r, e)] after at
    most [n] steps that cannot be blocked, the promise is pending or
    settled with [(r, e)], its goroutine [t] can take a step whenever the
    promise is still pending, and once [t] has been scheduled [n + 3]
    times the promise is settled with [(r, e)]. *)
Theorem NewFnWithArg_as_NewFn (m : M) os1 os2 (s s' : State) arg f :
  run os1 (init m) = Some s →
  run os2 (NewFnWithArg zero arg f s).2 = Some s' →
  let p := (NewFnWithArg zero arg f s).1 in
  let t := length (threads s) in
  NewFnWithArg zero arg f s = NewFn zero (f arg) s ∧
  run os2 (NewFn zero (f arg) s).2 = Some s' ∧
  (Resolve p s' = Some None ∨
   ∃ r e, Resolve p s' = Some (Some (r, e)) ∧ canReturn r e (f arg)) ∧
  (∀ n r e, returnsIn r e n (f arg) →
     (Resolve p s' = Some None ∨ Resolve p s' = Some (Some (r, e))) ∧
     (Resolve p s' = Some None → ∃ s'', step t s' = Some s'') ∧
     (n + 3 ≤ countSteps t os2 → Resolve p s' = Some (Some (r, e)))).
Proof.
  intros H1 H2 p t. subst p t. simpl fst.
  assert (HW : WF s) by (eapply run_WF; [apply init_WF|done]).
  split; [done|]. split; [done|]. split.
  - destruct (spawn_track (PUser (f arg)) None (outcomeOf (f arg)) (outcomeIs (f arg))
                (λ r e, canReturn r e (f arg)) (λ _, []) os2 s s')
      as [(b & st & _ & _ & Hq & _)|(r & e & HS & Hf & _)]; try done.
    + intros i g k m0. apply outcomeOf_step.
    + intros i r e. apply outcomeOf_ret.
    + intros s0 s0' _. apply user_first_step. intros r e Hc. exact Hc.
    + left. by apply pending_Resolve.
    + right. exists r, e. split; [by apply Resolve_settledWith|done].
  - intros n r e Hret.
    destruct (spawn_track (PUser (f arg)) None (within r e (n + 3))
                (settleBy r e (n + 3)) (λ r' e', r' = r ∧ e' = e) (λ _, []) os2 s s')
      as [(b & st & Ht & Hst & Hq & _)|(r' & e' & HS & [-> ->] & _)]; try done.
    + intros i g k m0. apply within_step.
    + intros i r' e'. apply within_ret.
    + by intros i r' e' (-> & -> & _).
    + intros s0 s0' _. apply user_first_step. exists n. split; [done|lia].
    + assert (Hpos : 0 < n + 3) by lia.
      pose proof (callStage_bound _ _ _ _ _ _ _ _ _ Hpos Hst) as Hlt.
      split; [left; by apply pending_Resolve|]. split; [|intros; lia].
      intros _. by eapply callStage_enabled.
    + apply Resolve_settledWith in HS. split; [by right|]. split; [|done].
      intros HR. congruence.
Qed.

(** C10.  [NewRejected[T](nil)] gives a promise that every operation sees
    as settled successfully with the zero value, in every later state [s']:
    [Resolve] answers the zero value and a nil error; [Then] starts the
    goroutine that calls the handler with the zero value (its first step,
    enabled when [doneMu] is free, is the call [f(zero)]; and when [f(zero)]
    returns [(r, e)], the derived promise is settled with [(r, e)] once the
    goroutine has been scheduled three times, [f] having been called once,
    with the zero value); [Catch] starts no goroutine, returns a promise
    that is settled with the zero value and a nil error, and its handler is
    never called. *)
Theorem rejected_with_nil_is_success (m : M) os1 os2 (s s' : State) :
  run os1 (init m) = Some s →
  run os2 (NewRejected zero None s).2 = Some s' →
  let p := (NewRejected zero None s).1 in
  Resolve p s' = Some (Some (zero, None)) ∧
  (∀ f q s2, Then zero p f s' = Some (q, s2) →
     let t := length (threads s') in
     threads s2 !! t = Some [FCall q (PThenDone p zero None f)] ∧
     calls q s2 = [] ∧
     (∀ P, heap s2 !! p = Some P → doneMu P = false →
        ∃ s3, step t s2 = Some s3 ∧
              threads s3 !! t = Some [FRun q (Some p) (f zero)] ∧
              calls q s3 = [EvCallThen q zero]) ∧
     (∀ r e os3 s3, f zero = URet (r, e) → run os3 s2 = Some s3 →
        3 ≤ countSteps t os3 →
        Resolve q s3 = Some (Some (r, e)) ∧ calls q s3 = [EvCallThen q zero])) ∧
  (∀ f q s2, Catch zero p f s' = Some (q, s2) →
     threads s2 = threads s' ∧ log s2 = log s' ∧
     ∀ os3 s3, run os3 s2 = Some s3 →
       calls q s3 = [] ∧ Resolve q s3 = Some (Some (zero, None))).
Proof.
  intros H1 H2 p. subst p. simpl fst.
  assert (HW : WF s) by (eapply run_WF; [apply init_WF|done]).
  assert (HW1 : WF (NewRejected zero None s).2).
  { eapply (exec_WF zero (ONewRejected None)); done. }
  assert (HW' : WF s') by (by eapply run_WF).
  assert (HS : settledWith (NewRejected zero None s).2 (length (heap s)) zero None)
    by apply alloc_settledWith.
  assert (HS' : settledWith s' (length (heap s)) zero None).
  { eapply run_keeps_outcome; [apply HW1|done|done]. }
  split; [by apply Resolve_settledWith|]. split.
  - intros f q s2 HT. rewrite (Then_settled _ _ _ _ f HS') in HT. simplify_eq.
    destruct (spawn_alloc_lookups s'
      [FCall (length (heap s')) (PThenDone (length (heap s)) zero None f)]) as [Ht Hq].
    assert (Hc0 : calls (length (heap s'))
       (spawn [FCall (length (heap s')) (PThenDone (length (heap s)) zero None f)]
          (alloc (pendingPromise zero) s')) = []).
    { apply (wf_calls _ HW'). done. }
    split; [done|]. split; [done|]. split.
    + intros P HP HM. eexists. split.
      * eapply step_top; [done|]. simpl. unfold lockDone. rewrite HP. simpl.
        rewrite HM. done.
      * split; [by eapply set_thread_lookup|].
        change (calls ?q (set_thread ?a ?b ?c)) with (calls q c).
        rewrite calls_add_log_true by (simpl; by apply bool_decide_eq_true).
        by rewrite <- Hc0.
    + intros r e os3 s3 Hf H3 Hn.
      pose proof (run_stage (length (threads s')) (length (heap s')) r e
        (thenOkStage (length (heap s)) (length (heap s')) zero f r e)
        (λ i, if decide (i = 0) then [] else [EvCallThen (length (heap s')) zero]) 3
        (λ i _, thenOkStage_target _ _ _ _ _ _ i)
        (λ i s s' Hi HI Ht Hq Hc Hs,
           thenOk_stage_step _ _ _ _ _ _ _ i s s' Hf Hi HI Ht Hq Hc Hs)
        os3 _ s3 0 (spawn_alloc_Inv _ _ (wf_inv _ HW'))
        ltac:(split; [done|rewrite decide_True by lia; done]) H3) as [Hc Hst].
      rewrite decide_False in Hst by lia. rewrite Nat.min_r in Hc by lia.
      split; [by apply Resolve_settledWith|done].
  - intros f q s2 HC. rewrite (Catch_settled_success _ _ _ f HS') in HC. simplify_eq.
    split; [done|]. split; [done|]. intros os3 s3 H3.
    set (s2 := alloc _ s') in *.
    destruct (settled_forever os3 s2 s3 (length (heap s')) zero None) as [HS3 Hc3];
      [| |done|].
    + eapply (Inv_api s'); [apply HW'|].
      eapply (mkApiStep _ _ (heap s') _ [] 0); api_side. apply cells_same, HW'.
    + apply alloc_settledWith.
    + split; [|by apply Resolve_settledWith].
      rewrite Hc3. apply (wf_calls _ HW'). done.
Qed.


End Core.

(** * Further properties of the promise state machine *)

Section CoreMore.

Context {V E M : Type}.
Variable zero : V.

Local Abbreviation State := (@State V E M).
Local Abbreviation Promise := (@Promise V E M).
Local Abbreviation Frame := (@Frame V E M).
Local Abbreviation UProg := (@UProg V E M).
Local Abbreviation step := (@step V E M zero).
Local Abbreviation exec := (@exec V E M zero).
Local Abbreviation run := (@run V E M zero).

(** ** The settlement-execution lock *)

Lemma sumOf_two_lookups {A} (g : A → nat) (l : list A) i j a b :
  l !! i = Some a → l !! j = Some b → i ≠ j → g a + g b ≤ sumOf g l.
Proof.
  intros Hi Hj Hne.
  pose proof (sumOf_insert g _ _ _ b Hi) as H1.
  assert (Hj2 : <[i := b]> l !! j = Some b) by (by rewrite list_lookup_insert_ne).
  revert i j Hi Hj Hne H1 Hj2.
  induction l as [|y l IH]; intros [|i] [|j] Hi Hj Hne H1 Hj2; simplify_eq/=.
  - pose proof (sumOf_lookup_le g _ _ _ Hj). lia.
  - pose proof (sumOf_lookup_le g _ _ _ Hi). lia.
  - pose proof (sumOf_insert g _ _ _ b Hi) as H2.
    assert (Hj3 : <[i := b]> l !! j = Some b)
      by (rewrite list_lookup_insert_ne by congruence; done).
    specialize (IH i j Hi Hj ltac:(congruence) H2 Hj3). lia.
Qed.

Lemma sumOf_split {A} (g : A → nat) (pre : list A) a mid b post :
  sumOf g (pre ++ a :: mid ++ b :: post) = g a + g b + sumOf g (pre ++ mid ++ post).
Proof. rewrite !sumOf_app. simpl. rewrite !sumOf_app. simpl. lia. Qed.

(** X1.  Mutual exclusion on [doneMu].  In every state that a program can
    reach, [x.doneMu] is held by at most one activation: by the pass of
    [x.call] over the detached handlers, or by a goroutine that [Then] or
    [Catch] started for [x] when it was done.  It is locked exactly when
    one of them holds it; two goroutines never hold it at the same time,
    and neither do two activations on the stack of one goroutine. *)
Theorem doneMu_mutual_exclusion (m : M) os (s : State) x :
  run os (init m) = Some s →
  holdTotal x s ≤ 1 ∧
  (holdTotal x s = 1 ↔ ∃ P, heap s !! x = Some P ∧ doneMu P = true) ∧
  (∀ t t' st st' fr fr', t ≠ t' →
     threads s !! t = Some st → threads s !! t' = Some st' →
     fr ∈ st → fr' ∈ st' → holdCount x fr = 1 → holdCount x fr' = 0) ∧
  (∀ t pre fr mid fr' post,
     threads s !! t = Some (pre ++ fr :: mid ++ fr' :: post) →
     holdCount x fr = 1 → holdCount x fr' = 0).
Proof.
  intros H.
  assert (HM : Mutex s) by (eapply (run_Mutex zero); [apply init_Inv|apply init_Mutex|done]).
  pose proof (lockBit_le_1 s x) as Hb. pose proof (HM x) as Hx.
  split; [lia|]. split; [|split].
  - rewrite Hx. unfold lockBit. split.
    + destruct (heap s !! x) as [P|]; [|lia]. destruct (doneMu P) eqn:HP; [eauto|lia].
    + intros (P & -> & ->). done.
  - intros t t' st st' fr fr' Hne Ht Ht' Hin Hin' Hh.
    pose proof (sumOf_two_lookups (λ st, sumOf (holdCount x) st) _ _ _ _ _ Ht Ht' Hne) as Hle.
    pose proof (sumOf_elem_le (holdCount x) st fr Hin).
    pose proof (sumOf_elem_le (holdCount x) st' fr' Hin').
    unfold holdTotal in *. simpl in Hle. lia.
  - intros t pre fr mid fr' post Ht Hh.
    pose proof (sumOf_lookup_le (λ st, sumOf (holdCount x) st) _ _ _ Ht) as Hle.
    simpl in Hle. rewrite sumOf_split in Hle. unfold holdTotal in *. lia.
Qed.

(** ** Handlers and settlement *)

(** X2.  No handler that is queued on a promise is called before the
    promise is settled: as long as [Resolve] answers nil, the record of the
    handler calls of the promise is empty and no pass over its handlers
    exists. *)
Theorem no_handler_before_settlement (m : M) os (s : State) q :
  run os (init m) = Some s →
  Resolve q s = Some None →
  handlerLog q s = [] ∧ passTotal q s = 0.
Proof.
  intros H HR.
  assert (HP : PassInv s).
  { eapply (run_PassInv zero); [apply init_Inv|apply init_PassInv|done]. }
  apply HP. intros Hs. apply pending_Resolve in HR. by eapply hasFlag_excl.
Qed.

(** ** Nil queues *)

Lemma step_frame_queuesOk fr (s : State) t rest frs s' :
  Inv s → threads s !! t = Some (fr :: rest) → queuesOk fr →
  step_frame zero fr s = Some (frs, s') → Forall queuesOk frs.
Proof.
  intros HI Ht Hok H.
  destruct fr as [q [u|f r|e|f e|p r e f|p e f]|q held [[r e]|g k]|q r e|q r e tl el
                 |q e [|h hs]|q r [|h hs]|]; simpl in H.
  - simplify_eq. by repeat constructor.
  - simplify_eq. by repeat constructor.
  - simplify_eq. by repeat constructor.
  - simplify_eq. by repeat constructor.
  - destruct (lockDone p s); simpl in H; [|done].
    destruct e; simplify_eq; by repeat constructor.
  - destruct (lockDone p s); simpl in H; [|done]. simplify_eq. by repeat constructor.
  - destruct held; [destruct (unlockDone _ s); simpl in H; [|done]|];
      simplify_eq; by repeat constructor.
  - destruct (g (mem s)); simpl in H; [|done]. simplify_eq. by repeat constructor.
  - destruct (settle q r e s) as [[[tl el] s2]|] eqn:HS; simpl in H; [|done].
    simplify_eq. apply settle_inv in HS as (P & HP & -> & -> & _).
    pose proof (frameCount_le_targetCount _ _ _ _ q Ht) as Hle.
    unfold frameCount in Hle. simpl in Hle. rewrite decide_True in Hle by done.
    assert (Hp : pending s q) by (apply (inv_pending _ HI); lia).
    destruct Hp as (Q & HQ & Hn). simplify_eq.
    repeat constructor; simpl; by eapply (inv_queues _ HI).
  - destruct Hok as [[tl0 ->] [el0 ->]].
    destruct (lockDone q s); simpl in H; [|done].
    destruct e; simplify_eq; by repeat constructor.
  - destruct (unlockDone q s); simpl in H; [|done]. simplify_eq. constructor.
  - simplify_eq. destruct h; by repeat constructor.
  - destruct (unlockDone q s); simpl in H; [|done]. simplify_eq. constructor.
  - simplify_eq. destruct h; by repeat constructor.
  - done.
Qed.

Lemma step_NoNil t (s s' : State) : Inv s → NoNil s → step t s = Some s' → NoNil s'.
Proof.
  intros HI HN Hs.
  assert (∃ fr rest, threads s !! t = Some (fr :: rest)) as (fr & rest & Ht).
  { apply step_decompose in Hs as (fr & rest & ? & ? & Ht & _). eauto. }
  destruct (step_inv_top zero _ _ _ _ _ Ht Hs) as (frs & s1 & Hf & ->).
  pose proof (FrameStep_threads _ _ _ _ (step_frame_shape zero _ _ _ _ Hf)) as Hth.
  assert (Hok : queuesOk fr) by (eapply HN; [done|left]).
  pose proof (step_frame_queuesOk _ _ _ _ _ _ HI Ht Hok Hf) as Hfrs.
  intros t0 st0 fr0 Ht0 Hin. simpl in Ht0. rewrite Hth in Ht0.
  destruct (decide (t0 = t)) as [->|Hne].
  - rewrite list_lookup_insert_eq in Ht0 by (by eapply lookup_lt_Some). simplify_eq.
    apply elem_of_app in Hin as [Hin|Hin].
    + by eapply Forall_forall in Hfrs.
    + eapply HN; [done|by right].
  - rewrite list_lookup_insert_ne in Ht0 by done. by eapply HN.
Qed.

Lemma exec_NoNil o (s s' : State) : Inv s → NoNil s → exec o s = Some s' → NoNil s'.
Proof.
  intros HI HN H.
  destruct (exec_cases _ _ _ _ HI H) as [(t & _ & Hs)|[(_ & hp & N & sts & k & HA)|(_ & g & ->)]].
  - by eapply step_NoNil.
  - intros t st fr Ht Hin. rewrite (api_threads _ _ _ _ _ _ HA) in Ht.
    apply lookup_app_Some in Ht as [Ht|[_ Ht]]; [by eapply HN|].
    apply list_elem_of_lookup_2 in Ht.
    destruct (api_new_frames _ _ _ _ _ _ HA _ Ht) as (q & prod & ->).
    apply list_elem_of_singleton in Hin as ->. done.
  - done.
Qed.

Lemma run_NoNil os (s s' : State) : Inv s → NoNil s → run os s = Some s' → NoNil s'.
Proof.
  revert s. induction os as [|o os IH]; intros s HI HN H; simplify_eq/=; [done|].
  destruct (exec o s) as [s1|] eqn:He; simplify_eq/=.
  eapply IH; [| |done]; [by eapply exec_Inv|by eapply exec_NoNil].
Qed.

(** X3.  [call] never dereferences a nil queue.  [call] stores nil in
    [p.thenList] and [p.errorList] and walks the lists it has detached;
    the constructors [NewResolved] and [NewRejected] and the zero value
    leave both fields nil.  In every state that a program can reach, the
    queues that an activation of [call] has detached are not nil, no
    goroutine has panicked, and both queues of a pending promise are
    lists. *)
Theorem call_never_panics (m : M) os (s : State) :
  run os (init m) = Some s →
  ¬ panicked s ∧
  (∀ t st q r e tl el, threads s !! t = Some st → FLockDone q r e tl el ∈ st →
     is_Some tl ∧ is_Some el) ∧
  (∀ p P, heap s !! p = Some P → notDone P = true →
     is_Some (thenList P) ∧ is_Some (errorList P)).
Proof.
  intros H.
  assert (HI : Inv s) by (eapply run_Inv; [apply init_Inv|done]).
  assert (HN : NoNil s).
  { eapply run_NoNil; [apply init_Inv| |done]. by intros [|?] ? ? ?. }
  split; [|split].
  - intros (t & st & Ht & Hin). apply (HN _ _ _ Ht Hin).
  - intros t st q r e tl el Ht Hin. apply (HN _ _ _ Ht Hin).
  - apply (inv_queues _ HI).
Qed.

(** X4.  [Then] and [Catch] never call [PushBack] on a nil list: in every
    state that a program can reach, a call of [Then] or [Catch] on a
    promise that exists returns a new promise, the next one of the heap,
    and leaves the outcome of every promise that is done as it is. *)
Theorem Then_Catch_never_panic (m : M) os (s : State) p P :
  run os (init m) = Some s →
  heap s !! p = Some P →
  (∀ f, ∃ s', Then zero p f s = Some (length (heap s), s') ∧
     ∀ x r e, Resolve x s = Some (Some (r, e)) → Resolve x s' = Some (Some (r, e))) ∧
  (∀ f, ∃ s', Catch zero p f s = Some (length (heap s), s') ∧
     ∀ x r e, Resolve x s = Some (Some (r, e)) → Resolve x s' = Some (Some (r, e))).
Proof.
  intros H HP.
  assert (HI : Inv s) by (eapply run_Inv; [apply init_Inv|done]).
  split; intros f.
  - assert (∃ s', Then zero p f s = Some (length (heap s), s')) as [s' HT].
    { unfold Then. rewrite HP. simpl. destruct (notDone P) eqn:Hn; [|eauto].
      destruct (inv_queues _ HI _ _ HP Hn) as [[tl ->] [el ->]]. simpl. eauto. }
    exists s'. split; [done|]. intros x r e HR.
    apply Resolve_settledWith. apply Resolve_settledWith in HR.
    eapply (exec_keeps_outcome zero (OThen p f)); [done| |done]. simpl. by rewrite HT.
  - assert (∃ s', Catch zero p f s = Some (length (heap s), s')) as [s' HT].
    { unfold Catch. rewrite HP. simpl. destruct (notDone P) eqn:Hn.
      - destruct (inv_queues _ HI _ _ HP Hn) as [_ [el ->]]. simpl. eauto.
      - destruct (err P); eauto. }
    exists s'. split; [done|]. intros x r e HR.
    apply Resolve_settledWith. apply Resolve_settledWith in HR.
    eapply (exec_keeps_outcome zero (OCatch p f)); [done| |done]. simpl. by rewrite HT.
Qed.

(** ** One activation of [call] for each promise *)

Lemma callOn_frameCount x (fr : Frame) : callOn x fr → frameCount x fr = 1.
Proof.
  destruct fr; simpl; try done; intros ->; unfold frameCount; simpl;
    by rewrite decide_True.
Qed.

(** X5.  [call] runs at most once for each promise.  In every state that
    a program can reach, at most one activation of [call] or queued
    handler is going to settle the promise [x]; while an activation of
    [x.call] has not yet run its critical section (its producer or handler
    is about to run, is running, or has just returned), [Resolve] on [x]
    answers nil; and nothing is going to settle a promise that is done. *)
Theorem one_call_per_promise (m : M) os (s : State) x :
  run os (init m) = Some s →
  targetCount x s ≤ 1 ∧
  (∀ t st fr, threads s !! t = Some st → fr ∈ st → callOn x fr →
     Resolve x s = Some None) ∧
  (∀ t t' st st' fr fr', t ≠ t' →
     threads s !! t = Some st → threads s !! t' = Some st' →
     fr ∈ st → fr' ∈ st' → callOn x fr → ¬ callOn x fr') ∧
  (∀ r e, Resolve x s = Some (Some (r, e)) → targetCount x s = 0).
Proof.
  intros H.
  assert (HI : Inv s) by (eapply run_Inv; [apply init_Inv|done]).
  pose proof (inv_unique _ HI x) as Hu.
  split; [done|]. split; [|split].
  - intros t st fr Ht Hin Hc. apply pending_Resolve, (inv_pending _ HI).
    apply callOn_frameCount in Hc.
    pose proof (sumOf_lookup_le (stackCount x) _ _ _ Ht) as Hle.
    pose proof (sumOf_elem_le (frameCount x) st fr Hin) as Hle2.
    unfold targetCount, stackCount in *. lia.
  - intros t t' st st' fr fr' Hne Ht Ht' Hin Hin' Hc Hc'.
    apply callOn_frameCount in Hc, Hc'.
    pose proof (two_threads_count _ _ _ _ _ x Ht Ht' Hne) as Hle.
    pose proof (sumOf_elem_le (frameCount x) st fr Hin).
    pose proof (sumOf_elem_le (frameCount x) st' fr' Hin').
    unfold targetCount, stackCount in *. lia.
  - intros r e HR. apply settled_targetCount; [done|].
    eapply settledWith_settled. by apply Resolve_settledWith.
Qed.

(** ** The constructors of promises that are done *)

(** X6.  [NewResolved(v)] starts no goroutine and returns a promise on
    which [Resolve] answers [(v, nil)] at once and in every later state;
    no activation of [call] and no queued handler is ever going to settle
    it again. *)
Theorem NewResolved_is_resolved (m : M) os1 os2 (s s' : State) v :
  run os1 (init m) = Some s →
  run os2 (NewResolved v s).2 = Some s' →
  let p := (NewResolved v s).1 in
  threads (NewResolved v s).2 = threads s ∧
  Resolve p (NewResolved v s).2 = Some (Some (v, None)) ∧
  Resolve p s' = Some (Some (v, None)) ∧
  targetCount p s' = 0.
Proof.
  intros H1 H2 p.
  assert (HI : Inv s) by (eapply run_Inv; [apply init_Inv|done]).
  assert (HI1 : Inv (NewResolved v s).2) by (eapply Inv_api; [done|by apply NewResolved_api]).
  assert (HS : settledWith (NewResolved v s).2 p v None) by apply alloc_settledWith.
  assert (HS' : settledWith s' p v None) by (by eapply (run_keeps_outcome zero)).
  split; [done|]. split; [by apply Resolve_settledWith|].
  split; [by apply Resolve_settledWith|].
  apply settled_targetCount; [by eapply run_Inv|by eapply settledWith_settled].
Qed.

(** X7.  [NewRejected(e)] starts no goroutine and returns a promise on
    which [Resolve] answers the zero value and [e] at once and in every
    later state, whatever [e] is; no activation of [call] and no queued
    handler is ever going to settle it again. *)
Theorem NewRejected_is_rejected (m : M) os1 os2 (s s' : State) e :
  run os1 (init m) = Some s →
  run os2 (NewRejected zero e s).2 = Some s' →
  let p := (NewRejected zero e s).1 in
  threads (NewRejected zero e s).2 = threads s ∧
  Resolve p (NewRejected zero e s).2 = Some (Some (zero, e)) ∧
  Resolve p s' = Some (Some (zero, e)) ∧
  targetCount p s' = 0.
Proof.
  intros H1 H2 p.
  assert (HI : Inv s) by (eapply run_Inv; [apply init_Inv|done]).
  assert (HI1 : Inv (NewRejected zero e s).2)
    by (eapply Inv_api; [done|by apply NewRejected_api]).
  assert (HS : settledWith (NewRejected zero e s).2 p zero e) by apply alloc_settledWith.
  assert (HS' : settledWith s' p zero e) by (by eapply (run_keeps_outcome zero)).
  split; [done|]. split; [by apply Resolve_settledWith|].
  split; [by apply Resolve_settledWith|].
  apply settled_targetCount; [by eapply run_Inv|by eapply settledWith_settled].
Qed.

(** ** [Then] and [Catch] on a promise that is done *)

(** X8.  [Then(p, f)] on a promise that is done without an error, with the
    value [v], for every handler [f]: it starts one goroutine [t] and
    returns a pending promise [q]; [p] keeps its outcome.  In every later
    state [f] has been called at most once, and then with [v], and [q] is
    pending, or it is settled, after the call of [f], with an outcome that
    [f(v)] returns.  If [f(v)] returns [(r, e)] after at most [n] steps
    that cannot be blocked, [q] is pending or settled with [(r, e)], and
    once [t] has been scheduled [n + 3] times [q] is settled with
    [(r, e)] and [f] has been called exactly once. *)
Theorem Then_on_settled_success (m : M) os1 os2 (s s1 s' : State) p v f q :
  run os1 (init m) = Some s →
  Resolve p s = Some (Some (v, None)) →
  Then zero p f s = Some (q, s1) →
  run os2 s1 = Some s' →
  let t := length (threads s) in
  q = length (heap s) ∧
  threads s1 = threads s ++ [[FCall q (PThenDone p v None f)]] ∧
  Resolve q s1 = Some None ∧
  Resolve p s' = Some (Some (v, None)) ∧
  ((Resolve q s' = Some None ∧ (calls q s' = [] ∨ calls q s' = [EvCallThen q v])) ∨
   (∃ r e, Resolve q s' = Some (Some (r, e)) ∧ canReturn r e (f v) ∧
           calls q s' = [EvCallThen q v])) ∧
  (∀ n r e, returnsIn r e n (f v) →
     (Resolve q s' = Some None ∨ Resolve q s' = Some (Some (r, e))) ∧
     (n + 3 ≤ countSteps t os2 →
        Resolve q s' = Some (Some (r, e)) ∧ calls q s' = [EvCallThen q v])).
Proof.
  intros H1 HR HT H2 t. subst t.
  assert (HW : WF s) by (eapply run_WF; [apply init_WF|done]).
  apply Resolve_settledWith in HR.
  rewrite (Then_settled _ _ _ _ _ f HR) in HT. simplify_eq.
  destruct (spawn_alloc_lookups zero s
    [FCall (length (heap s)) (PThenDone p v None f)]) as [Ht Hq].
  pose proof (spawn_alloc_Inv zero s (PThenDone p v None f) (wf_inv _ HW)) as HI1.
  split; [done|]. split; [done|]. split; [by apply pending_Resolve|].
  split.
  { apply Resolve_settledWith. eapply (run_keeps_outcome zero); [apply HI1|done|].
    destruct HR as (P & HP & HPn). exists P. split; [|done].
    simpl. by rewrite lookup_app_l by (by eapply lookup_lt_Some). }
  split.
  - destruct (spawn_track zero (PThenDone p v None f) (Some p)
                (outcomeOf (f v)) (outcomeIs (f v)) (λ r e, canReturn r e (f v))
                (λ b : bool, if b then [EvCallThen (length (heap s)) v] else []) os2 s s')
      as [(b & st & _ & _ & Hq' & Hc)|(r & e & HS & Hf & Hc)]; try done.
    + intros i g k m0. apply outcomeOf_step.
    + intros i r e. apply outcomeOf_ret.
    + intros s0 s0' _. apply thenDone_first_step. intros r e Hc. exact Hc.
    + left. split; [by apply pending_Resolve|]. destruct b; [by right|by left].
    + right. exists r, e. split; [by apply Resolve_settledWith|done].
  - intros n r e Hret.
    destruct (spawn_track zero (PThenDone p v None f) (Some p)
                (within r e (n + 3)) (settleBy r e (n + 3)) (λ r' e', r' = r ∧ e' = e)
                (λ b : bool, if b then [EvCallThen (length (heap s)) v] else []) os2 s s')
      as [(b & st & _ & Hst & Hq' & _)|(r' & e' & HS & [-> ->] & Hc)]; try done.
    + intros i g k m0. apply within_step.
    + intros i r' e'. apply within_ret.
    + by intros i r' e' (-> & -> & _).
    + intros s0 s0' _. apply thenDone_first_step. exists n. split; [done|lia].
    + assert (Hpos : 0 < n + 3) by lia.
      pose proof (callStage_bound _ _ _ _ _ _ _ _ _ Hpos Hst) as Hlt.
      split; [left; by apply pending_Resolve|]. intros. lia.
    + apply Resolve_settledWith in HS. split; [by right|]. done.
Qed.

(** X9.  [Catch(p, f)] on a promise that is done with the error [e0], for
    every handler [f]: it starts one goroutine [t] and returns a pending
    promise [q]; [p] keeps its outcome.  In every later state [f] has been
    called at most once, and then with [e0], and [q] is pending, or it is
    settled, after the call of [f], with an outcome that [f(e0)] returns.
    If [f(e0)] returns [(r, e)] after at most [n] steps that cannot be
    blocked, [q] is pending or settled with [(r, e)], and once [t] has
    been scheduled [n + 3] times [q] is settled with [(r, e)] and [f] has
    been called exactly once. *)
Theorem Catch_on_settled_failure (m : M) os1 os2 (s s1 s' : State) p v e0 f q :
  run os1 (init m) = Some s →
  Resolve p s = Some (Some (v, Some e0)) →
  Catch zero p f s = Some (q, s1) →
  run os2 s1 = Some s' →
  let t := length (threads s) in
  q = length (heap s) ∧
  threads s1 = threads s ++ [[FCall q (PCatchDone p (Some e0) f)]] ∧
  Resolve q s1 = Some None ∧
  Resolve p s' = Some (Some (v, Some e0)) ∧
  ((Resolve q s' = Some None ∧
    (calls q s' = [] ∨ calls q s' = [EvCallCatch q (Some e0)])) ∨
   (∃ r e, Resolve q s' = Some (Some (r, e)) ∧ canReturn r e (f (Some e0)) ∧
           calls q s' = [EvCallCatch q (Some e0)])) ∧
  (∀ n r e, returnsIn r e n (f (Some e0)) →
     (Resolve q s' = Some None ∨ Resolve q s' = Some (Some (r, e))) ∧
     (n + 3 ≤ countSteps t os2 →
        Resolve q s' = Some (Some (r, e)) ∧ calls q s' = [EvCallCatch q (Some e0)])).
Proof.
  intros H1 HR HT H2 t. subst t.
  assert (HW : WF s) by (eapply run_WF; [apply init_WF|done]).
  apply Resolve_settledWith in HR.
  rewrite (Catch_settled_failure _ _ _ _ _ f HR) in HT. simplify_eq.
  destruct (spawn_alloc_lookups zero s
    [FCall (length (heap s)) (PCatchDone p (Some e0) f)]) as [Ht Hq].
  pose proof (spawn_alloc_Inv zero s (PCatchDone p (Some e0) f) (wf_inv _ HW)) as HI1.
  split; [done|]. split; [done|]. split; [by apply pending_Resolve|].
  split.
  { apply Resolve_settledWith. eapply (run_keeps_outcome zero); [apply HI1|done|].
    destruct HR as (P & HP & HPn). exists P. split; [|done].
    simpl. by rewrite lookup_app_l by (by eapply lookup_lt_Some). }
  split.
  - destruct (spawn_track zero (PCatchDone p (Some e0) f) (Some p)
                (outcomeOf (f (Some e0))) (outcomeIs (f (Some e0)))
                (λ r e, canReturn r e (f (Some e0)))
                (λ b : bool, if b then [EvCallCatch (length (heap s)) (Some e0)] else [])
                os2 s s')
      as [(b & st & _ & _ & Hq' & Hc)|(r & e & HS & Hf & Hc)]; try done.
    + intros i g k m0. apply outcomeOf_step.
    + intros i r e. apply outcomeOf_ret.
    + intros s0 s0' _. apply catchDone_first_step. intros r e Hc. exact Hc.
    + left. split; [by apply pending_Resolve|]. destruct b; [by right|by left].
    + right. exists r, e. split; [by apply Resolve_settledWith|done].
  - intros n r e Hret.
    destruct (spawn_track zero (PCatchDone p (Some e0) f) (Some p)
                (within r e (n + 3)) (settleBy r e (n + 3)) (λ r' e', r' = r ∧ e' = e)
                (λ b : bool, if b then [EvCallCatch (length (heap s)) (Some e0)] else [])
                os2 s s')
      as [(b & st & _ & Hst & Hq' & _)|(r' & e' & HS & [-> ->] & Hc)]; try done.
    + intros i g k m0. apply within_step.
    + intros i r' e'. apply within_ret.
    + by intros i r' e' (-> & -> & _).
    + intros s0 s0' _. apply catchDone_first_step. exists n. split; [done|lia].
    + assert (Hpos : 0 < n + 3) by lia.
      pose proof (callStage_bound _ _ _ _ _ _ _ _ _ Hpos Hst) as Hlt.
      split; [left; by apply pending_Resolve|]. intros. lia.
    + apply Resolve_settledWith in HS. split; [by right|]. done.
Qed.

(** ** [Then] and [Catch] on a pending promise: from the queue to the
    settlement of the derived promise *)

Section Link.

Variables (p q : pid) (ev : @Event V E M) (r : V) (e : option E).
Variable waiting : Promise → Prop.
Variable ok : V → option E → Prop.
Variable hold : bool → Frame → Prop.

Hypothesis ev_call : isCall q ev = true.
Hypothesis hold_count : ∀ b fr, hold b fr → frameCount q fr = 1.
Hypothesis hold_step : ∀ t (s s' : State) b fr post,
  Inv s → threads s !! t = Some (fr :: post) → hold b fr → pending s q →
  calls q s = (if b then [ev] else []) → step t s = Some s' →
  (∃ (b' : bool) pre fr' post', pending s' q ∧
     calls q s' = (if b' then [ev] else []) ∧
     threads s' !! t = Some (pre ++ fr' :: post') ∧ hold b' fr') ∨
  (settledWith s' q r e ∧ calls q s' = [ev]).
Hypothesis wait_count : ∀ (s : State) P,
  Inv s → heap s !! p = Some P → waiting P → 1 ≤ errCount q P.
Hypothesis wait_same : ∀ P P', waiting P → sameButLock P P' → waiting P'.
Hypothesis wait_grow : ∀ n P P', waiting P → CellGrows n P P' → q ≠ n → waiting P'.
Hypothesis wait_settle : ∀ P r0 e1,
  waiting P → is_Some (thenList P) → is_Some (errorList P) → ok r0 e1 →
  hold false (FLockDone p r0 e1 (thenList P) (errorList P)).

Local Abbreviation inFlight := (inFlight q hold ev r e).
Local Abbreviation linkTrack := (linkTrack p q waiting ok hold ev r e).

Lemma exec_inFlight o (s s' : State) :
  Inv s → inFlight s → exec o s = Some s' → inFlight s'.
Proof using ev_call hold_count hold_step.
  intros HI [(b & Hq & Hc & t & pre & fr & post & Ht & Hh)|[HS Hc]] H.
  - pose proof (hold_count _ _ Hh) as Hfc.
    destruct (exec_cases zero _ _ _ HI H)
      as [(t' & -> & Hs)|[(_ & hp & N & sts & k & HA)|(_ & g & ->)]].
    + destruct (decide (t' = t)) as [->|Hne].
      * destruct pre as [|fr0 pre].
        -- simpl in Ht.
           destruct (hold_step _ _ _ _ _ _ HI Ht Hh Hq Hc Hs)
             as [(b' & pre' & fr' & post' & Hq' & Hc' & Ht' & Hh')|[HS Hc']].
           ++ left. exists b'. split; [done|]. split; [done|].
              by exists t, pre', fr', post'.
           ++ by right.
        -- simpl in Ht.
           assert (Hfr : frameCount q fr0 = 0).
           { pose proof (inv_unique _ HI q) as Hu. unfold targetCount in Hu.
             pose proof (sumOf_lookup_le (stackCount q) _ _ _ Ht) as Hle.
             change (stackCount q (fr0 :: ?b)) with (frameCount q fr0 + stackCount q b) in Hle.
             rewrite stackCount_app in Hle.
             change (stackCount q (fr :: post)) with (frameCount q fr + stackCount q post) in Hle.
             lia. }
           destruct (step_other zero t s s' fr0 _ q HI Ht Hs Hfr) as [Hc' Hcell].
           left. exists b. split; [by eapply sameButLock_hasFlag|].
           split; [congruence|].
           destruct (step_inv_top zero _ _ _ _ _ Ht Hs) as (frs & s1 & Hf & ->).
           exists t, (frs ++ pre), fr, post. split; [|done].
           rewrite <- app_assoc.
           eapply set_thread_lookup; [done|].
           by eapply FrameStep_threads, step_frame_shape.
      * destruct (step_decompose zero _ _ _ Hs) as (fr0 & rest & frs & s1 & Ht' & _ & _).
        assert (Hfr : frameCount q fr0 = 0).
        { pose proof (two_threads_count s t t' _ _ q Ht Ht' ltac:(done)) as Hle.
          pose proof (inv_unique _ HI q) as Hu. unfold targetCount in Hu.
          rewrite stackCount_app in Hle.
          change (stackCount q (fr :: post)) with (frameCount q fr + stackCount q post) in Hle.
          change (stackCount q (fr0 :: rest)) with (frameCount q fr0 + stackCount q rest) in Hle.
          lia. }
        destruct (step_other zero t' s s' fr0 rest q HI Ht' Hs Hfr) as [Hc' Hcell].
        left. exists b. split; [by eapply sameButLock_hasFlag|].
        split; [congruence|]. exists t, pre, fr, post. split; [|done].
        rewrite (step_threads zero _ _ _ t Hs); done.
    + left. exists b. split; [by eapply api_hasFlag|]. split.
      { unfold calls. by rewrite (api_log _ _ _ _ _ _ HA). }
      exists t, pre, fr, post. split; [|done].
      rewrite (api_threads _ _ _ _ _ _ HA). rewrite lookup_app_l; [done|].
      by eapply lookup_lt_Some.
    + left. exists b. split; [done|]. split; [done|]. by exists t, pre, fr, post.
  - right.
    destruct (settled_forever zero [o] s s' q r e HI HS) as [HS' Hc'].
    { simpl. by rewrite H. }
    split; [done|congruence].
Qed.

Lemma exec_linkTrack o (s s' : State) :
  Inv s → linkTrack s → exec o s = Some s' → linkTrack s'.
Proof using ev_call hold_count hold_step wait_count wait_same wait_grow wait_settle.
  intros HI [(Hq & Hc & P & HP & Hn & Hw)|(r0 & e1 & HS & HF)] H.
  - assert (Hqlt : q < length (heap s)).
    { destruct Hq as (Q & HQ & _). by eapply lookup_lt_Some. }
    pose proof (wait_count _ _ HI HP Hw) as Her.
    destruct (exec_cases zero _ _ _ HI H)
      as [(t & -> & Hs)|[(_ & hp & N & sts & k & HA)|(_ & g & ->)]].
    + destruct (step_decompose zero _ _ _ Hs) as (fr & rest & frs & s1 & Ht & _ & _).
      assert (Hfr : frameCount q fr = 0).
      { pose proof (inv_unique _ HI q) as Hu.
        pose proof (heap_count_le _ _ _ q HP) as Hh.
        unfold targetCount in *.
        pose proof (sumOf_lookup_le (stackCount q) _ _ _ Ht) as Hle2.
        change (stackCount q (fr :: rest)) with (frameCount q fr + stackCount q rest) in Hle2.
        lia. }
      destruct (step_other zero t s s' fr rest q HI Ht Hs Hfr) as [Hc' Hcell].
      assert (Hq' : pending s' q) by (by eapply sameButLock_hasFlag).
      destruct (step_cell zero t s s' fr rest p P Ht Hs HP)
        as (P' & HP' & [HSB|(r0 & e1 & -> & ->)]).
      * left. split; [done|]. split; [congruence|]. exists P'. split; [done|].
        split; [|by eapply wait_same]. destruct HSB as (-> & _). done.
      * right. exists r0, e1. split.
        { by exists (mkPromise false (doneMu P) None None r0 e1). }
        intros Hok. left. exists false. split; [done|]. split; [congruence|].
        destruct (step_inv_top zero _ _ _ _ _ Ht Hs) as (frs' & s2 & Hf & Hs').
        simpl in Hf.
        destruct (settle p r0 e1 s) as [[[tl el] s3]|] eqn:HSt;
          simpl in Hf; simplify_eq.
        apply settle_inv in HSt as (P0 & HP0 & -> & -> & ->). simplify_eq.
        exists t, [], (FLockDone p r0 e1 (thenList P) (errorList P)), rest.
        split; [by eapply set_thread_lookup|].
        destruct (inv_queues _ HI _ _ HP Hn) as [Htl Hel].
        by apply wait_settle.
    + destruct (api_lookup _ _ _ _ _ _ _ _ HA HP) as (P' & HP' & HG).
      left. split; [by eapply api_hasFlag|]. split.
      { unfold calls. by rewrite (api_log _ _ _ _ _ _ HA). }
      exists P'. split; [done|]. rewrite (cg_flag _ _ _ HG). split; [done|].
      eapply wait_grow; [done|done|lia].
    + left. split; [done|]. split; [done|]. by exists P.
  - right. exists r0, e1. split; [by eapply (exec_keeps_outcome zero)|].
    intros Hok. eapply exec_inFlight; [done|by apply HF|done].
Qed.

Lemma run_linkTrack os (s s' : State) :
  Inv s → linkTrack s → run os s = Some s' → linkTrack s'.
Proof using ev_call hold_count hold_step wait_count wait_same wait_grow wait_settle.
  revert s. induction os as [|o os IH]; intros s HI HT H; simplify_eq/=; [done|].
  destruct (exec o s) as [s1|] eqn:He; simplify_eq/=.
  eapply IH; [| |done]; [by eapply exec_Inv|by eapply exec_linkTrack].
Qed.

End Link.

(** *** [Then] on a pending promise that then succeeds *)

Lemma thenOnly_tail q f (h : @ThenHandler V E M) hs :
  thenOnly q f (h :: hs) →
  h = ThenHn q f ∨ (thenTarget h ≠ q ∧ thenOnly q f hs).
Proof.
  intros [Hc Hh]. destruct (decide (thenTarget h = q)) as [Hq|Hq].
  - left. apply Hh; [by left|done].
  - right. split; [done|]. split.
    + simpl in Hc. rewrite decide_False in Hc by congruence. done.
    + intros h' Hin. apply Hh. by right.
Qed.

Lemma thenOnly_grow q f n (hs tl : list (@ThenHandler V E M)) :
  thenOnly q f hs → Forall (λ h, thenTarget h = n) tl → q ≠ n →
  thenOnly q f (hs ++ tl).
Proof.
  intros [Hc Hh] Hel Hne. split.
  - rewrite fmap_app, count_app, Hc, (count_fresh_zero _ _ _ _ Hel Hne). lia.
  - intros h Hin Ht. apply elem_of_app in Hin as [Hin|Hin]; [by apply Hh|].
    rewrite Forall_forall in Hel. apply Hel in Hin. congruence.
Qed.

Lemma thenHold_count q f v r e b (fr : Frame) :
  thenHold q f v r e b fr → frameCount q fr = 1.
Proof.
  unfold frameCount.
  destruct fr as [q' [|f' r'| | | |]|q' [?|] ?|q' r' e'|q' r' e' tl el|q' e' hs|q' r' hs|];
    simpl; try done.
  - intros (_ & -> & _). by rewrite decide_True.
  - intros (_ & -> & _). by rewrite decide_True.
  - intros (_ & -> & _). by rewrite decide_True.
  - intros (_ & _ & -> & hs & -> & Hc & _). done.
  - intros (_ & _ & Hc & _). done.
Qed.

Lemma thenHold_step q f v r e n t (s s' : State) b fr post :
  returnsIn r e n (f v) →
  Inv s → threads s !! t = Some (fr :: post) → thenHold q f v r e b fr →
  pending s q → calls q s = (if b then [EvCallThen q v] else []) →
  step t s = Some s' →
  (∃ (b' : bool) pre fr' post', pending s' q ∧
     calls q s' = (if b' then [EvCallThen q v] else []) ∧
     threads s' !! t = Some (pre ++ fr' :: post') ∧ thenHold q f v r e b' fr') ∨
  (settledWith s' q r e ∧ calls q s' = [EvCallThen q v]).
Proof.
  intros Hfv HI Ht Hh Hq Hc Hs.
  destruct fr as [q' [|f' r'| | | |]|q' [?|] u|q' r' e'|q' r' e' tl el|q' e' hs|q' r' hs|];
    simpl in Hh; try done.
  - destruct Hh as (-> & -> & -> & ->).
    destruct (step_inv_top zero _ _ _ _ _ Ht Hs) as (frs & s1 & Hf & ->).
    simpl in Hf. simplify_eq. left.
    exists true, [], (FRun q None (f v)), post. split; [done|]. split.
    { change (calls q (set_thread ?a ?b ?c)) with (calls q c).
      rewrite calls_add_log_true by (simpl; by apply bool_decide_eq_true).
      by rewrite Hc. }
    split; [by eapply set_thread_lookup|]. simpl. eauto.
  - destruct Hh as (-> & -> & j & Hj).
    destruct (step_inv_top zero _ _ _ _ _ Ht Hs) as (frs & s1 & Hf & ->).
    destruct u as [[r' e']|g k]; simpl in Hf, Hj.
    + simplify_eq. left.
      exists true, [], (FSettle q r e), post. split; [done|]. split; [done|].
      split; [by eapply set_thread_lookup|done].
    + destruct j as [|j]; [done|].
      destruct (g (mem s)) as [m'|] eqn:Hg; simpl in Hf; simplify_eq. left.
      exists true, [], (FRun q None (k (mem s))), post. split; [done|].
      split; [done|]. split; [by eapply set_thread_lookup|]. simpl.
      split; [done|]. split; [done|]. exists j. apply Hj.
  - destruct Hh as (-> & -> & -> & ->).
    destruct (settle_step zero _ _ _ _ _ _ _ Ht Hs) as [HS Hc']. right.
    split; [done|congruence].
  - destruct Hh as (-> & -> & -> & hs & -> & Hp).
    destruct (step_inv_top zero _ _ _ _ _ Ht Hs) as (frs & s1 & Hf & ->).
    simpl in Hf. destruct (lockDone q' s) as [s2|] eqn:HL; simpl in Hf; simplify_eq.
    apply lockDone_inv in HL as (P & HP & _ & ->). left.
    exists false, [], (FPassThen q' v hs), post.
    split; [by apply lock_keeps_pending|]. split; [done|].
    split; [by eapply set_thread_lookup|done].
  - destruct Hh as (-> & -> & Hp). destruct hs as [|h hs].
    { destruct Hp as [Hc0 _]. simpl in Hc0. lia. }
    destruct (step_inv_top zero _ _ _ _ _ Ht Hs) as (frs & s1 & Hf & ->).
    simpl in Hf. simplify_eq. left.
    assert (Hcl : calls q (set_thread t
               ([invokeThen h v; FPassThen q' v hs] ++ post)
               (add_log (EvThenHandler q' h v) s)) = []).
    { change (calls q (set_thread ?a ?b ?c)) with (calls q c).
      by rewrite calls_add_log. }
    destruct (thenOnly_tail _ _ _ _ Hp) as [->|[Hne Hp']].
    + exists false, [], (FCall q (PThen f v)), (FPassThen q' v hs :: post).
      split; [done|]. split; [done|]. split; [by eapply set_thread_lookup|done].
    + exists false, [invokeThen h v], (FPassThen q' v hs), post.
      split; [done|]. split; [done|]. split; [by eapply set_thread_lookup|done].
Qed.

Lemma Then_pending_only p f (s s1 : State) q :
  WF s → pending s p → Then zero p f s = Some (q, s1) →
  q = length (heap s) ∧ pending s1 q ∧ calls q s1 = [] ∧
  ∃ P, heap s1 !! p = Some P ∧ notDone P = true ∧
       thenOnly q f (queue (thenList P)).
Proof.
  intros [HI HC] (P & HP & Hn) H. unfold Then in H. rewrite HP in H. simpl in H.
  rewrite Hn in H.
  destruct (pushBack (thenList P) _) as [tl|] eqn:Htl; simpl in H; simplify_eq.
  destruct (pushBack (errorList P) _) as [el|] eqn:Hel; simpl in H; simplify_eq.
  apply pushBack_Some in Htl as (tl0 & Htl0 & ->).
  apply pushBack_Some in Hel as (el0 & Hel0 & ->).
  split; [done|].
  destruct (fresh_counts s p P (length (heap s)) HI HP ltac:(done)) as [He Ht].
  assert (Hp : p < length (heap s)) by (by eapply lookup_lt_Some).
  split; [|split].
  - exists (pendingPromise zero). split; [|done]. simpl.
    rewrite lookup_app_r by (by rewrite length_insert).
    rewrite length_insert, Nat.sub_diag. done.
  - apply HC. done.
  - eexists. split.
    { simpl. rewrite lookup_app_l by (by rewrite length_insert).
      by apply list_lookup_insert_eq. }
    split; [done|]. simpl.
    unfold thenCount in Ht. rewrite Htl0 in Ht. simpl in Ht. split.
    + rewrite fmap_app, count_app, Ht. simpl. by rewrite decide_True.
    + intros h Hin Hth. apply elem_of_app in Hin as [Hin|Hin].
      * exfalso.
        assert (0 < count (length (heap s)) (thenTarget <$> tl0)); [|lia].
        apply count_pos_elem. rewrite <- Hth. by apply list_elem_of_fmap_2.
      * by apply list_elem_of_singleton in Hin.
Qed.

(** X10.  [Then(p, f)] called while [p] is pending, when [p] then settles
    with the value [v] and no error, for a handler such that [f(v)]
    returns [(r, e)] after at most [n] steps that cannot be blocked:
    whatever the schedule, in every later state in which [p] is done, [f]
    has been called at most once, and then with [v]; the derived promise
    [q] is pending or settled with [(r, e)], and settled only after [f]
    was called; and as soon as no goroutine has anything left to do, [q]
    is settled with [(r, e)] and [f] has been called exactly once. *)
Theorem Then_on_pending_then_success (m : M) os1 os2 (s s1 s' : State) p f q v n r e :
  run os1 (init m) = Some s →
  Resolve p s = Some None →
  Then zero p f s = Some (q, s1) →
  run os2 s1 = Some s' →
  Resolve p s' = Some (Some (v, None)) →
  returnsIn r e n (f v) →
  (calls q s' = [] ∨ calls q s' = [EvCallThen q v]) ∧
  (Resolve q s' = Some None ∨ Resolve q s' = Some (Some (r, e))) ∧
  (Resolve q s' ≠ Some None → calls q s' = [EvCallThen q v]) ∧
  (idle s' →
     Resolve q s' = Some (Some (r, e)) ∧ calls q s' = [EvCallThen q v]).
Proof.
  intros H1 Hp HT H2 HR Hfv.
  assert (HW : WF s) by (eapply run_WF; [apply init_WF|done]).
  apply pending_Resolve in Hp. apply Resolve_settledWith in HR.
  destruct (Then_pending_only _ _ _ _ _ HW Hp HT) as (-> & Hq1 & Hc1 & P & HP & Hn & Ho).
  assert (HI1 : Inv s1).
  { eapply (exec_Inv zero (OThen p f)); [apply HW|]. simpl. by rewrite HT. }
  set (q := length (heap s)) in *.
  assert (HL : linkTrack p q (λ P, thenOnly q f (queue (thenList P)))
                 (λ r0 e1, r0 = v ∧ e1 = None) (thenHold q f v r e)
                 (EvCallThen q v) r e s').
  { eapply (run_linkTrack p q (EvCallThen q v) r e _ _ (thenHold q f v r e)).
    - simpl. by apply bool_decide_eq_true.
    - apply thenHold_count.
    - intros. by eapply thenHold_step.
    - intros s0 P0 HI0 HP0 [Hc0 _]. pose proof (inv_then _ HI0 _ _ q HP0) as Hle.
      unfold thenCount in Hle. lia.
    - intros P0 P' Hw (_ & -> & _). done.
    - intros k P0 P' Hw HG Hne. destruct (cg_then _ _ _ HG) as (tl & -> & Htl).
      by eapply thenOnly_grow.
    - intros P0 r0 e1 Hw [tl Htl] _ [-> ->]. simpl. rewrite Htl in *. eauto 10.
    - done.
    - left. split; [done|]. split; [done|]. by exists P.
    - done. }
  destruct HL as [(_ & _ & P' & HP' & Hn' & _)|(r0 & e1 & HS & HF)].
  { destruct HR as (Q & HQ & HnQ & _). simplify_eq. congruence. }
  destruct (settledWith_inj _ _ _ _ _ _ HS HR) as [-> ->].
  destruct (HF ltac:(done)) as [(b & Hq & Hc & t & pre & fr & post & Ht & Hh)|[HSq Hc]].
  - apply pending_Resolve in Hq. split; [|split; [|split]].
    + rewrite Hc. destruct b; [by right|by left].
    + by left.
    + intros Hne. done.
    + intros Hid. apply Hid in Ht. by destruct pre.
  - apply Resolve_settledWith in HSq. split; [by right|]. split; [by right|].
    split; [done|]. done.
Qed.

(** *** [Catch] on a pending promise that then fails *)

Lemma catchOnly_tail q f (h : @ErrHandler V E M) hs :
  catchOnly q f (h :: hs) →
  h = CatchHn q f ∨ (errTarget h ≠ q ∧ catchOnly q f hs).
Proof.
  intros [Hc Hh]. destruct (decide (errTarget h = q)) as [Hq|Hq].
  - left. apply Hh; [by left|done].
  - right. split; [done|]. split.
    + simpl in Hc. rewrite decide_False in Hc by congruence. done.
    + intros h' Hin. apply Hh. by right.
Qed.

Lemma catchOnly_grow q f n (hs el : list (@ErrHandler V E M)) :
  catchOnly q f hs → Forall (λ h, errTarget h = n) el → q ≠ n →
  catchOnly q f (hs ++ el).
Proof.
  intros [Hc Hh] Hel Hne. split.
  - rewrite fmap_app, count_app, Hc, (count_fresh_zero _ _ _ _ Hel Hne). lia.
  - intros h Hin Ht. apply elem_of_app in Hin as [Hin|Hin]; [by apply Hh|].
    rewrite Forall_forall in Hel. apply Hel in Hin. congruence.
Qed.

Lemma catchHold_count q f e0 r e b (fr : Frame) :
  catchHold q f e0 r e b fr → frameCount q fr = 1.
Proof.
  unfold frameCount.
  destruct fr as [q' [| | |f' e'| |]|q' [?|] ?|q' r' e'|q' r' e' tl el|q' e' hs|q' r' hs|];
    simpl; try done.
  - intros (_ & -> & _). by rewrite decide_True.
  - intros (_ & -> & _). by rewrite decide_True.
  - intros (_ & -> & _). by rewrite decide_True.
  - intros (_ & -> & hs & -> & Hc & _). done.
  - intros (_ & _ & Hc & _). done.
Qed.

Lemma catchHold_step q f e0 r e n t (s s' : State) b fr post :
  returnsIn r e n (f (Some e0)) →
  Inv s → threads s !! t = Some (fr :: post) → catchHold q f e0 r e b fr →
  pending s q → calls q s = (if b then [EvCallCatch q (Some e0)] else []) →
  step t s = Some s' →
  (∃ (b' : bool) pre fr' post', pending s' q ∧
     calls q s' = (if b' then [EvCallCatch q (Some e0)] else []) ∧
     threads s' !! t = Some (pre ++ fr' :: post') ∧ catchHold q f e0 r e b' fr') ∨
  (settledWith s' q r e ∧ calls q s' = [EvCallCatch q (Some e0)]).
Proof.
  intros Hfv HI Ht Hh Hq Hc Hs.
  destruct fr as [q' [| | |f' e'| |]|q' [?|] u|q' r' e'|q' r' e' tl el|q' e' hs|q' r' hs|];
    simpl in Hh; try done.
  - destruct Hh as (-> & -> & -> & ->).
    destruct (step_inv_top zero _ _ _ _ _ Ht Hs) as (frs & s1 & Hf & ->).
    simpl in Hf. simplify_eq. left.
    exists true, [], (FRun q None (f (Some e0))), post. split; [done|]. split.
    { change (calls q (set_thread ?a ?b ?c)) with (calls q c).
      rewrite calls_add_log_true by (simpl; by apply bool_decide_eq_true).
      by rewrite Hc. }
    split; [by eapply set_thread_lookup|]. simpl. eauto.
  - destruct Hh as (-> & -> & j & Hj).
    destruct (step_inv_top zero _ _ _ _ _ Ht Hs) as (frs & s1 & Hf & ->).
    destruct u as [[r' e']|g k]; simpl in Hf, Hj.
    + simplify_eq. left.
      exists true, [], (FSettle q r e), post. split; [done|]. split; [done|].
      split; [by eapply set_thread_lookup|done].
    + destruct j as [|j]; [done|].
      destruct (g (mem s)) as [m'|] eqn:Hg; simpl in Hf; simplify_eq. left.
      exists true, [], (FRun q None (k (mem s))), post. split; [done|].
      split; [done|]. split; [by eapply set_thread_lookup|]. simpl.
      split; [done|]. split; [done|]. exists j. apply Hj.
  - destruct Hh as (-> & -> & -> & ->).
    destruct (settle_step zero _ _ _ _ _ _ _ Ht Hs) as [HS Hc']. right.
    split; [done|congruence].
  - destruct Hh as (-> & -> & hs & -> & Hp).
    destruct (step_inv_top zero _ _ _ _ _ Ht Hs) as (frs & s1 & Hf & ->).
    simpl in Hf. destruct (lockDone q' s) as [s2|] eqn:HL; simpl in Hf; simplify_eq.
    apply lockDone_inv in HL as (P & HP & _ & ->). left.
    exists false, [], (FPassErr q' (Some e0) hs), post.
    split; [by apply lock_keeps_pending|]. split; [done|].
    split; [by eapply set_thread_lookup|done].
  - destruct Hh as (-> & -> & Hp). destruct hs as [|h hs].
    { destruct Hp as [Hc0 _]. simpl in Hc0. lia. }
    destruct (step_inv_top zero _ _ _ _ _ Ht Hs) as (frs & s1 & Hf & ->).
    simpl in Hf. simplify_eq. left.
    assert (Hcl : calls q (set_thread t
               ([invokeErr h (Some e0); FPassErr q' (Some e0) hs] ++ post)
               (add_log (EvErrHandler q' h (Some e0)) s)) = []).
    { change (calls q (set_thread ?a ?b ?c)) with (calls q c).
      by rewrite calls_add_log. }
    destruct (catchOnly_tail _ _ _ _ Hp) as [->|[Hne Hp']].
    + exists false, [], (FCall q (PCatch f (Some e0))), (FPassErr q' (Some e0) hs :: post).
      split; [done|]. split; [done|]. split; [by eapply set_thread_lookup|done].
    + exists false, [invokeErr h (Some e0)], (FPassErr q' (Some e0) hs), post.
      split; [done|]. split; [done|]. split; [by eapply set_thread_lookup|done].
Qed.

Lemma Catch_pending_only p f (s s1 : State) q :
  WF s → pending s p → Catch zero p f s = Some (q, s1) →
  q = length (heap s) ∧ pending s1 q ∧ calls q s1 = [] ∧
  ∃ P, heap s1 !! p = Some P ∧ notDone P = true ∧
       catchOnly q f (queue (errorList P)).
Proof.
  intros [HI HC] (P & HP & Hn) H. unfold Catch in H. rewrite HP in H. simpl in H.
  rewrite Hn in H.
  destruct (pushBack (errorList P) _) as [el|] eqn:Hel; simpl in H; simplify_eq.
  apply pushBack_Some in Hel as (el0 & Hel0 & ->).
  split; [done|].
  destruct (fresh_counts s p P (length (heap s)) HI HP ltac:(done)) as [He Ht].
  assert (Hp : p < length (heap s)) by (by eapply lookup_lt_Some).
  split; [|split].
  - exists (pendingPromise zero). split; [|done]. simpl.
    rewrite lookup_app_r by (by rewrite length_insert).
    rewrite length_insert, Nat.sub_diag. done.
  - apply HC. done.
  - eexists. split.
    { simpl. rewrite lookup_app_l by (by rewrite length_insert).
      by apply list_lookup_insert_eq. }
    split; [done|]. simpl.
    unfold errCount in He. rewrite Hel0 in He. simpl in He. split.
    + rewrite fmap_app, count_app, He. simpl. by rewrite decide_True.
    + intros h Hin Hth. apply elem_of_app in Hin as [Hin|Hin].
      * exfalso.
        assert (0 < count (length (heap s)) (errTarget <$> el0)); [|lia].
        apply count_pos_elem. rewrite <- Hth. by apply list_elem_of_fmap_2.
      * by apply list_elem_of_singleton in Hin.
Qed.

(** X11.  [Catch(p, f)] called while [p] is pending, when [p] then settles
    with the error [e0], for a handler such that [f(e0)] returns [(r, e)]
    after at most [n] steps that cannot be blocked: whatever the schedule,
    in every later state in which [p] is done, [f] has been called at most
    once, and then with [e0]; the derived promise [q] is pending or
    settled with [(r, e)], and settled only after [f] was called; and as
    soon as no goroutine has anything left to do, [q] is settled with
    [(r, e)] and [f] has been called exactly once. *)
Theorem Catch_on_pending_then_failure (m : M) os1 os2 (s s1 s' : State)
    p f q v e0 n r e :
  run os1 (init m) = Some s →
  Resolve p s = Some None →
  Catch zero p f s = Some (q, s1) →
  run os2 s1 = Some s' →
  Resolve p s' = Some (Some (v, Some e0)) →
  returnsIn r e n (f (Some e0)) →
  (calls q s' = [] ∨ calls q s' = [EvCallCatch q (Some e0)]) ∧
  (Resolve q s' = Some None ∨ Resolve q s' = Some (Some (r, e))) ∧
  (Resolve q s' ≠ Some None → calls q s' = [EvCallCatch q (Some e0)]) ∧
  (idle s' →
     Resolve q s' = Some (Some (r, e)) ∧ calls q s' = [EvCallCatch q (Some e0)]).
Proof.
  intros H1 Hp HT H2 HR Hfv.
  assert (HW : WF s) by (eapply run_WF; [apply init_WF|done]).
  apply pending_Resolve in Hp. apply Resolve_settledWith in HR.
  destruct (Catch_pending_only _ _ _ _ _ HW Hp HT) as (-> & Hq1 & Hc1 & P & HP & Hn & Ho).
  assert (HI1 : Inv s1).
  { eapply (exec_Inv zero (OCatch p f)); [apply HW|]. simpl. by rewrite HT. }
  set (q := length (heap s)) in *.
  assert (HL : linkTrack p q (λ P, catchOnly q f (queue (errorList P)))
                 (λ r0 e1, e1 = Some e0) (catchHold q f e0 r e)
                 (EvCallCatch q (Some e0)) r e s').
  { eapply (run_linkTrack p q (EvCallCatch q (Some e0)) r e _ _ (catchHold q f e0 r e)).
    - simpl. by apply bool_decide_eq_true.
    - apply catchHold_count.
    - intros. by eapply catchHold_step.
    - intros s0 P0 HI0 HP0 [Hc0 _]. unfold errCount. lia.
    - intros P0 P' Hw (_ & _ & -> & _). done.
    - intros k P0 P' Hw HG Hne. destruct (cg_error _ _ _ HG) as (el & -> & Hel).
      by eapply catchOnly_grow.
    - intros P0 r0 e1 Hw _ [el Hel] ->. simpl. rewrite Hel in *. eauto 10.
    - done.
    - left. split; [done|]. split; [done|]. by exists P.
    - done. }
  destruct HL as [(_ & _ & P' & HP' & Hn' & _)|(r0 & e1 & HS & HF)].
  { destruct HR as (Q & HQ & HnQ & _). simplify_eq. congruence. }
  destruct (settledWith_inj _ _ _ _ _ _ HS HR) as [-> ->].
  destruct (HF ltac:(done)) as [(b & Hq & Hc & t & pre & fr & post & Ht & Hh)|[HSq Hc]].
  - apply pending_Resolve in Hq. split; [|split; [|split]].
    + rewrite Hc. destruct b; [by right|by left].
    + by left.
    + intros Hne. done.
    + intros Hid. apply Hid in Ht. by destruct pre.
  - apply Resolve_settledWith in HSq. split; [by right|]. split; [by right|].
    split; [done|]. done.
Qed.

(** ** The order in which handlers are called *)

Lemma isPending_true (s : State) p P :
  heap s !! p = Some P → notDone P = true → isPending p s = true.
Proof. intros HP Hn. unfold isPending. by rewrite HP. Qed.

Lemma isPending_settled (s : State) p r e :
  settledWith s p r e → isPending p s = false.
Proof. intros (P & HP & Hn & _). unfold isPending. by rewrite HP. Qed.

Lemma here_settled (s : State) p r e o :
  settledWith s p r e → hereThen p o s = [] ∧ hereErr p o s = [].
Proof.
  intros HS. pose proof (isPending_settled _ _ _ _ HS) as Hp.
  destruct o; simpl; try done; case_decide; by rewrite ?Hp.
Qed.

(** Once [p] is done, nothing is pushed on its queues. *)
Lemma pushed_settled os (s : State) p r e :
  Inv s → settledWith s p r e →
  pushedThen zero p os s = [] ∧ pushedErr zero p os s = [].
Proof.
  revert s. induction os as [|o os IH]; intros s HI HS; simpl; [done|].
  destruct (exec o s) as [s1|] eqn:He; [|done].
  destruct (here_settled s p r e o HS) as [-> ->]. simpl.
  apply IH; [by eapply exec_Inv|by eapply (exec_keeps_outcome zero)].
Qed.

(** What a call of the interface does to the queues of a pending
    promise: [Then] and [Catch] on it push their wrappers at the back,
    every other call leaves them as they are. *)
Lemma exec_api_queue o (s s1 : State) p P :
  (∀ t, o ≠ OStep t) → exec o s = Some s1 →
  heap s !! p = Some P → notDone P = true →
  ∃ P1, heap s1 !! p = Some P1 ∧ notDone P1 = true ∧
    queue (thenList P1) = queue (thenList P) ++ hereThen p o s ∧
    queue (errorList P1) = queue (errorList P) ++ hereErr p o s.
Proof.
  intros Hns H HP Hn.
  assert (Hlt : p < length (heap s)) by (by eapply lookup_lt_Some).
  assert (Hsame : ∀ N : Promise, (heap s ++ [N]) !! p = Some P)
    by (intros N; by rewrite lookup_app_l).
  pose proof (isPending_true _ _ _ HP Hn) as Hpe.
  destruct o as [t|u|arg f|v|e| |p' f|p' f|g]; simpl in H.
  - by destruct (Hns t).
  - simplify_eq. exists P. simpl. by rewrite !app_nil_r.
  - simplify_eq. exists P. simpl. by rewrite !app_nil_r.
  - simplify_eq. exists P. simpl. by rewrite !app_nil_r.
  - simplify_eq. exists P. simpl. by rewrite !app_nil_r.
  - simplify_eq. exists P. simpl. by rewrite !app_nil_r.
  - unfold Then in H. destruct (heap s !! p') as [P'|] eqn:HP'; simpl in H; [|done].
    destruct (notDone P') eqn:Hn'.
    + destruct (pushBack (thenList P') _) as [tl|] eqn:Htl; simpl in H; [|done].
      destruct (pushBack (errorList P') _) as [el|] eqn:Hel; simpl in H; [|done].
      simplify_eq. simpl. destruct (decide (p' = p)) as [->|Hne].
      * simplify_eq. rewrite Hpe.
        apply pushBack_Some in Htl as (tl0 & Htl0 & ->).
        apply pushBack_Some in Hel as (el0 & Hel0 & ->).
        eexists. split.
        { rewrite lookup_app_l by (by rewrite length_insert).
          by apply list_lookup_insert_eq. }
        simpl. by rewrite Htl0, Hel0.
      * exists P. split.
        { rewrite lookup_app_l by (by rewrite length_insert).
          by rewrite list_lookup_insert_ne. }
        by rewrite !app_nil_r.
    + simplify_eq/=. exists P. split; [apply Hsame|].
      destruct (decide (p' = p)) as [->|Hne]; [simplify_eq; congruence|].
      by rewrite !app_nil_r.
  - unfold Catch in H. destruct (heap s !! p') as [P'|] eqn:HP'; simpl in H; [|done].
    destruct (notDone P') eqn:Hn'.
    + destruct (pushBack (errorList P') _) as [el|] eqn:Hel; simpl in H; [|done].
      simplify_eq. simpl. destruct (decide (p' = p)) as [->|Hne].
      * simplify_eq. rewrite Hpe.
        apply pushBack_Some in Hel as (el0 & Hel0 & ->).
        eexists. split.
        { rewrite lookup_app_l by (by rewrite length_insert).
          by apply list_lookup_insert_eq. }
        simpl. by rewrite Hel0, app_nil_r.
      * exists P. split.
        { rewrite lookup_app_l by (by rewrite length_insert).
          by rewrite list_lookup_insert_ne. }
        by rewrite !app_nil_r.
    + assert (Hq : heap s1 !! p = Some P).
      { destruct (err P'); simplify_eq/=; apply Hsame. }
      exists P. split; [done|].
      simpl. destruct (decide (p' = p)) as [->|Hne]; [simplify_eq; congruence|].
      by rewrite !app_nil_r.
  - simplify_eq. exists P. simpl. by rewrite !app_nil_r.
Qed.

Lemma exec_orderTrack o (s s' : State) p tl el :
  Inv s → PassInv s → orderTrack p tl el s → exec o s = Some s' →
  orderTrack p (tl ++ hereThen p o s) (el ++ hereErr p o s) s'.
Proof.
  intros HI HPI [(P & HP & Hn & Htl & Hel)|(r & e & HS & HT)] H.
  - assert (Hcase : (∃ t, o = OStep t) ∨ (∀ t, o ≠ OStep t)).
    { destruct o; try (right; intros ?; discriminate). left. eauto. }
    destruct Hcase as [[t ->]|Hns].
    + simpl in H. simpl. rewrite !app_nil_r.
      destruct (step_decompose zero _ _ _ H) as (fr & rest & frs & s1 & Ht & _ & _).
      destruct (step_cell zero t s s' fr rest p P Ht H HP)
        as (P' & HP' & [HSB|(r & e & -> & ->)]).
      * left. exists P'. destruct HSB as (-> & -> & -> & _). done.
      * right. exists r, e.
        destruct (settle_starts_pass zero t s s' p r e rest P HI HPI Ht HP H)
          as (_ & _ & _ & _ & HT).
        split; [by eexists|]. rewrite passEvents_queue in HT. by rewrite <- Htl, <- Hel.
    + destruct (exec_api_queue o s s' p P Hns H HP Hn) as (P1 & HP1 & Hn1 & Ht1 & He1).
      left. exists P1. rewrite Ht1, He1, Htl, Hel. done.
  - destruct (here_settled s p r e o HS) as [-> ->]. rewrite !app_nil_r.
    right. exists r, e. split; [by eapply (exec_keeps_outcome zero)|].
    by eapply (exec_passTrack zero).
Qed.

Lemma run_orderTrack os (s s' : State) p tl el :
  Inv s → PassInv s → orderTrack p tl el s → run os s = Some s' →
  orderTrack p (tl ++ pushedThen zero p os s) (el ++ pushedErr zero p os s) s'.
Proof.
  revert s tl el. induction os as [|o os IH]; intros s tl el HI HP HT H; simpl in *.
  - simplify_eq. by rewrite !app_nil_r.
  - destruct (exec o s) as [s1|] eqn:He; simpl in H; [|done].
    rewrite !app_assoc.
    eapply IH; [| | |done];
      [by eapply exec_Inv|by eapply (exec_PassInv zero)|by eapply exec_orderTrack].
Qed.

(** X12.  Handlers are called in the order of their registration, each
    with the outcome.  Let [p] be pending in a state [s], and let [tl]
    and [el] be its queues [thenList] and [errorList] as they are there,
    followed by the wrappers that the calls of [Then] and [Catch] on [p]
    in the schedule [os2] push while [p] is pending, in the order of the
    calls ([pushedThen], [pushedErr]).  In the state after [os2], if [p]
    is done with [(r, e)]:
    - the handlers of [p] that have been called are, in this order, a
      prefix of [el], each called with [e], when [e] is not nil, and of
      [tl], each called with [r], when [e] is nil; all of them have been
      called once no goroutine has anything left to do;
    - a frame of the pass of [p] runs [el] with [e], and only if [e] is
      not nil, or [tl] with [r], and only if [e] is nil, and it holds
      exactly the handlers that have not been called, in their order;
    - a step that calls a handler of [p] is the step of that frame which
      takes the first handler it has left and runs its wrapper with [e],
      or with [r]. *)
Theorem handlers_run_in_registration_order (m : M) os1 os2 (s s' : State) p P r e :
  run os1 (init m) = Some s →
  heap s !! p = Some P → notDone P = true →
  run os2 s = Some s' →
  Resolve p s' = Some (Some (r, e)) →
  let tl := queue (thenList P) ++ pushedThen zero p os2 s in
  let el := queue (errorList P) ++ pushedErr zero p os2 s in
  (∃ todo, handlerLog p s' ++ todo = passEvents p r e (Some tl) (Some el) ∧
           (idle s' → todo = [])) ∧
  (∀ t st fr, threads s' !! t = Some st → fr ∈ st → passHolds p r e tl el s' fr) ∧
  (∀ t s'', step t s' = Some s'' → passCalls p r e t s' s'').
Proof.
  intros H1 HP Hn H2 HR tl el.
  assert (HI : Inv s) by (eapply run_Inv; [apply init_Inv|done]).
  assert (HPI : PassInv s).
  { eapply (run_PassInv zero); [apply init_Inv|apply init_PassInv|done]. }
  assert (HO : PassOutcome s').
  { eapply (run_PassOutcome zero (os1 ++ os2)); [apply init_Inv|apply init_PassOutcome|].
    rewrite run_app, H1. done. }
  apply Resolve_settledWith in HR.
  destruct (run_orderTrack os2 s s' p (queue (thenList P)) (queue (errorList P)) HI HPI)
    as [(P' & HP' & Hn' & _)|(r' & e' & HS & HT)]; [|done| |].
  - left. by exists P.
  - destruct HR as (Q & HQ & HnQ & _). simplify_eq. congruence.
  - destruct (settledWith_inj _ _ _ _ _ _ HS HR) as [-> ->].
    fold tl el in HT. split; [|split].
    + destruct HT as [_ [(t & pre & fr & post & todo & Ht & _ & HX & _)|[HX _]]].
      * exists todo. split; [done|]. intros Hid. apply Hid in Ht. by destruct pre.
      * exists []. by rewrite app_nil_r.
    + intros t st fr Ht Hin. by eapply pass_frames_hold.
    + intros t s'' Hs. by eapply (pass_step_calls zero).
Qed.

End CoreMore.

(** * The linked list of handlers *)

Section StackFacts.

Context {A : Type}.

Local Abbreviation element := (Stack.element A).
Local Abbreviation seg := (@Stack.seg A).
Local Abbreviation repr := (@Stack.repr A).
Local Abbreviation walk := (@Stack.walk A).
Local Abbreviation push := (@Stack.push A).
Local Abbreviation pushAll := (@Stack.pushAll A).
Local Abbreviation extends := (@Stack.extends A).

Lemma seg_None (h : list element) xs n : seg h None xs (Some n) → False.
Proof. destruct xs as [|x xs]; simpl; [done|]. by intros (? & ? & ? & _). Qed.

Lemma seg_app (h : list element) a xs b ys c :
  seg h a xs b → seg h b ys c → seg h a (xs ++ ys) c.
Proof.
  revert a. induction xs as [|x xs IH]; intros a; simpl.
  - by intros ->.
  - intros (n & nx & -> & Hn & Hs) Hy. exists n, nx. eauto.
Qed.

Lemma seg_extends (h h' : list element) a xs b :
  extends h h' → seg h a xs b → seg h' a xs b.
Proof.
  intros He. revert a. induction xs as [|x xs IH]; intros a; simpl; [done|].
  intros (n & nx & -> & Hn & Hs). exists n, nx. split; [done|]. split; [|eauto].
  rewrite He; [done|]. by eapply lookup_lt_Some.
Qed.

(** The elements before the last one are not the last one: their [next]
    is not nil. *)
Lemma seg_update (h k : list element) a xs n y c :
  seg h a xs (Some n) → h !! n = Some (Stack.mkElement y None) →
  seg (<[n := c]> (h ++ k)) a xs (Some n).
Proof.
  intros Hs Hn. revert a Hs. induction xs as [|x xs IH]; intros a; simpl; [done|].
  intros (m & nx & -> & Hm & Hs). exists m, nx. split; [done|].
  split; [|eauto].
  assert (m ≠ n).
  { intros ->. simplify_eq. by apply seg_None in Hs. }
  rewrite list_lookup_insert_ne by done.
  rewrite lookup_app_l by (by eapply lookup_lt_Some). done.
Qed.

Lemma repr_start (h : list element) l n init x :
  seg h (Stack.start l) init (Some n) → h !! n = Some (Stack.mkElement x None) →
  is_Some (Stack.start l).
Proof.
  destruct init as [|y init]; simpl.
  - intros ->. eauto.
  - intros (m & nx & -> & _). eauto.
Qed.

Lemma push_spec (h : list element) l xs x :
  repr h l xs →
  ∃ l' h', push l x h = Some (length h, l', h') ∧
    repr h' l' (xs ++ [x]) ∧
    h' !! length h = Some (Stack.mkElement x None) ∧
    length h' = S (length h) ∧
    Stack.end_ l' = Some (length h) ∧
    ∀ i, i < length h → xs = [] ∨ Stack.end_ l ≠ Some i → h' !! i = h !! i.
Proof.
  intros [[-> Hs]|(n & init & y & -> & He & Hs & Hn)].
  - unfold Stack.push. rewrite Hs. eexists _, _. split; [done|].
    split; [|split; [|split; [|split]]].
    + right. exists (length h), [], x. simpl. split; [done|]. split; [done|].
      split; [done|]. by rewrite list_lookup_middle.
    + by rewrite list_lookup_middle.
    + rewrite length_app. simpl. lia.
    + done.
    + intros i Hi _. by rewrite lookup_app_l.
  - destruct (repr_start _ _ _ _ _ Hs Hn) as [a Ha].
    assert (Hlt : n < length h) by (by eapply lookup_lt_Some).
    unfold Stack.push. rewrite Ha, He. simpl.
    rewrite lookup_app_l by done. rewrite Hn. simpl.
    eexists _, _. split; [done|]. split; [|split; [|split; [|split]]].
    + right. exists (length h), (init ++ [y]), x. split; [done|]. split; [done|].
      simpl. split.
      * eapply seg_app; [rewrite <- Ha; by eapply seg_update|].
        simpl. exists n, (Some (length h)). split; [done|]. split; [|done].
        apply list_lookup_insert_eq. rewrite length_app. simpl. lia.
      * rewrite list_lookup_insert_ne by lia. by rewrite list_lookup_middle.
    + rewrite list_lookup_insert_ne by lia. by rewrite list_lookup_middle.
    + rewrite length_insert, length_app. simpl. lia.
    + done.
    + intros i Hi [Hnil|Hne]; [by destruct init|].
      rewrite list_lookup_insert_ne by congruence.
      by rewrite lookup_app_l.
Qed.

Lemma walk_seg (h : list element) a xs b fuel ys :
  seg h a xs b → walk fuel h b = Some ys →
  walk (length xs + fuel) h a = Some (xs ++ ys).
Proof.
  revert a. induction xs as [|x xs IH]; intros a; simpl.
  - by intros ->.
  - intros (n & nx & -> & Hn & Hs) Hw. rewrite Hn. simpl.
    rewrite (IH _ Hs Hw). done.
Qed.

Lemma walk_more (h : list element) a fuel fuel' ys :
  walk fuel h a = Some ys → fuel ≤ fuel' → walk fuel' h a = Some ys.
Proof.
  revert a fuel' ys. induction fuel as [|fuel IH]; intros [a|] fuel' ys; simpl.
  - done.
  - intros. simplify_eq. by destruct fuel'.
  - intros Hw Hle. destruct fuel' as [|fuel']; [lia|]. simpl.
    destruct (h !! a) as [el|]; simpl in *; [|done].
    destruct (walk fuel h (Stack.next el)) as [vs|] eqn:Hv; simpl in *; [|done].
    rewrite (IH _ fuel' _ Hv) by lia. done.
  - intros. simplify_eq. by destruct fuel'.
Qed.

(** X13.  [push] appends at the back.  On a stack that holds [xs], [push(x)]
    does not panic; it allocates one element, which holds [x] and has no
    successor, makes it the last one, and the stack holds [xs] followed by
    [x]; no element other than the former last one is written. *)
Theorem push_appends_at_the_back (h : list element) l xs x :
  repr h l xs →
  ∃ l' h', push l x h = Some (length h, l', h') ∧
    repr h' l' (xs ++ [x]) ∧
    h' !! length h = Some (Stack.mkElement x None) ∧
    Stack.end_ l' = Some (length h) ∧
    (∀ i, i < length h → Stack.end_ l ≠ Some i → h' !! i = h !! i).
Proof.
  intros Hr. destruct (push_spec h l xs x Hr) as (l' & h' & ? & ? & ? & ? & ? & Hfr).
  exists l', h'. repeat split; try done. intros i Hi Hne. apply Hfr; [done|by right].
Qed.

Lemma walk_repr (h : list element) l xs fuel :
  repr h l xs → length xs ≤ fuel →
  walk fuel h (Stack.start l) = Some xs.
Proof.
  intros [[-> ->]|(n & init & y & -> & He & Hs & Hn)] Hf.
  - by destruct fuel.
  - eapply walk_more; [|done]. rewrite length_app.
    apply (walk_seg _ _ _ _ 1 [y] Hs). simpl. by rewrite Hn.
Qed.

Lemma pushAll_frame (h0 : list element) ys :
  ∀ done l h, repr h l done → extends h0 h → length h0 ≤ length h →
    (done = [] ∨ ∃ n, Stack.end_ l = Some n ∧ length h0 ≤ n) →
    ∃ l2 h2, pushAll l ys h = Some (l2, h2) ∧ repr h2 l2 (done ++ ys) ∧
      extends h0 h2.
Proof.
  induction ys as [|y ys IH]; intros done l h Hr He Hlen Hend; simpl.
  - exists l, h. by rewrite app_nil_r.
  - destruct (push_spec h l done y Hr) as (l' & h' & -> & Hr' & _ & Hlen' & He' & Hfr).
    simpl. destruct (IH (done ++ [y]) l' h' Hr') as (l2 & h2 & -> & Hr2 & He2).
    + intros i Hi. rewrite <- He by done. apply Hfr; [lia|].
      destruct Hend as [->|(n & Hn & Hle)]; [by left|].
      right. rewrite Hn. intros ?. simplify_eq. lia.
    + lia.
    + right. exists (length h). split; [done|lia].
    + exists l2, h2. by rewrite <- app_assoc in Hr2.
Qed.

(** X15.  The queues that [call] detaches are safe from later pushes.
    [call] copies the stack and formats the original.  After [format] the
    original holds nothing; and whatever is pushed on it afterwards, in
    any number, the copy still holds exactly the handlers that it held,
    and the original holds exactly what was pushed since. *)
Theorem format_detaches (h : list element) l xs ys :
  repr h l xs →
  repr h (Stack.format l) [] ∧
  walk 0 h (Stack.start (Stack.format l)) = Some [] ∧
  ∃ l2 h2, pushAll (Stack.format l) ys h = Some (l2, h2) ∧
    repr h2 l xs ∧ repr h2 l2 ys ∧
    walk (length xs) h2 (Stack.start l) = Some xs ∧
    walk (length ys) h2 (Stack.start l2) = Some ys.
Proof.
  intros Hr.
  assert (Hr0 : repr h (Stack.format l) []) by (by left).
  split; [done|]. split; [done|].
  destruct (pushAll_frame h ys [] (Stack.format l) h Hr0) as (l2 & h2 & Hp & Hr2 & He);
    [done|done|by left|].
  exists l2, h2. split; [done|].
  assert (Hrl : repr h2 l xs).
  { destruct Hr as [[-> Hs]|(n & init & x & -> & Hen & Hs & Hn)]; [by left|].
    right. exists n, init, x. split; [done|]. split; [done|].
    split; [by eapply seg_extends|]. rewrite He; [done|]. by eapply lookup_lt_Some. }
  split; [done|]. split; [done|].
  split; by apply walk_repr.
Qed.

(** X14.  The loop of [call] visits the handlers in the order in which they
    were pushed.  Pushing [xs], one after the other, on the zero value of
    [stack] never panics, whatever the heap holds, and the walk from
    [start] along [next] then ends and yields exactly [xs]; the elements
    that were there before are as they were. *)
Theorem walk_visits_in_push_order (h : list element) xs :
  ∃ l h', pushAll (Stack.mkStack None None) xs h = Some (l, h') ∧
    (∀ fuel, length xs ≤ fuel → walk fuel h' (Stack.start l) = Some xs) ∧
    (∀ i, i < length h → h' !! i = h !! i).
Proof.
  destruct (pushAll_frame h xs [] (Stack.mkStack None None) h) as (l & h' & Hp & Hr & He);
    [by left|done|done|by left|].
  exists l, h'. split; [done|]. split; [|done].
  intros fuel Hf. by apply walk_repr.
Qed.

End StackFacts.

(** * The batch combinators *)

Section BatchFacts.

Context {V E : Type}.
Variable zero : V.
Variable NoPromises : E.

Local Abbreviation Sys := (@Sys V E).
Local Abbreviation CProg := (@CProg V E).
Local Abbreviation cstep := (@cstep V E zero).
Local Abbreviation sstep := (@sstep V E zero).
Local Abbreviation srun := (@srun V E zero).
Local Abbreviation Race := (@Race V E zero NoPromises).
Local Abbreviation next := (@next V E zero).
Local Abbreviation All := (@All V E zero).

(** A step of the machine with the caller's goroutines is at most one
    operation of the machine of the promises, so everything that holds for
    all schedules of the latter holds for the programs that use [All],
    [Race] and [Iterator]. *)
Lemma sstep_run x (σ σ' : Sys) :
  sstep x σ = Some σ' → ∃ os, run zero os (core σ) = Some (core σ').
Proof.
  destruct x as [t|c]; simpl.
  - intros H. destruct (step zero t (core σ)) as [s'|] eqn:Hs; simplify_eq/=.
    exists [OStep t]. simpl. by rewrite Hs.
  - unfold_cstep. intros H.
    destruct (clients σ !! c) as [g|]; simplify_eq/=.
    destruct g as [outs|f k|f k|v k|e k|p f k|p f k|p k|g' k]; simplify_eq/=.
    + destruct (f (mem (core σ))) as [m'|] eqn:Hf; simplify_eq/=.
      exists [OMem (λ _, m')]. done.
    + exists [ONewFn f]. done.
    + exists [ONewResolved v]. done.
    + exists [ONewRejected e]. done.
    + destruct (Then zero p f (core σ)) as [[q s']|] eqn:HT; simplify_eq/=.
      exists [OThen p f]. simpl. by rewrite HT.
    + destruct (Catch zero p f (core σ)) as [[q s']|] eqn:HT; simplify_eq/=.
      exists [OCatch p f]. simpl. by rewrite HT.
    + destruct (Resolve p (core σ)) as [r|]; simplify_eq/=. by exists [].
    + by exists [].
Qed.

Lemma srun_run xs (σ σ' : Sys) :
  srun xs σ = Some σ' → ∃ os, run zero os (core σ) = Some (core σ').
Proof.
  revert σ. induction xs as [|x xs IH]; intros σ H; simplify_eq/=.
  - by exists [].
  - destruct (sstep x σ) as [σ1|] eqn:Hx; simplify_eq/=.
    destruct (sstep_run _ _ _ Hx) as [os1 H1]. destruct (IH _ H) as [os2 H2].
    exists (os1 ++ os2). rewrite run_app, H1. done.
Qed.

(** C6.  [Race] without promises returns the zero value and [NoPromises]
    at once: the call is its return, whatever the program around it does
    next, and a goroutine that only makes this call is over, with this
    result, before any step is taken. *)
Theorem Race_no_promises :
  (∀ k : V → option E → CProg, Race [] k = k zero (Some NoPromises)) ∧
  returned 0 (boot (Race [] (λ v e, CRet [ORace v e])))
    = Some [ORace zero (Some NoPromises)].
Proof. split; [intros k|]; reflexivity. Qed.

(** X16.  The function returned by [Iterator], when every promise has been
    consumed: it answers end = true with the zero value and a nil error,
    in one step that is never blocked, and leaves [index] as it is, so
    that every later call does the same. *)
Lemma next_at_end promises index k c (σ : Sys) :
  clients σ !! c = Some (next promises index k) →
  readNat index (mem (core σ)) = length promises →
  cstep c σ = Some (set_client c (k zero true None) σ (core σ)).
Proof.
  intros Hc Hi. unfold_cstep. rewrite Hc. simpl.
  rewrite decide_True by done. simpl. rewrite Hi.
  rewrite lookup_ge_None_2 by done. by destruct (core σ).
Qed.

(** X17.  The fast path: the promise of the next slot is done; the call takes two
    steps, neither of which can be blocked, and returns what [Resolve]
    gives, with end = false; [index] has moved on by one. *)
Lemma next_fast_path promises index k c (σ : Sys) i p v e :
  clients σ !! c = Some (next promises index k) →
  readNat index (mem (core σ)) = i →
  promises !! i = Some p →
  Resolve p (core σ) = Some (Some (v, e)) →
  ∃ σ1 σ2, cstep c σ = Some σ1 ∧ cstep c σ1 = Some σ2 ∧
    clients σ2 !! c = Some (k v false e) ∧
    mem (core σ2) = <[index := CNat (S i)]> (mem (core σ)) ∧
    heap (core σ2) = heap (core σ) ∧ threads (core σ2) = threads (core σ).
Proof.
  intros Hc Hi Hp HR.
  assert (Hlt : i < length promises) by (by eapply lookup_lt_Some).
  assert (Hcl : c < length (clients σ)) by (by eapply lookup_lt_Some).
  eexists _, _. split; [|split].
  - unfold_cstep. rewrite Hc. simpl.
    rewrite decide_False by lia. simpl. rewrite Hi, Hp. done.
  - unfold_cstep. simpl.
    rewrite list_lookup_insert_eq by done. simpl.
    change (Resolve p (set_mem ?m ?s)) with (Resolve p s). rewrite HR. simpl. done.
  - simpl. split; [|done].
    by rewrite list_lookup_insert_eq by (by rewrite length_insert).
Qed.

Lemma lookup_snoc_length {A} (l : list A) x : (l ++ [x]) !! length l = Some x.
Proof. by apply list_lookup_middle. Qed.

(** X18.  [All] without promises: after its three steps, none of which can be
    blocked, it returns an empty sequence and a nil error. *)
Lemma All_no_promises k c (σ : Sys) :
  clients σ !! c = Some (All [] k) →
  ∃ σ', srun [Cli c; Cli c; Cli c] σ = Some σ' ∧
        clients σ' !! c = Some (k [] None) ∧
        heap (core σ') = heap (core σ) ∧ threads (core σ') = threads (core σ).
Proof.
  intros Hc.
  assert (Hcl : c < length (clients σ)) by (by eapply lookup_lt_Some).
  eexists. split.
  - simpl. unfold_cstep. rewrite Hc. simpl.
    rewrite list_lookup_insert_eq by done. simpl.
    rewrite list_lookup_insert_eq by (by rewrite length_insert). simpl.
    unfold groupWait. rewrite app_nil_r, lookup_snoc_length. simpl. done.
  - simpl. rewrite list_lookup_insert_eq by (by rewrite !length_insert).
    unfold groupResult. rewrite lookup_snoc_length. done.
Qed.

End BatchFacts.

(** * Every schedule of a closed program *)

Ltac unfold_sstepE := unfold sstepE.
Ltac unfold_sstepE_in H := unfold sstepE in H.
Ltac unfold_allSteps := unfold allSteps.

Section ExploreFacts.

Context {V E : Type}.
Variable zero : V.

Local Abbreviation Mem := (list (@Cell V E)).
Local Abbreviation State := (@State V E Mem).
Local Abbreviation Sys := (@Sys V E).
Local Abbreviation CProg := (@CProg V E).
Local Abbreviation sstep := (@sstep V E zero).
Local Abbreviation sstepE := (@sstepE V E zero).
Local Abbreviation srun := (@srun V E zero).
Local Abbreviation tableOk := (@tableOk V E zero).
Local Abbreviation allSteps := (@allSteps V E zero).
Local Abbreviation canStep := (@canStep V E zero).
Local Abbreviation verdict := (@verdict V E zero).

(** ** The ghost record is read by no step *)

Lemma step_frame_erase (fr : @Frame V E Mem) (s : State) :
  (λ r, (r.1, eraseS r.2)) <$> step_frame zero fr (eraseS s)
  = (λ r, (r.1, eraseS r.2)) <$> step_frame zero fr s.
Proof.
  destruct fr as [q [u|f r|e|f e|p r e f|p e f]|q held [[r e]|g k]|q r e|q r e tl el
                 |q e [|h hs]|q r [|h hs]|]; simpl; try done;
    unfold lockDone, unlockDone, settle; simpl.
  - destruct (heap s !! p) as [P|]; simpl; [|done].
    destruct (doneMu P); simpl; [done|]. by destruct e.
  - destruct (heap s !! p) as [P|]; simpl; [|done].
    destruct (doneMu P); simpl; done.
  - destruct held as [p|]; simpl; [|done].
    destruct (heap s !! p) as [P|]; simpl; done.
  - destruct (g (mem s)); simpl; done.
  - destruct (heap s !! q) as [P|]; simpl; done.
  - destruct (heap s !! q) as [P|]; simpl; [|done].
    destruct (doneMu P); simpl; [done|].
    destruct e; [destruct el|destruct tl]; done.
  - destruct (heap s !! q) as [P|]; simpl; done.
  - destruct (heap s !! q) as [P|]; simpl; done.
Qed.

Lemma step_erase t (s : State) :
  eraseS <$> step zero t (eraseS s) = eraseS <$> step zero t s.
Proof.
  unfold_step. simpl. destruct (threads s !! t) as [[|fr rest]|]; simpl; try done.
  pose proof (step_frame_erase fr s) as H.
  destruct (step_frame zero fr s) as [[frs s']|],
           (step_frame zero fr (eraseS s)) as [[frs2 s2]|]; simplify_eq/=; try done.
  unfold eraseS in *. simpl. congruence.
Qed.

Lemma Then_erase p f (s : State) :
  (λ r, (r.1, eraseS r.2)) <$> Then zero p f (eraseS s)
  = (λ r, (r.1, eraseS r.2)) <$> Then zero p f s.
Proof.
  unfold Then. simpl. destruct (heap s !! p) as [P|]; simpl; [|done].
  destruct (notDone P); [|done].
  destruct (pushBack (thenList P) _); simpl; [|done].
  destruct (pushBack (errorList P) _); simpl; done.
Qed.

Lemma Catch_erase p f (s : State) :
  (λ r, (r.1, eraseS r.2)) <$> Catch zero p f (eraseS s)
  = (λ r, (r.1, eraseS r.2)) <$> Catch zero p f s.
Proof.
  unfold Catch. simpl. destruct (heap s !! p) as [P|]; simpl; [|done].
  destruct (notDone P).
  - destruct (pushBack (errorList P) _); simpl; done.
  - destruct (err P); done.
Qed.

Lemma cstep_erase c (σ : Sys) :
  erase <$> cstep zero c (erase σ) = erase <$> cstep zero c σ.
Proof.
  unfold_cstep. simpl. destruct (clients σ !! c) as [g|]; simpl; [|done].
  destruct g as [outs|f k|f k|v k|e k|p f k|p f k|p k|g' k]; simpl; try done.
  - destruct (f (mem (core σ))); done.
  - pose proof (Then_erase p f (core σ)) as H.
    destruct (Then zero p f (core σ)) as [[q s']|],
             (Then zero p f (eraseS (core σ))) as [[q2 s2]|]; simplify_eq/=; try done.
    unfold erase, eraseS in *. simpl in *. congruence.
  - pose proof (Catch_erase p f (core σ)) as H.
    destruct (Catch zero p f (core σ)) as [[q s']|],
             (Catch zero p f (eraseS (core σ))) as [[q2 s2]|]; simplify_eq/=; try done.
    unfold erase, eraseS in *. simpl in *. congruence.
  - change (Resolve p (eraseS (core σ))) with (Resolve p (core σ)).
    destruct (Resolve p (core σ)); done.
Qed.

Lemma sstepE_erase x (σ : Sys) : sstepE x (erase σ) = sstepE x σ.
Proof.
  destruct x as [t|c]; unfold_sstepE; simpl.
  - pose proof (step_erase t (core σ)) as H.
    destruct (step zero t (core σ)) as [s'|],
             (step zero t (eraseS (core σ))) as [s2|]; simplify_eq/=; try done.
    unfold erase, eraseS in *. simpl in *. congruence.
  - apply cstep_erase.
Qed.

(** ** From the table to every schedule *)

Lemma lookupKey_elem k (L : list (list nat * Sys)) σ :
  lookupKey k L = Some σ → (k, σ) ∈ L ∨ ∃ k', (k', σ) ∈ L.
Proof.
  induction L as [|[k' σ'] L IH]; simpl; [done|].
  destruct (eqb_key k k').
  - intros. simplify_eq. right. exists k'. by left.
  - intros H. destruct (IH H) as [?|(k2 & ?)]; [left|right; exists k2]; by right.
Qed.

Lemma lookupT_elem k (T : list (list (list nat * Sys))) σ :
  lookupT k T = Some σ → σ ∈ statesOf T.
Proof.
  unfold lookupT, statesOf. intros H.
  destruct (T !! hashKey k) as [b|] eqn:Hb; simplify_eq/=.
  assert (∃ k', (k', σ) ∈ b) as (k' & Hin).
  { destruct (lookupKey_elem _ _ _ H) as [?|?]; eauto. }
  apply list_elem_of_fmap. exists (k', σ). split; [done|].
  apply list_elem_of_In, in_concat. exists b.
  split; apply list_elem_of_In; [by eapply list_elem_of_lookup_2|done].
Qed.

Lemma fmap_fixed {A} (f : A → A) (l : list A) a : f <$> l = l → a ∈ l → f a = a.
Proof.
  induction l as [|b l IH]; intros H Hin; [by apply elem_of_nil in Hin|].
  simpl in H. injection H as Hb Hl.
  apply elem_of_cons in Hin as [->|Hin]; [done|by apply IH].
Qed.

Lemma elem_cands_Lib nt nc t : t < nt → Lib t ∈ cands nt nc.
Proof.
  intros Ht. apply elem_of_app. left. apply list_elem_of_fmap_2.
  apply elem_of_seq. lia.
Qed.

Lemma elem_cands_Cli nt nc c : c < nc → Cli c ∈ cands nt nc.
Proof.
  intros Hc. apply elem_of_app. right. apply list_elem_of_fmap_2.
  apply elem_of_seq. lia.
Qed.

Lemma sstep_bounded nt nc x (σ σ' : Sys) :
  bounded nt nc σ = true → sstep x σ = Some σ' → x ∈ cands nt nc.
Proof.
  unfold bounded. intros Hb H. apply andb_true_iff in Hb as [Ht Hc].
  apply Nat.leb_le in Ht, Hc. destruct x as [t|c]; simpl in H.
  - apply elem_cands_Lib. unfold_step.
    destruct (threads (core σ) !! t) as [st|] eqn:Hl; simplify_eq/=.
    apply lookup_lt_Some in Hl. lia.
  - apply elem_cands_Cli. unfold_cstep.
    destruct (clients σ !! c) as [g|] eqn:Hl; simplify_eq/=.
    apply lookup_lt_Some in Hl. lia.
Qed.

Lemma table_closed d nt nc σ0 allowed (T : list (list (list nat * Sys))) (σ σ' : Sys) x :
  tableOk d nt nc σ0 allowed T → erase σ ∈ statesOf T → sstep x σ = Some σ' →
  erase σ' ∈ statesOf T.
Proof.
  intros Heq Hin Hs. injection Heq as _ Htab Hb _ _.
  assert (HE : sstepE x (erase σ) = Some (erase σ')).
  { rewrite sstepE_erase. unfold_sstepE. by rewrite Hs. }
  assert (Hx : x ∈ cands nt nc).
  { rewrite forallb_forall in Hb.
    assert (Hbp : bounded nt nc (erase σ) = true).
    { apply Hb. by apply list_elem_of_In. }
    unfold_sstepE_in HE. destruct (sstep x (erase σ)) as [σ2|] eqn:H2; [|done].
    by eapply sstep_bounded. }
  assert (Hall : Some (erase σ') ∈ allSteps nt nc (statesOf T)).
  { unfold_allSteps. apply list_elem_of_In, in_concat.
    exists ((λ x, sstepE x (erase σ)) <$> cands nt nc). split.
    - apply list_elem_of_In, list_elem_of_fmap. by exists (erase σ).
    - apply list_elem_of_In, list_elem_of_fmap. by exists x. }
  pose proof (fmap_fixed _ _ _ Htab Hall) as Hf. simpl in Hf.
  by eapply lookupT_elem.
Qed.

Lemma run_closed d nt nc σ0 allowed (T : list (list (list nat * Sys))) xs (σ σ' : Sys) :
  tableOk d nt nc σ0 allowed T → erase σ ∈ statesOf T → srun xs σ = Some σ' →
  erase σ' ∈ statesOf T.
Proof.
  intros Htab. revert σ. induction xs as [|x xs IH]; intros σ Hin H; simplify_eq/=; [done|].
  destruct (sstep x σ) as [σ1|] eqn:Hs; simplify_eq/=.
  eapply IH; [|done]. by eapply table_closed.
Qed.

Lemma pick_elem (allowed : list (list (@Out V E))) outs :
  pick allowed outs = Some outs → outs ∈ allowed.
Proof. intros H. apply find_some in H as [H _]. by apply list_elem_of_In. Qed.

Lemma fmap_eq_elem {A B} (f g : A → B) (l : list A) a :
  f <$> l = g <$> l → a ∈ l → f a = g a.
Proof.
  induction l as [|b l IH]; intros H Hin; [by apply elem_of_nil in Hin|].
  simpl in H. injection H as Hb Hl.
  apply elem_of_cons in Hin as [->|Hin]; [done|by apply IH].
Qed.

Lemma canStep_step nt nc (σ : Sys) :
  canStep nt nc (erase σ) = true → ∃ x σ', sstep x σ = Some σ'.
Proof.
  unfold canStep. intros H. apply existsb_exists in H as (x & _ & Hx).
  rewrite sstepE_erase in Hx. unfold_sstepE_in Hx.
  destruct (sstep x σ) as [σ'|] eqn:Hs; [eauto|done].
Qed.

Lemma idleb_idle (σ : Sys) : idleb (erase σ) = true → idle (core σ).
Proof.
  unfold idleb. simpl. rewrite forallb_forall. intros H t st Ht.
  apply list_elem_of_lookup_2, list_elem_of_In, H in Ht. by destruct st.
Qed.

(** A program that passes the check: under every schedule, goroutine 0
    of the caller's side returns one of [allowed], if it returns; and when
    nothing can take a step any more, it has returned and every goroutine
    of the package is over. *)
Lemma check_sound d nt nc (g : CProg) allowed (T : list (list (list nat * Sys))) xs (σ : Sys) :
  tableOk d nt nc (erase (boot g)) allowed T →
  srun xs (boot g) = Some σ → verdict allowed σ.
Proof.
  intros Htab Hrun.
  assert (Hin : erase σ ∈ statesOf T).
  { eapply run_closed; [done| |done]. injection Htab as H0 _ _ _ _.
    simpl in H0. by eapply lookupT_elem. }
  injection Htab as _ _ _ Hprog Hret.
  assert (HR : ∀ outs, returned 0 σ = Some outs → outs ∈ allowed).
  { intros outs Ho. apply pick_elem.
    apply (fmap_eq_elem _ _ _ outs Hret).
    apply list_elem_of_omap. by exists (erase σ). }
  split.
  - destruct (returned 0 σ) as [outs|] eqn:Ho; [|by left]. right. eauto.
  - intros Hst. rewrite forallb_forall in Hprog.
    specialize (Hprog (erase σ) ltac:(by apply list_elem_of_In)).
    apply orb_true_iff in Hprog as [Hc|Hd].
    + apply canStep_step in Hc as (x & σ' & Hs). rewrite (Hst x) in Hs. done.
    + apply andb_true_iff in Hd as [Hr Hi]. split; [|by apply idleb_idle].
      unfold returnedb in Hr. change (returned 0 (erase σ)) with (returned 0 σ) in Hr.
      destruct (returned 0 σ) as [outs|] eqn:Ho; [|done]. eauto.
Qed.

Lemma verdict_one (outs : list (@Out V E)) (σ : Sys) :
  verdict [outs] σ →
  (returned 0 σ = None ∨ returned 0 σ = Some outs) ∧
  (stuck zero σ → returned 0 σ = Some outs ∧ idle (core σ)).
Proof.
  intros [H1 H2]. split.
  - destruct H1 as [?|(o & Ho & ?)]; [by left|right].
    apply list_elem_of_singleton in Ho as ->. done.
  - intros Hst. destruct (H2 Hst) as [(o & Ho & ?) ?].
    apply list_elem_of_singleton in Ho as ->. done.
Qed.

(** ** The programs *)

Ltac model_check :=
  cbv beta delta [checked]; intros T; unfold tableOk;
  lazymatch goal with |- _ = ?rhs => vm_cast_no_check (eq_refl rhs) end.

Lemma iterTwo_checked (v1 v2 : V) :
  checked (E:=E) zero 2000 6 4 1 (iterTwo zero v1 v2)
    [[ONext v1 false None; ONext v2 false None; ONext zero true None]].
Proof. model_check. Qed.

Lemma allOne_checked (v : V) :
  checked (E:=E) zero 2000 6 4 3 (allOne zero v) [[OAll [v] None]].
Proof. model_check. Qed.

Lemma allOneFail_checked (v : V) (e0 : E) :
  checked zero 2000 6 4 3 (allOneFail zero v e0) [[OAll [zero] (Some e0)]].
Proof. model_check. Qed.

Lemma raceTwo_checked (np : E) (v : V) (e0 : E) :
  checked zero 5000 6 6 2 (raceTwo zero np v e0)
    [[ORace v None]; [ORace zero (Some e0)]].
Proof. model_check. Qed.




End ExploreFacts.

(** * Test cases *)

Module Cases.

Import Examples.

Lemma call_settles_then_runs_handlers_witness :
  run zeroV [OStep 0; OStep 0] boomSettled = Some boomCalling ∧
  threads boomCalling !! 0 =
    Some [FCall 1 (PErr (Some "boom"));
          FPassErr 0 (Some "boom") [CatchHn 2 handler]] ∧
  (∃ todo,
     handlerLog 0 boomCalling ++ todo =
       [EvErrHandler 0 (PropHn 1) (Some "boom");
        EvErrHandler 0 (CatchHn 2 handler) (Some "boom")]) ∧
  (∃ called,
     [PropHn 1; CatchHn 2 handler] = called ++ [CatchHn 2 handler] ∧
     handlerLog 0 boomCalling = (λ h, EvErrHandler 0 h (Some "boom")) <$> called).
Proof.
  assert (H1 : run zeroV boomWithHandlers (init ()) = Some boomReady)
    by (vm_compute; reflexivity).
  assert (H2 : run zeroV [OStep 0; OStep 0] boomSettled = Some boomCalling)
    by (vm_compute; reflexivity).
  assert (Ht : threads boomCalling !! 0 =
                 Some [FCall 1 (PErr (Some "boom"));
                       FPassErr 0 (Some "boom") [CatchHn 2 handler]])
    by reflexivity.
  destruct (call_settles_then_runs_handlers zeroV () boomWithHandlers
              [OStep 0; OStep 0] boomReady boomSettled boomCalling 0 0 0 (Some "boom") []
              (mkPromise true false (Some [ThenHn 1 addTen])
                 (Some [PropHn 1; CatchHn 2 handler]) 0 None)
              H1 eq_refl eq_refl eq_refl H2)
    as (_ & _ & _ & _ & (todo & Htodo & _) & Hholds & _).
  split; [exact H2|]. split; [exact Ht|]. split; [exists todo; exact Htodo|].
  destruct (Hholds 0 _ (FPassErr 0 (Some "boom") [CatchHn 2 handler]) Ht
              ltac:(right; left) eq_refl) as (_ & _ & called & Hc & Hl).
  exists called. split; [exact Hc|exact Hl].
Defined.

(** C2, the queue fields after the critical section.  The promise 0 of
    [boomWithHandlers] has one success handler and two failure handlers
    when its goroutine enters the critical section of [call].  After this
    step both queue fields are nil: they are not empty queues, as
    [list.New()] gives them, on which [PushBack] works, while on nil it
    panics. *)
Lemma call_leaves_nil_queues :
  run zeroV boomWithHandlers (init ()) = Some boomReady ∧
  threads boomReady !! 0 = Some [FSettle 0 0 (Some "boom")] ∧
  step zeroV 0 boomReady = Some boomSettled ∧
  ∃ P' : @Promise nat string unit,
    heap boomSettled !! 0 = Some P' ∧
    thenList P' = None ∧ errorList P' = None ∧
    ¬ (thenList P' = Some [] ∧ errorList P' = Some []) ∧
    pushBack (thenList P') (ThenHn 3 addTen) = None ∧
    pushBack (thenList (pendingPromise zeroV : @Promise nat string unit))
      (ThenHn 3 addTen) = Some [ThenHn 3 addTen].
Proof.
  split; [reflexivity|]. split; [reflexivity|]. split; [reflexivity|].
  eexists. split; [reflexivity|]. split; [reflexivity|]. split; [reflexivity|].
  split; [intros [H _]; discriminate H|]. split; reflexivity.
Qed.

Lemma settle_once_witness :
  ∃ s' : St,
    run zeroV [ONewZero; OThen 0 addTen; OStep 0] (NewResolved 5 (init ())).2 = Some s' ∧
    Resolve 0 s' = Some (Some (5, None)) ∧
    Resolve 0 s' ≠ Some None ∧
    (∀ q, settleCount q s' ≤ 1).
Proof.
  eexists. split; [reflexivity|].
  apply (settle_once zeroV () [ONewResolved 5] [ONewZero; OThen 0 addTen; OStep 0]
           (NewResolved 5 (init ())).2 _ 0 5 None); reflexivity.
Defined.

Lemma zero_value_promise_is_resolved_witness :
  ∃ s' : St,
    run zeroV [ONewFn (URet (5, None)); OStep 0] (NewZero zeroV (init ())).2 = Some s' ∧
    Resolve 0 s' = Some (Some (0, None)) ∧
    Catch zeroV 0 handler s' =
      Some (length (heap s'),
            alloc (mkPromise false false (Some []) (Some []) zeroV None) s').
Proof.
  eexists. split; [reflexivity|].
  destruct (zero_value_promise_is_resolved (E:=string) zeroV () [] [ONewFn (URet (5, None)); OStep 0]
              (init ()) _ eq_refl eq_refl) as (_ & H2 & _ & H4).
  split; [exact H2|exact (H4 handler)].
Defined.

Lemma NewFnWithArg_as_NewFn_witness :
  ∃ s' : St,
    run zeroV settleSlowly (NewFnWithArg zeroV 3 addTenSlowly (init ())).2 = Some s' ∧
    run zeroV settleSlowly (NewFn zeroV (addTenSlowly 3) (init ())).2 = Some s' ∧
    Resolve 0 s' = Some (Some (13, None)).
Proof.
  eexists. split; [reflexivity|].
  destruct (NewFnWithArg_as_NewFn (E:=string) zeroV () [] settleSlowly (init ()) _ 3
              addTenSlowly eq_refl eq_refl) as (_ & H2 & _ & H4).
  split; [exact H2|].
  destruct (H4 1 13 None) as (_ & _ & H5).
  - intros m. split; [exists m; reflexivity|reflexivity].
  - apply H5. simpl. lia.
Defined.

Lemma rejected_with_nil_is_success_witness :
  ∃ s' : St,
    run zeroV [ONewFn (URet (5, None))] (NewRejected zeroV None (init ())).2 = Some s' ∧
    Resolve 0 s' = Some (Some (0, None)).
Proof.
  eexists. split; [reflexivity|].
  apply (rejected_with_nil_is_success (E:=string) zeroV () [] [ONewFn (URet (5, None))]
           (init ()) _ eq_refl eq_refl).
Defined.


(** C1.  [Catch] called on a promise that is still pending, which then
    settles successfully with 5: the handler is never called, but the
    derived promise is not settled, and it never will be, whatever happens
    next. *)
Theorem Catch_on_pending_success_stays_pending :
  Resolve 0 pendingFive = Some None ∧
  Catch zeroV 0 handler pendingFive = Some (1, catchOnPending) ∧
  run zeroV settleIt catchOnPending = Some catchSettled ∧
  Resolve 0 catchSettled = Some (Some (5, None)) ∧
  ∀ os s', run zeroV os catchSettled = Some s' →
    Resolve 1 s' = Some None ∧ calls 1 s' = [].
Proof.
  split; [reflexivity|]. split; [reflexivity|].
  split; [reflexivity|]. split; [reflexivity|].
  intros os s' H.
  assert (HW : WF pendingFive).
  { eapply (run_WF zeroV [ONewFn (URet (5, None))]); [apply init_WF|reflexivity]. }
  destruct (Catch_pending_then_success zeroV (settleIt ++ os) pendingFive
              catchOnPending s' 0 5 handler 1 HW) as [Hq Hc].
  - apply pending_Resolve. reflexivity.
  - reflexivity.
  - rewrite run_app. exact H.
  - eapply run_keeps_outcome; [|exact H|].
    + eapply (run_Inv zeroV (OCatch 0 handler :: settleIt)); [apply HW|reflexivity].
    + apply Resolve_settledWith. reflexivity.
  - split; [by apply pending_Resolve|done].
Qed.

Lemma Catch_on_pending_success_stays_pending_witness :
  Resolve 0 catchSettled = Some (Some (5, None)) ∧
  Resolve 1 catchSettled = Some None.
Proof.
  destruct Catch_on_pending_success_stays_pending as (_ & _ & _ & H4 & H5).
  split; [exact H4|]. exact (proj1 (H5 [] catchSettled eq_refl)).
Defined.

(** [All(NewResolved(1), NewResolved(2), NewResolved(3))] returns
    [([1, 2, 3], nil)]. *)
Lemma All_happy_path :
  srun zeroV allHappySchedule (boot allHappy) = Some (after allHappySchedule allHappy) ∧
  returned 0 (after allHappySchedule allHappy) = Some [OAll [1; 2; 3] None].
Proof. split; vm_compute; reflexivity. Qed.

(** C5.  [All] over a promise that is rejected with "x" and a promise whose
    producer never returns: the first promise is settled with the failure,
    and yet [All] has not returned and never will, since no goroutine can
    take a step any more: [Wait] waits for the goroutine of the second
    promise. *)
Theorem All_waits_for_every_promise :
  let σ := after allRejectedSchedule allRejectedAndBlocked in
  srun zeroV allRejectedSchedule (boot allRejectedAndBlocked) = Some σ ∧
  Resolve 0 (core σ) = Some (Some (0, Some "x")) ∧
  Resolve 1 (core σ) = Some None ∧
  returned 0 σ = None ∧
  stuck zeroV σ.
Proof.
  split; [vm_compute; reflexivity|].
  split; [reflexivity|]. split; [reflexivity|]. split; [reflexivity|].
  intros [t|c].
  - do 3 (destruct t as [|t]; [reflexivity|]). reflexivity.
  - do 3 (destruct c as [|c]; [reflexivity|]). reflexivity.
Qed.

(** C7.  The function returned by [Iterator], called while the promise of
    its slot is pending; the promise then settles with the value 7 and the
    error "b".  The call returns the zero value with the error, not the
    value of the slot, which [Resolve] shows to be 7; called after the
    promise has settled, it returns 7 with the error. *)
Theorem Iterator_blocking_path_drops_the_value :
  let slow := after iterSlowSchedule iterPartial in
  let fast := after iterFastSchedule iterPartial in
  srun zeroV iterSlowSchedule (boot iterPartial) = Some slow ∧
  Resolve 0 (core slow) = Some (Some (7, Some "b")) ∧
  returned 0 slow = Some [ONext 0 false (Some "b")] ∧
  srun zeroV iterFastSchedule (boot iterPartial) = Some fast ∧
  Resolve 0 (core fast) = Some (Some (7, Some "b")) ∧
  returned 0 fast = Some [ONext 7 false (Some "b")].
Proof. repeat split; vm_compute; reflexivity. Qed.

(** [Iterator(NewResolved(1), NewRejected(errors.New("b")))], called four
    times: the outcomes in the order of the arguments, then the end, twice. *)
Lemma Iterator_order_and_end :
  returned 0
    (after [Cli 0; Cli 0; Cli 0; Cli 0; Cli 0; Cli 0; Cli 0; Cli 0; Cli 0] iterDrain)
  = Some [ONext 1 false None; ONext 0 false (Some "b");
          ONext 0 true None; ONext 0 true None].
Proof. vm_compute; reflexivity. Qed.

End Cases.

(** * Further test cases *)

Module MoreCases.

Import Examples MoreExamples.

Lemma doneMu_mutual_exclusion_witness :
  holdTotal 0 (stateAfter boomInPass) = 1 ∧
  ∃ P, heap (stateAfter boomInPass) !! 0 = Some P ∧ doneMu P = true.
Proof.
  destruct (doneMu_mutual_exclusion zeroV () boomInPass (stateAfter boomInPass) 0 eq_refl)
    as (_ & H & _).
  split; [reflexivity|]. apply H. reflexivity.
Defined.

Lemma no_handler_before_settlement_witness :
  handlerLog 0 (stateAfter [ONewFn (URet (5, None)); OThen 0 addTen; OStep 0]) = [] ∧
  passTotal 0 (stateAfter [ONewFn (URet (5, None)); OThen 0 addTen; OStep 0]) = 0.
Proof.
  apply (no_handler_before_settlement zeroV ()
           [ONewFn (URet (5, None)); OThen 0 addTen; OStep 0] _ 0); reflexivity.
Defined.

Lemma call_never_panics_witness : ¬ panicked (stateAfter boomInPass).
Proof.
  apply (call_never_panics zeroV () boomInPass (stateAfter boomInPass) eq_refl).
Defined.

Lemma Then_Catch_never_panic_witness :
  ∃ s', Then zeroV 0 addTen pendingFive = Some (1, s').
Proof.
  destruct (Then_Catch_never_panic zeroV () [ONewFn (URet (5, None))] pendingFive 0
              (mkPromise true false (Some []) (Some []) 0 None) eq_refl eq_refl)
    as [H _].
  destruct (H addTen) as (s' & Hs & _). exists s'. exact Hs.
Defined.

Lemma one_call_per_promise_witness : targetCount 1 (stateAfter boomInPass) ≤ 1.
Proof.
  apply (one_call_per_promise zeroV () boomInPass (stateAfter boomInPass) 1 eq_refl).
Defined.

Lemma NewResolved_is_resolved_witness :
  ∃ s' : St,
    run zeroV [ONewFn (URet (5, None)); OThen 0 addTen; OStep 0]
      (NewResolved 5 (init ())).2 = Some s' ∧
    Resolve 0 s' = Some (Some (5, None)).
Proof.
  eexists. split; [reflexivity|].
  apply (NewResolved_is_resolved (E:=string) zeroV () []
           [ONewFn (URet (5, None)); OThen 0 addTen; OStep 0] (init ()) _ 5);
    reflexivity.
Defined.

Lemma NewRejected_is_rejected_witness :
  ∃ s' : St,
    run zeroV [OCatch 0 handler; OStep 0]
      (NewRejected zeroV (Some "boom") (init ())).2 = Some s' ∧
    Resolve 0 s' = Some (Some (0, Some "boom")).
Proof.
  eexists. split; [reflexivity|].
  apply (NewRejected_is_rejected zeroV () [] [OCatch 0 handler; OStep 0]
           (init ()) _ (Some "boom")); reflexivity.
Defined.

Lemma Then_on_settled_success_witness :
  ∃ s' : St,
    run zeroV [OStep 0; OStep 0; OStep 0; OStep 0] thenOnResolved = Some s' ∧
    Resolve 1 s' = Some (Some (15, None)) ∧ calls 1 s' = [EvCallThen 1 5].
Proof.
  eexists. split; [reflexivity|].
  destruct (Then_on_settled_success zeroV () [ONewResolved 5]
              [OStep 0; OStep 0; OStep 0; OStep 0]
              (stateAfter [ONewResolved 5]) thenOnResolved _ 0 5 addTenSlowly 1
              eq_refl eq_refl eq_refl eq_refl)
    as (_ & _ & _ & _ & _ & H).
  destruct (H 1 15 None) as [_ H'].
  - intros m. split; [exists m; reflexivity|reflexivity].
  - apply H'. vm_compute. lia.
Defined.

Lemma Catch_on_settled_failure_witness :
  ∃ s' : St,
    run zeroV [OStep 0; OStep 0; OStep 0; OStep 0] catchOnRejected = Some s' ∧
    Resolve 1 s' = Some (Some (1, None)) ∧
    calls 1 s' = [EvCallCatch 1 (Some "boom")].
Proof.
  eexists. split; [reflexivity|].
  destruct (Catch_on_settled_failure zeroV () [ONewRejected (Some "boom")]
              [OStep 0; OStep 0; OStep 0; OStep 0]
              (stateAfter [ONewRejected (Some "boom")]) catchOnRejected _
              0 0 "boom" handlerSlowly 1
              eq_refl eq_refl eq_refl eq_refl)
    as (_ & _ & _ & _ & _ & H).
  destruct (H 1 1 None) as [_ H'].
  - intros m. split; [exists m; reflexivity|reflexivity].
  - apply H'. vm_compute. lia.
Defined.

Lemma Then_on_pending_then_success_witness :
  run zeroV runToEnd thenOnPending = Some thenOnPendingEnd ∧
  (Resolve 1 thenOnPendingEnd = Some None ∨
   Resolve 1 thenOnPendingEnd = Some (Some (15, None))) ∧
  (Resolve 1 thenOnPendingEnd ≠ Some None → calls 1 thenOnPendingEnd = [EvCallThen 1 5]).
Proof.
  assert (H : run zeroV runToEnd thenOnPending = Some thenOnPendingEnd)
    by (vm_compute; reflexivity).
  assert (HR : Resolve 0 thenOnPendingEnd = Some (Some (5, None)))
    by (vm_compute; reflexivity).
  assert (Hf : returnsIn (M:=unit) (E:=string) 15 None 1 (addTenSlowly 5)).
  { intros m. split; [exists m; reflexivity|reflexivity]. }
  split; [exact H|].
  destruct (Then_on_pending_then_success zeroV () [ONewFn (URet (5, None))] runToEnd
              pendingFive thenOnPending thenOnPendingEnd 0 addTenSlowly 1 5 1 15 None
              eq_refl eq_refl eq_refl H HR Hf)
    as (_ & H2 & H3 & _).
  split; [exact H2|exact H3].
Defined.

Lemma Catch_on_pending_then_failure_witness :
  run zeroV runToEnd catchOnPendingBoom = Some catchOnPendingBoomEnd ∧
  (Resolve 1 catchOnPendingBoomEnd = Some None ∨
   Resolve 1 catchOnPendingBoomEnd = Some (Some (1, None))) ∧
  (Resolve 1 catchOnPendingBoomEnd ≠ Some None →
     calls 1 catchOnPendingBoomEnd = [EvCallCatch 1 (Some "boom")]).
Proof.
  assert (H : run zeroV runToEnd catchOnPendingBoom = Some catchOnPendingBoomEnd)
    by (vm_compute; reflexivity).
  assert (HR : Resolve 0 catchOnPendingBoomEnd = Some (Some (0, Some "boom")))
    by (vm_compute; reflexivity).
  assert (Hf : returnsIn (M:=unit) (E:=string) 1 None 1 (handlerSlowly (Some "boom"))).
  { intros m. split; [exists m; reflexivity|reflexivity]. }
  split; [exact H|].
  destruct (Catch_on_pending_then_failure zeroV () [ONewFn (URet (0, Some "boom"))]
              runToEnd pendingBoom catchOnPendingBoom catchOnPendingBoomEnd
              0 handlerSlowly 1 0 "boom" 1 1 None
              eq_refl eq_refl eq_refl H HR Hf)
    as (_ & H2 & H3 & _).
  split; [exact H2|exact H3].
Defined.

Lemma handlers_run_in_registration_order_witness :
  pushedErr zeroV 0 [OCatch 0 handler; OStep 0; OStep 0; OStep 0; OStep 0] boomAfterThen
    = [CatchHn 2 handler] ∧
  ∃ todo,
    handlerLog 0 boomPassState ++ todo =
      passEvents 0 0 (Some "boom") (Some [ThenHn 1 addTen])
        (Some [PropHn 1; CatchHn 2 handler]).
Proof.
  assert (H1 : run zeroV [ONewFn (URet (0, Some "boom")); OThen 0 addTen] (init ())
               = Some boomAfterThen) by (vm_compute; reflexivity).
  assert (H2 : run zeroV [OCatch 0 handler; OStep 0; OStep 0; OStep 0; OStep 0]
                 boomAfterThen = Some boomPassState) by (vm_compute; reflexivity).
  assert (HR : Resolve 0 boomPassState = Some (Some (0, Some "boom")))
    by (vm_compute; reflexivity).
  split; [vm_compute; reflexivity|].
  destruct (handlers_run_in_registration_order zeroV ()
              [ONewFn (URet (0, Some "boom")); OThen 0 addTen]
              [OCatch 0 handler; OStep 0; OStep 0; OStep 0; OStep 0]
              boomAfterThen boomPassState 0
              (mkPromise true false (Some [ThenHn 1 addTen]) (Some [PropHn 1]) 0 None)
              0 (Some "boom") H1 eq_refl eq_refl H2 HR)
    as [(todo & H & _) _].
  exists todo. exact H.
Defined.

Lemma push_appends_at_the_back_witness :
  ∃ l' h', Stack.push twoStack 3 twoElements = Some (2, l', h') ∧
           Stack.repr h' l' [1; 2; 3].
Proof.
  destruct (push_appends_at_the_back twoElements twoStack [1; 2] 3)
    as (l' & h' & Hp & Hr & _).
  - right. exists 1, [1], 2. split; [reflexivity|]. split; [reflexivity|].
    split; [|reflexivity]. simpl. exists 0, (Some 1). repeat split.
  - exists l', h'. split; [exact Hp|exact Hr].
Defined.

Lemma format_detaches_witness :
  ∃ l2 h2, Stack.pushAll (Stack.format twoStack) [7; 8] twoElements = Some (l2, h2) ∧
           Stack.walk 2 h2 (Stack.start twoStack) = Some [1; 2] ∧
           Stack.walk 2 h2 (Stack.start l2) = Some [7; 8].
Proof.
  destruct (format_detaches twoElements twoStack [1; 2] [7; 8])
    as (_ & _ & l2 & h2 & Hp & _ & _ & H1 & H2).
  - right. exists 1, [1], 2. split; [reflexivity|]. split; [reflexivity|].
    split; [|reflexivity]. simpl. exists 0, (Some 1). repeat split.
  - exists l2, h2. split; [exact Hp|]. split; [exact H1|exact H2].
Defined.

Lemma next_at_end_witness :
  cstep zeroV 0 iterAtEnd =
    Some (set_client 0 (CRet [ONext 0 true None]) iterAtEnd (core iterAtEnd)).
Proof.
  apply (next_at_end zeroV [0; 1] 0 (λ val fin err, CRet [ONext val fin err]) 0 iterAtEnd);
    reflexivity.
Defined.

Lemma next_fast_path_witness :
  ∃ σ1 σ2, cstep zeroV 0 iterAtStart = Some σ1 ∧ cstep zeroV 0 σ1 = Some σ2 ∧
    clients σ2 !! 0 = Some (CRet [ONext 7 false None]).
Proof.
  destruct (next_fast_path zeroV [0; 1] 0 (λ val fin err, CRet [ONext val fin err]) 0
              iterAtStart 0 0 7 None eq_refl eq_refl eq_refl eq_refl)
    as (σ1 & σ2 & H1 & H2 & H3 & _).
  exists σ1, σ2. split; [exact H1|]. split; [exact H2|exact H3].
Defined.

Lemma All_no_promises_witness :
  ∃ σ', srun zeroV [Cli 0; Cli 0; Cli 0] allEmpty = Some σ' ∧
        clients σ' !! 0 = Some (CRet [OAll [] None]).
Proof.
  destruct (All_no_promises zeroV (λ results err, CRet [OAll results err]) 0 allEmpty
              eq_refl)
    as (σ' & H1 & H2 & _).
  exists σ'. split; [exact H1|exact H2].
Defined.




End MoreCases.
